(** * Dependency-aware Fortran-to-Rust gap report: the classification core

    A shallow embedding of [scripts/fortran/generate-gap-report.py] and the
    properties of its symbol tables, dependency graph, origin propagation
    and classifier.

    Conventions of the embedding.
    - A Python [set[str]] is a [gset string]; a [dict] or [defaultdict(set)]
      read with [.get(k, set())] is a [gmap string (gset string)] read with
      [get_set].  The one dictionary that is iterated, [file_data], keeps
      its insertion order next to the map ([file_dict]).
    - [str] is [string]: a sequence of bytes (UTF-8).  [sorted] on [str]
      compares code points, which on UTF-8 is the byte-wise lexicographic
      order [String.le].  [upper]/[lower] are modelled on ASCII letters.
    - [FileData] objects live in [file_data] only; every set they hold is
      a fresh object ([set()], [set(sorted(..))], or filled by [update]),
      so no two records share a set and in-place mutation of a record is
      the replacement of its entry in the map.
    - The order in which a hash set is iterated is not fixed by Python; the
      places that iterate a set directly take the order from an enumeration
      function [set_iter] supplied with the run.
    - An uncaught exception and an exhausted iteration budget are results
      ([Raise], [Diverge]) next to [Ok].
    - Reading and writing files is taken to succeed.  An [OSError] of
      [open], [mkdir] or [write_text], and a manifest that is not valid
      UTF-8 or nests too deep for [json.load], are not among the results
      of the model: where a statement says that a stage or a run returns,
      it is about the runs in which no such failure occurs.
    - The line patterns of [parse_fortran_file] and the rendering of the
      CSV and Markdown text are outside this development: a run is given
      the four symbol sets of every file, and an artifact is the rows or
      the numbers that get rendered. *)

From Stdlib Require Import ZArith Ascii String.
From stdpp Require Import base option list sorting strings gmap fin_sets fin_maps.

Open Scope string_scope.
Open Scope nat_scope.
Set Warnings "-clear-no-such-hyp".

(** ** Python values used by the script *)

Module Py.

(** [str.upper] / [str.lower] on the ASCII letters. *)
Definition ascii_upper (c : ascii) : ascii :=
  let n := nat_of_ascii c in
  if (97 <=? n)%nat && (n <=? 122)%nat then ascii_of_nat (n - 32) else c.

Definition ascii_lower (c : ascii) : ascii :=
  let n := nat_of_ascii c in
  if (65 <=? n)%nat && (n <=? 90)%nat then ascii_of_nat (n + 32) else c.

Fixpoint upper (s : string) : string :=
  match s with
  | EmptyString => EmptyString
  | String c s' => String (ascii_upper c) (upper s')
  end.

Fixpoint lower (s : string) : string :=
  match s with
  | EmptyString => EmptyString
  | String c s' => String (ascii_lower c) (lower s')
  end.

(** [sorted(xs)] for an iterable of [str]. *)
Definition sorted_list (l : list string) : list string :=
  merge_sort String.le l.

(** [sorted(s)] for a set of [str]. *)
Definition sorted (s : gset string) : list string :=
  sorted_list (elements s).

(** [d.get(k, set())], and the read [d[k]] of a [defaultdict(set)]. *)
Definition get_set (d : gmap string (gset string)) (k : string) : gset string :=
  default ∅ (d !! k).

(** [d[k].add(x)] on a [defaultdict(set)]. *)
Definition dd_add (k x : string) (d : gmap string (gset string))
  : gmap string (gset string) :=
  <[k := get_set d k ∪ {[x]}]> d.

(** [d[k].update(xs)] on a [defaultdict(set)]. *)
Definition dd_update (k : string) (xs : gset string)
    (d : gmap string (gset string)) : gmap string (gset string) :=
  <[k := get_set d k ∪ xs]> d.

(** Exceptions the script can leave uncaught. *)
Inductive exn :=
| KeyError (k : string)
| ValueError (msg : string)
| AttributeError
| JSONDecodeError.

Inductive outcome (A : Type) :=
| Ok (a : A)
| Raise (e : exn)
| Diverge.
Arguments Ok {A} a.
Arguments Raise {A} e.
Arguments Diverge {A}.

Global Instance outcome_bind : MBind outcome := λ A B k m,
  match m with
  | Ok a => k a
  | Raise e => Raise e
  | Diverge => Diverge
  end.

End Py.

Import Py.

(** ** pathlib *)

Module Pathlib.

(** A resolved absolute path: its components below the root. *)
Definition Path := list string.

(** Order of [PurePath.__lt__]: component sequences, lexicographically. *)
Fixpoint path_leb (p q : Path) : bool :=
  match p, q with
  | [], _ => true
  | _ :: _, [] => false
  | a :: p', b :: q' =>
      if decide (a = b) then path_leb p' q' else bool_decide (String.le a b)
  end.

Definition path_le (p q : Path) : Prop := path_leb p q = true.

Global Instance path_le_dec : RelDecision path_le :=
  λ p q, decide (path_leb p q = true).

(** [p.relative_to(root)]: [None] stands for the [ValueError]. *)
Fixpoint relative_to (p root : Path) : option Path :=
  match root with
  | [] => Some p
  | r :: root' =>
      match p with
      | [] => None
      | a :: p' => if decide (a = r) then relative_to p' root' else None
      end
  end.

Fixpoint join (sep : string) (parts : list string) : string :=
  match parts with
  | [] => ""
  | [a] => a
  | a :: rest => a ++ sep ++ join sep rest
  end.

(** [p.as_posix()] of a relative path. *)
Definition as_posix (p : Path) : string :=
  match p with
  | [] => "."
  | _ => join "/" p
  end.

(** [p.name] *)
Definition name (p : Path) : string := List.last p "".

(** [p.parent] *)
Definition parent (p : Path) : Path := removelast p.

(** [name.rfind(".")] as the suffix of [name] that starts at its last dot,
    with the position of that dot. *)
Fixpoint rfind_dot (s : string) : option (nat * string) :=
  match s with
  | EmptyString => None
  | String c s' =>
      match rfind_dot s' with
      | Some (i, suf) => Some (S i, suf)
      | None => if decide (c = "."%char) then Some (0, s) else None
      end
  end.

(** [p.suffix]: the last dot of the name must be neither its first nor
    its last character. *)
Definition suffix (p : Path) : string :=
  match rfind_dot (name p) with
  | Some (i, suf) =>
      if bool_decide (0 < i) && bool_decide (i < String.length (name p) - 1)
      then suf else ""
  | None => ""
  end.

End Pathlib.

Import Pathlib.

(** ** Constants of the script *)

Definition FORTRAN_SUFFIXES : list string :=
  [".f"; ".f90"; ".for"; ".f95"; ".f03"; ".f08"].

Definition MODULE_TO_DIRS : list (string * list string) :=
  [ ("RDINP", ["RDINP"]); ("POT", ["POT"]); ("PATH", ["PATH"]);
    ("FMS", ["FMS"]); ("XSPH", ["XSPH"]); ("BAND", ["BAND"]);
    ("LDOS", ["LDOS"]); ("RIXS", ["RIXS"]); ("CRPA", ["CRPA"]);
    ("COMPTON", ["COMPTON"]); ("DEBYE", ["DEBYE"; "FF2X"]);
    ("DMDW", ["DMDW"]); ("SCREEN", ["SCREEN"]);
    ("SELF", ["SELF"; "SFCONV"]); ("EELS", ["EELS"]);
    ("FULLSPECTRUM", ["FULLSPECTRUM"]) ].

Definition MODULE_TO_OUTPUT_NAME : list (string * string) :=
  [ ("RDINP", "rdinp"); ("POT", "pot"); ("PATH", "path"); ("FMS", "fms");
    ("XSPH", "xsph"); ("BAND", "band"); ("LDOS", "ldos"); ("RIXS", "rixs");
    ("CRPA", "crpa"); ("COMPTON", "compton"); ("DEBYE", "debye");
    ("DMDW", "dmdw"); ("SCREEN", "screen"); ("SELF", "self");
    ("EELS", "eels"); ("FULLSPECTRUM", "fullspectrum") ].

(** [table.get(key, dflt)] on one of the two constant tables. *)
Fixpoint table_get {V} (table : list (string * V)) (key : string) (dflt : V) : V :=
  match table with
  | [] => dflt
  | (k, v) :: rest => if decide (k = key) then v else table_get rest key dflt
  end.

(** The three classification strings. *)
Definition runtime_owned_s : string := "runtime_owned".
Definition runtime_support_dependency_s : string := "runtime_support_dependency".
Definition out_of_scope_s : string := "out_of_scope".

(** ** [class FileData] *)

Record FileData := mkFileData {
  rel_path : string;
  fortran_dir : string;
  defined_modules : gset string;
  defined_routines : gset string;
  uses : gset string;
  calls : gset string;
  unresolved_targets : gset string;
  resolved_deps : gset string;
  origin_modules : gset string;
  classification : string
}.

(** [FileData.__init__] *)
Definition FileData_init (rel dir : string) : FileData :=
  mkFileData rel dir ∅ ∅ ∅ ∅ ∅ ∅ ∅ out_of_scope_s.

(** The four sets returned by [parse_fortran_file]. *)
Record Parsed := mkParsed {
  p_defined_modules : gset string;
  p_defined_routines : gset string;
  p_uses : gset string;
  p_calls : gset string
}.

Definition set_parsed (p : Parsed) (r : FileData) : FileData :=
  mkFileData (rel_path r) (fortran_dir r)
    (p_defined_modules p) (p_defined_routines p) (p_uses p) (p_calls p)
    (unresolved_targets r) (resolved_deps r) (origin_modules r)
    (classification r).

Definition set_unresolved_targets (s : gset string) (r : FileData) : FileData :=
  mkFileData (rel_path r) (fortran_dir r)
    (defined_modules r) (defined_routines r) (uses r) (calls r)
    s (resolved_deps r) (origin_modules r) (classification r).

Definition set_resolved_deps (s : gset string) (r : FileData) : FileData :=
  mkFileData (rel_path r) (fortran_dir r)
    (defined_modules r) (defined_routines r) (uses r) (calls r)
    (unresolved_targets r) s (origin_modules r) (classification r).

Definition set_origin_modules (s : gset string) (r : FileData) : FileData :=
  mkFileData (rel_path r) (fortran_dir r)
    (defined_modules r) (defined_routines r) (uses r) (calls r)
    (unresolved_targets r) (resolved_deps r) s (classification r).

Definition set_classification (c : string) (r : FileData) : FileData :=
  mkFileData (rel_path r) (fortran_dir r)
    (defined_modules r) (defined_routines r) (uses r) (calls r)
    (unresolved_targets r) (resolved_deps r) (origin_modules r) c.

(** ** The dictionary [file_data]: insertion order and contents *)

Record file_dict := mkFileDict {
  fd_keys : list string;
  fd_map : gmap string FileData
}.

Definition fd_empty : file_dict := mkFileDict [] ∅.

(** [file_data[k] = v]: a new key goes to the end of the order. *)
Definition fd_setitem (k : string) (v : FileData) (d : file_dict) : file_dict :=
  mkFileDict
    (if decide (k ∈ fd_keys d) then fd_keys d else fd_keys d ++ [k])
    (<[k := v]> (fd_map d)).

(** In-place mutation of the record stored under [k]. *)
Definition fd_store (k : string) (v : FileData) (d : file_dict) : file_dict :=
  mkFileDict (fd_keys d) (<[k := v]> (fd_map d)).

(** [file_data[k].origin_modules] when present, the empty set otherwise. *)
Definition origins_of (d : file_dict) (k : string) : gset string :=
  default ∅ (origin_modules <$> fd_map d !! k).

(** ** The local variables of [main] that the stages share *)

Record state := mkState {
  file_data : file_dict;
  module_defs : gmap string (gset string);
  routine_defs : gmap string (gset string);
  adjacency : gmap string (gset string);
  runtime_owned : gset string;
  queue : list string;
  queued : gset string
}.

Definition state_init : state := mkState fd_empty ∅ ∅ ∅ ∅ [] ∅.

Definition with_file_data (d : file_dict) (st : state) : state :=
  mkState d (module_defs st) (routine_defs st) (adjacency st)
    (runtime_owned st) (queue st) (queued st).

Definition with_module_defs (m : gmap string (gset string)) (st : state) : state :=
  mkState (file_data st) m (routine_defs st) (adjacency st)
    (runtime_owned st) (queue st) (queued st).

Definition with_routine_defs (m : gmap string (gset string)) (st : state) : state :=
  mkState (file_data st) (module_defs st) m (adjacency st)
    (runtime_owned st) (queue st) (queued st).

Definition with_adjacency (m : gmap string (gset string)) (st : state) : state :=
  mkState (file_data st) (module_defs st) (routine_defs st) m
    (runtime_owned st) (queue st) (queued st).

Definition with_runtime_owned (s : gset string) (st : state) : state :=
  mkState (file_data st) (module_defs st) (routine_defs st) (adjacency st)
    s (queue st) (queued st).

Definition with_queue (q : list string) (qd : gset string) (st : state) : state :=
  mkState (file_data st) (module_defs st) (routine_defs st) (adjacency st)
    (runtime_owned st) q qd.

(** ** What a run reads from outside *)

(** The value stored under ["inScopeModules"]; the items of a list are
    given as their [str(module)]. *)
Inductive in_scope_value :=
| NotAList
| AList (items : list string).

(** The manifest as [json.load] sees it. *)
Inductive manifest_doc :=
| NotJson
| NotAnObject
| JsonObject (inScopeModules : option in_scope_value).

Record Env := mkEnv {
  repo_root : Path;
  manifest_path : Path;
  fortran_root : Path;
  csv_output : Path;
  report_output : Path;
  (** [None]: [manifest_path.is_file()] is false. *)
  manifest_file : option manifest_doc;
  (** [None]: [fortran_root.is_dir()] is false; otherwise the paths that
      [fortran_root.rglob("*")] yields, in the order it yields them. *)
  fortran_tree : option (list Path);
  is_file : Path → bool;
  (** [parse_fortran_file(path)]: the four symbol sets of the file's text. *)
  file_symbols : Path → Parsed;
  (** The order in which this run iterates a hash set. *)
  set_iter : gset string → list string
}.

(** ** [list_fortran_files] *)

Definition is_fortran_file (env : Env) (path : Path) : Prop :=
  is_file env path = true ∧ lower (suffix path) ∈ FORTRAN_SUFFIXES.

Global Instance is_fortran_file_dec env path : Decision (is_fortran_file env path) :=
  and_dec _ _.

Definition list_fortran_files (env : Env) (entries : list Path) : list Path :=
  merge_sort path_le (filter (is_fortran_file env) entries).

(** ** [load_runtime_modules] *)

Definition load_runtime_modules (doc : manifest_doc) : outcome (list string) :=
  match doc with
  | NotJson => Raise JSONDecodeError
  | NotAnObject => Raise AttributeError
  | JsonObject v =>
      match default (AList []) v with
      | NotAList => Raise (ValueError "missing a non-empty inScopeModules array")
      | AList [] => Raise (ValueError "missing a non-empty inScopeModules array")
      | AList modules => Ok (upper <$> modules)
      end
  end.

(** ** [build_dir_to_modules] *)

Definition build_dir_to_modules (runtime_modules : list string)
  : gmap string (gset string) :=
  foldl (λ mapping module,
           foldl (λ mapping directory, dd_add (upper directory) module mapping)
                 mapping (table_get MODULE_TO_DIRS module [module]))
        ∅ runtime_modules.

(** ** [primary_runtime_module_name] *)

Definition primary_runtime_module_name (env : Env) (modules : gset string) : string :=
  if bool_decide (modules = ∅) then "none"
  else if bool_decide (1 < size modules) then "multiple"
  else match set_iter env modules with
       | only :: _ => table_get MODULE_TO_OUTPUT_NAME only (lower only)
       | [] => ""
       end.

(** ** Symbol tables (the first loop of [main]) *)

Definition index_symbols (env : Env) (rel : string) (symbols : gset string)
    (defs : gmap string (gset string)) : gmap string (gset string) :=
  foldl (λ defs symbol, dd_add symbol rel defs) defs (set_iter env symbols).

(** The record of one scanned file, as the loop fills it in. *)
Definition new_record (env : Env) (path : Path) (rel : string) : FileData :=
  let dir_name := upper (name (parent path)) in
  set_parsed (file_symbols env path) (FileData_init rel dir_name).

Definition scan_file (env : Env) (acc : outcome state) (path : Path) : outcome state :=
  st ← acc;
  match relative_to path (repo_root env) with
  | None => Raise (ValueError "path is not in the subpath of repo_root")
  | Some rel_parts =>
      let rel := as_posix rel_parts in
      let record := new_record env path rel in
      let st := with_file_data (fd_setitem rel record (file_data st)) st in
      let st := with_module_defs
                  (index_symbols env rel (defined_modules record) (module_defs st)) st in
      let st := with_routine_defs
                  (index_symbols env rel (defined_routines record) (routine_defs st)) st in
      Ok st
  end.

Definition scan (env : Env) (files : list Path) : outcome state :=
  foldl (scan_file env) (Ok state_init) files.

(** ** Reference resolution (the second loop of [main]) *)

(** [{target for target in defs.get(name, set()) if target != rel}] *)
Definition candidates (defs : gmap string (gset string)) (name rel : string)
  : gset string :=
  filter (λ target, target ≠ rel) (get_set defs name).

Definition resolve_ref (kind : string) (defs : gmap string (gset string))
    (rel : string) (acc : FileData * gmap string (gset string)) (name : string)
  : FileData * gmap string (gset string) :=
  let targets := candidates defs name rel in
  if bool_decide (targets ≠ ∅)
  then (acc.1, dd_update rel targets acc.2)
  else (set_unresolved_targets
          (unresolved_targets acc.1 ∪ {[kind ++ "::" ++ name]}) acc.1, acc.2).

Definition resolve_file (st : state) (rel : string) (record : FileData)
  : FileData * gmap string (gset string) :=
  let acc := foldl (resolve_ref "use" (module_defs st) rel)
                   (record, adjacency st) (sorted (uses record)) in
  let acc := foldl (resolve_ref "call" (routine_defs st) rel)
                   acc (sorted (calls record)) in
  (set_resolved_deps (get_set acc.2 rel) acc.1, acc.2).

Definition resolve_step (st : state) (rel : string) : state :=
  match fd_map (file_data st) !! rel with
  | None => st
  | Some record =>
      let res := resolve_file st rel record in
      with_adjacency res.2 (with_file_data (fd_store rel res.1 (file_data st)) st)
  end.

Definition resolve (st : state) : state :=
  foldl resolve_step st (fd_keys (file_data st)).

(** ** Seeding (the third loop of [main]) *)

Definition seed_step (dir_to_modules : gmap string (gset string))
    (st : state) (rel : string) : state :=
  match fd_map (file_data st) !! rel with
  | None => st
  | Some record =>
      let modules := get_set dir_to_modules (fortran_dir record) in
      if bool_decide (modules ≠ ∅)
      then with_file_data
             (fd_store rel
                (set_origin_modules (origin_modules record ∪ modules) record)
                (file_data st))
             (with_runtime_owned (runtime_owned st ∪ {[rel]}) st)
      else st
  end.

Definition seed (dir_to_modules : gmap string (gset string)) (st : state) : state :=
  foldl (seed_step dir_to_modules) st (fd_keys (file_data st)).

(** ** Propagation (the [while queue] loop of [main]) *)

(** [queue = deque(sorted(runtime_owned)); queued = set(queue)] *)
Definition init_queue (st : state) : state :=
  let q := sorted (runtime_owned st) in
  with_queue q (list_to_set q) st.

(** One pass of the body of [for dep in sorted(adjacency.get(current, set()))].
    [current_origins] is the set object of the current file; when [dep] is
    the current file itself the [update] adds a set to itself and changes
    nothing, so reading the set once before the loop loses nothing. *)
Definition relax (current_origins : gset string) (acc : outcome state)
    (dep : string) : outcome state :=
  st ← acc;
  match fd_map (file_data st) !! dep with
  | None => Raise (KeyError dep)
  | Some target =>
      let before := size (origin_modules target) in
      let target_origins := origin_modules target ∪ current_origins in
      let st' := with_file_data
                   (fd_store dep (set_origin_modules target_origins target)
                      (file_data st)) st in
      if bool_decide (before < size target_origins) && bool_decide (dep ∉ queued st)
      then Ok (with_queue (queue st ++ [dep]) (queued st ∪ {[dep]}) st')
      else Ok st'
  end.

(** One iteration of [while queue]; on an empty queue nothing is left to do. *)
Definition step (st : state) : outcome state :=
  match queue st with
  | [] => Ok st
  | current :: rest =>
      let st := with_queue rest (queued st ∖ {[current]}) st in
      match fd_map (file_data st) !! current with
      | None => Raise (KeyError current)
      | Some record =>
          let current_origins := origin_modules record in
          if bool_decide (current_origins = ∅) then Ok st
          else foldl (relax current_origins) (Ok st)
                     (sorted (get_set (adjacency st) current))
      end
  end.

(** The loop, with a budget of iterations. *)
Fixpoint loop (fuel : nat) (st : state) : outcome state :=
  match queue st with
  | [] => Ok st
  | _ :: _ =>
      match fuel with
      | 0 => Diverge
      | S fuel' => st' ← step st; loop fuel' st'
      end
  end.

(** All origin labels present in the records. *)
Definition all_labels (d : file_dict) : gset string :=
  map_fold (λ _ record acc, origin_modules record ∪ acc) ∅ (fd_map d).

(** A budget that the loop cannot exhaust: every iteration takes one entry
    off the queue, and an entry is put on it only when a label set grew. *)
Definition fuel_bound (st : state) : nat :=
  length (queue st) + size (fd_map (file_data st)) * size (all_labels (file_data st)).

Definition propagate (st : state) : outcome state :=
  loop (fuel_bound st) st.

(** ** Classification (the last loop of [main]) *)

Definition classify_record (owned : gset string) (record : FileData) : FileData :=
  if bool_decide (rel_path record ∈ owned)
  then set_classification runtime_owned_s record
  else if bool_decide (origin_modules record ≠ ∅)
  then set_classification runtime_support_dependency_s record
  else set_classification out_of_scope_s record.

(** [[file_data[path] for path in sorted(file_data)]] *)
Definition records_of (d : file_dict) : list FileData :=
  omap (λ path, fd_map d !! path) (sorted_list (fd_keys d)).

(** One pass of [for record in records]: the records are the objects
    stored in [file_data], so classifying [file_data[path]] in place is what
    the loop does to the record of [path]. *)
Definition classify_step (st : state) (path : string) : state :=
  match fd_map (file_data st) !! path with
  | None => st
  | Some record =>
      with_file_data
        (fd_store path (classify_record (runtime_owned st) record)
           (file_data st)) st
  end.

Definition classify (st : state) : state :=
  foldl classify_step st (sorted_list (fd_keys (file_data st))).

(** ** The analysis between input checks and output *)

Definition analyse (env : Env) (dir_to_modules : gmap string (gset string))
    (files : list Path) : outcome state :=
  st ← scan env files;
  st ← propagate (init_queue (seed dir_to_modules (resolve st)));
  Ok (classify st).

(** ** Output data *)

(** One data row of [generate_csv]. *)
Record CsvRow := mkCsvRow {
  row_fortran_path : string;
  row_fortran_dir : string;
  row_classification : string;
  row_primary_runtime_module : string;
  row_resolved_dependency_count : nat;
  row_unresolved_target_count : nat
}.

Definition csv_row (env : Env) (record : FileData) : CsvRow :=
  mkCsvRow (rel_path record) (fortran_dir record) (classification record)
    (primary_runtime_module_name env (origin_modules record))
    (size (resolved_deps record)) (size (unresolved_targets record)).

Definition generate_csv (env : Env) (records : list FileData) : list CsvRow :=
  csv_row env <$> records.

(** [counter[k] += 1] on a [Counter]. *)
Definition counter_incr (k : string) (c : gmap string nat) : gmap string nat :=
  <[k := S (default 0 (c !! k))]> c.

(** [directory_totals[d][k] += 1] on a [defaultdict(Counter)]. *)
Definition counter2_incr (d k : string) (c : gmap string (gmap string nat))
  : gmap string (gmap string nat) :=
  <[d := counter_incr k (default ∅ (c !! d))]> c.

(** The numbers [generate_markdown_report] computes before it renders
    them.  The rankings it prints are orderings of these counters. *)
Record ReportData := mkReportData {
  rd_total_files : nat;
  rd_classification_totals : gmap string nat;
  rd_directory_totals : gmap string (gmap string nat);
  rd_unresolved_symbol_counter : gmap string nat;
  rd_unresolved_files : nat;
  rd_unresolved_total : nat
}.

Definition generate_markdown_report (env : Env) (records : list FileData)
  : ReportData :=
  mkReportData
    (length records)
    (foldl (λ c record, counter_incr (classification record) c) ∅ records)
    (foldl (λ c record,
              counter2_incr (fortran_dir record) (classification record) c)
           ∅ records)
    (foldl (λ c record,
              foldl (λ c symbol, counter_incr symbol c) c
                    (set_iter env (unresolved_targets record)))
           ∅ records)
    (length (filter (λ record, unresolved_targets record ≠ ∅) records))
    (sum_list ((λ record, size (unresolved_targets record)) <$> records)).

Inductive artifact :=
| CsvFile (rows : list CsvRow)
| ReportFile (data : ReportData).

(** ** [main] *)

(** What a run leaves behind: the artifacts written, in order, and how the
    process ended (an exit status, or an uncaught exception). *)
Record run := mkRun {
  written : list artifact;
  ended : outcome Z
}.

Definition not_in_subpath : exn :=
  ValueError "path is not in the subpath of repo_root".

(** Everything after the classification loop. *)
Definition emit (env : Env) (records : list FileData) : run :=
  let w1 := [CsvFile (generate_csv env records)] in
  match relative_to (manifest_path env) (repo_root env) with
  | None => mkRun w1 (Raise not_in_subpath)
  | Some _ =>
  match relative_to (csv_output env) (repo_root env) with
  | None => mkRun w1 (Raise not_in_subpath)
  | Some _ =>
  match relative_to (fortran_root env) (repo_root env) with
  | None => mkRun w1 (Raise not_in_subpath)
  | Some _ =>
  let w2 := (w1 ++ [ReportFile (generate_markdown_report env records)])%list in
  match relative_to (report_output env) (repo_root env) with
  | None => mkRun w2 (Raise not_in_subpath)
  | Some _ => mkRun w2 (Ok 0%Z)
  end end end end.

Definition main (env : Env) : run :=
  match manifest_file env with
  | None => mkRun [] (Ok 1%Z)
  | Some doc =>
  match fortran_tree env with
  | None => mkRun [] (Ok 1%Z)
  | Some entries =>
  match load_runtime_modules doc with
  | Raise e => mkRun [] (Raise e)
  | Diverge => mkRun [] Diverge
  | Ok runtime_modules =>
  let dir_to_modules := build_dir_to_modules runtime_modules in
  let files := list_fortran_files env entries in
  if bool_decide (files = []) then mkRun [] (Ok 1%Z)
  else
  match analyse env dir_to_modules files with
  | Raise e => mkRun [] (Raise e)
  | Diverge => mkRun [] Diverge
  | Ok st => emit env (records_of (file_data st))
  end end end end.

(** ** Vocabulary of the statements *)

(** What the scan fixes for a record: identity and the four symbol sets. *)
Definition scanned_fields (r : FileData)
  : string * string * gset string * gset string * gset string * gset string :=
  (rel_path r, fortran_dir r, defined_modules r, defined_routines r,
   uses r, calls r).

(** Everything a record holds except its origin labels. *)
Definition non_origin_fields (r : FileData) :=
  (scanned_fields r, unresolved_targets r, resolved_deps r, classification r).

(** The order of iteration over a hash set visits the members of the set,
    each once. *)
Definition set_iter_ok (env : Env) : Prop :=
  ∀ s : gset string, set_iter env s ≡ₚ elements s.

(** [file_data.items()] and the map agree. *)
Definition dict_ok (d : file_dict) : Prop :=
  NoDup (fd_keys d) ∧ ∀ k, k ∈ fd_keys d ↔ is_Some (fd_map d !! k).

(** Every record is stored under its own [rel_path]. *)
Definition keyed_by_path (d : file_dict) : Prop :=
  ∀ k r, fd_map d !! k = Some r → rel_path r = k.

(** Every file named in a dictionary of sets is a scanned file. *)
Definition targets_known (m : gmap string (gset string)) (d : file_dict) : Prop :=
  ∀ k t, t ∈ get_set m k → is_Some (fd_map d !! t).

(** The references of a record that resolution leaves unresolved. *)
Definition unresolved_names (defs : gmap string (gset string))
    (rel : string) (names : gset string) : gset string :=
  filter (λ n, candidates defs n rel = ∅) names.

(** [r'] and the edge set [a'] are what resolving the references of [r],
    stored under [rel], makes of [r] and the edge set [a]. *)
Definition resolved_from (md rd : gmap string (gset string)) (rel : string)
    (r r' : FileData) (a a' : gset string) : Prop :=
  scanned_fields r' = scanned_fields r ∧
  origin_modules r' = origin_modules r ∧
  classification r' = classification r ∧
  resolved_deps r' = a' ∧
  (∀ t, t ∈ a' ↔
        t ∈ a ∨ (∃ n, n ∈ uses r ∧ t ∈ candidates md n rel)
              ∨ (∃ n, n ∈ calls r ∧ t ∈ candidates rd n rel)) ∧
  (∀ x, x ∈ unresolved_targets r' ↔
        x ∈ unresolved_targets r
        ∨ (∃ n, n ∈ uses r ∧ candidates md n rel = ∅ ∧ x = "use" ++ "::" ++ n)
        ∨ (∃ n, n ∈ calls r ∧ candidates rd n rel = ∅ ∧ x = "call" ++ "::" ++ n)).

(** The variables of [main] that a stage working on [file_data] and
    [adjacency] leaves alone. *)
Definition same_tables (st st' : state) : Prop :=
  module_defs st' = module_defs st ∧
  routine_defs st' = routine_defs st ∧
  fd_keys (file_data st') = fd_keys (file_data st).

(** [path.relative_to(repo_root).as_posix()] *)
Definition rel_of (env : Env) (path : Path) : option string :=
  as_posix <$> relative_to path (repo_root env).

(** A record as the scan leaves it: nothing resolved, labelled or classified. *)
Definition fresh_record (r : FileData) : Prop :=
  unresolved_targets r = ∅ ∧ resolved_deps r = ∅ ∧
  origin_modules r = ∅ ∧ classification r = out_of_scope_s.

(** The state between the scan and the resolution of references. *)
Definition scanned (st : state) : Prop :=
  dict_ok (file_data st) ∧
  keyed_by_path (file_data st) ∧
  (∀ k r, fd_map (file_data st) !! k = Some r → fresh_record r) ∧
  targets_known (module_defs st) (file_data st) ∧
  targets_known (routine_defs st) (file_data st) ∧
  adjacency st = ∅ ∧ runtime_owned st = ∅ ∧ queue st = [] ∧ queued st = ∅.

(** The dependency graph as later stages rely on it: edges lead to scanned
    files. *)
Definition graph_ok (st : state) : Prop :=
  dict_ok (file_data st) ∧
  keyed_by_path (file_data st) ∧
  targets_known (adjacency st) (file_data st).

(** What seeding makes of one record. *)
Definition seeded_record (dir_to_modules : gmap string (gset string))
    (r : FileData) : FileData :=
  if bool_decide (get_set dir_to_modules (fortran_dir r) ≠ ∅)
  then set_origin_modules (origin_modules r ∪ get_set dir_to_modules (fortran_dir r)) r
  else r.

(** A file is a seed when its directory maps to at least one module. *)
Definition is_seed (dir_to_modules : gmap string (gset string))
    (r : FileData) : Prop :=
  get_set dir_to_modules (fortran_dir r) ≠ ∅.

(** [r'] is [r] with possibly more origin labels, nothing else changed. *)
Definition record_grows (r r' : FileData) : Prop :=
  non_origin_fields r' = non_origin_fields r ∧
  origin_modules r ⊆ origin_modules r'.

(** [st'] differs from [st] at most in the work queue and in origin label
    sets, and those have only grown. *)
Definition grows (st st' : state) : Prop :=
  module_defs st' = module_defs st ∧
  routine_defs st' = routine_defs st ∧
  adjacency st' = adjacency st ∧
  runtime_owned st' = runtime_owned st ∧
  fd_keys (file_data st') = fd_keys (file_data st) ∧
  ∀ k, option_Forall2 record_grows
         (fd_map (file_data st) !! k) (fd_map (file_data st') !! k).

(** The lookups [file_data[current]] and [file_data[dep]] of the loop find
    their keys. *)
Definition no_key_error (st : state) : Prop :=
  (∀ k, k ∈ queue st → is_Some (fd_map (file_data st) !! k)) ∧
  targets_known (adjacency st) (file_data st).

(** The effect of one pass of the inner loop on [dep]. *)
Definition relaxed (cur : gset string) (dep : string) (st st' : state) : Prop :=
  ∃ target,
    fd_map (file_data st) !! dep = Some target ∧
    file_data st' =
      fd_store dep (set_origin_modules (origin_modules target ∪ cur) target)
        (file_data st) ∧
    module_defs st' = module_defs st ∧
    routine_defs st' = routine_defs st ∧
    adjacency st' = adjacency st ∧
    runtime_owned st' = runtime_owned st ∧
    (((cur ⊆ origin_modules target ∨ dep ∈ queued st) ∧
      queue st' = queue st ∧ queued st' = queued st)
     ∨ (¬ (cur ⊆ origin_modules target) ∧ (dep ∉ queued st) ∧
        queue st' = (queue st ++ [dep])%list ∧
        queued st' = queued st ∪ {[dep]})).

(** Label sets stay within [L]. *)
Definition bounded (L : gset string) (st : state) : Prop :=
  ∀ k r, fd_map (file_data st) !! k = Some r → origin_modules r ⊆ L.

(** How many (file, label) pairs are still missing with respect to [L]. *)
Definition deficit (L : gset string) (m : gmap string FileData) : nat :=
  map_fold (λ _ r acc, size (L ∖ origin_modules r) + acc) 0 m.

(** The quantity that every iteration of the loop decreases. *)
Definition measure (L : gset string) (st : state) : nat :=
  length (queue st) + deficit L (fd_map (file_data st)).

(** The labels of [u] have reached every file [u] has an edge to. *)
Definition closed_at (st : state) (u : string) : Prop :=
  ∀ v, v ∈ get_set (adjacency st) u →
       origins_of (file_data st) u ⊆ origins_of (file_data st) v.

(** [queue] has no duplicates and [queued] is its set of members. *)
Definition queue_ok (st : state) : Prop :=
  NoDup (queue st) ∧ ∀ k, k ∈ queued st ↔ k ∈ queue st.

(** The invariant of the work list: only queued files may still have
    labels to pass on. *)
Definition worklist_inv (st : state) : Prop :=
  queue_ok st ∧ ∀ u, u ∉ queue st → closed_at st u.

(** The invariant of the inner loop while [current] is being processed. *)
Definition inner_inv (current : string) (cur : gset string) (st : state) : Prop :=
  queue_ok st ∧ (current ∉ queue st) ∧
  origins_of (file_data st) current = cur ∧
  ∀ u, u ≠ current → u ∉ queue st → closed_at st u.

(** What resolution has established for every record: its edges are the
    definers of its references other than the file itself, and its
    unresolved tags are the references that have no such definer. *)
Definition resolution_facts (st : state) : Prop :=
  ∀ k r, fd_map (file_data st) !! k = Some r →
    resolved_deps r = get_set (adjacency st) k ∧
    (∀ t, t ∈ get_set (adjacency st) k ↔
          (∃ n, n ∈ uses r ∧ t ∈ candidates (module_defs st) n k)
          ∨ (∃ n, n ∈ calls r ∧ t ∈ candidates (routine_defs st) n k)) ∧
    (∀ x, x ∈ unresolved_targets r ↔
          (∃ n, n ∈ uses r ∧ candidates (module_defs st) n k = ∅
                ∧ x = "use" ++ "::" ++ n)
          ∨ (∃ n, n ∈ calls r ∧ candidates (routine_defs st) n k = ∅
                  ∧ x = "call" ++ "::" ++ n)).

(** The state on entry to the work-list loop. *)
Definition ready (dtm : gmap string (gset string)) (st : state) : Prop :=
  graph_ok st ∧
  (∀ k, k ∈ runtime_owned st ↔
        ∃ r, fd_map (file_data st) !! k = Some r ∧ is_seed dtm r) ∧
  (∀ k r, fd_map (file_data st) !! k = Some r →
          origin_modules r =
            (if decide (is_seed dtm r) then get_set dtm (fortran_dir r) else ∅)
          ∧ classification r = out_of_scope_s) ∧
  queue st = sorted (runtime_owned st) ∧
  queued st = list_to_set (queue st).

(** [st'] has the tables of [st], and its records have the symbols, the
    unresolved tags and the resolved dependencies of those of [st]. *)
Definition keeps_resolution (st st' : state) : Prop :=
  module_defs st' = module_defs st ∧
  routine_defs st' = routine_defs st ∧
  adjacency st' = adjacency st ∧
  ∀ k, option_Forall2
         (λ r r', scanned_fields r' = scanned_fields r ∧
                  unresolved_targets r' = unresolved_targets r ∧
                  resolved_deps r' = resolved_deps r)
         (fd_map (file_data st) !! k) (fd_map (file_data st') !! k).

(** [st'] is [st] up to the contents of the records. *)
Definition same_but_records (st st' : state) : Prop :=
  module_defs st' = module_defs st ∧
  routine_defs st' = routine_defs st ∧
  adjacency st' = adjacency st ∧
  runtime_owned st' = runtime_owned st ∧
  queue st' = queue st ∧ queued st' = queued st ∧
  fd_keys (file_data st') = fd_keys (file_data st).

(** The classification string that the last loop gives the record stored
    under [k]. *)
Definition classification_of (st : state) (k : string) (r : FileData) : string :=
  if decide (k ∈ runtime_owned st) then runtime_owned_s
  else if decide (origin_modules r ≠ ∅) then runtime_support_dependency_s
  else out_of_scope_s.

(** The state that [analyse] returns. *)
Definition analysed (dtm : gmap string (gset string)) (st : state) : Prop :=
  graph_ok st ∧
  resolution_facts st ∧
  queue st = [] ∧
  (∀ u, closed_at st u) ∧
  (∀ k r, fd_map (file_data st) !! k = Some r →
     (k ∈ runtime_owned st ↔ is_seed dtm r) ∧
     get_set dtm (fortran_dir r) ⊆ origin_modules r ∧
     classification r = classification_of st k r).

(** Every scanned file lies under the repository root, so that
    [path.relative_to(repo_root)] is defined. *)
Definition files_in_repo (env : Env) (files : list Path) : Prop :=
  Forall (λ p, is_Some (relative_to p (repo_root env))) files.

(** The two kinds of reference, with the tag prefix, the reference set, the
    symbol table and the definition set that belong to each. *)
Inductive ref_kind := UseRef | CallRef.

Definition kind_tag (kind : ref_kind) : string :=
  match kind with UseRef => "use" | CallRef => "call" end.

Definition kind_refs (kind : ref_kind) (r : FileData) : gset string :=
  match kind with UseRef => uses r | CallRef => calls r end.

Definition kind_defs (kind : ref_kind) (st : state) : gmap string (gset string) :=
  match kind with UseRef => module_defs st | CallRef => routine_defs st end.

Definition kind_defined (kind : ref_kind) (p : Parsed) : gset string :=
  match kind with
  | UseRef => p_defined_modules p
  | CallRef => p_defined_routines p
  end.

(** A tag is recorded only for a name that no file of the tree defines in
    the table of its kind. *)
Definition tags_only_for_undefined (st : state) : Prop :=
  ∀ rel r kind n,
    fd_map (file_data st) !! rel = Some r →
    (kind_tag kind ++ "::" ++ n) ∈ unresolved_targets r →
    get_set (kind_defs kind st) n = ∅.

(** Between [r] and [r'] nothing but the origin labels may differ. *)
Definition record_frame (r r' : FileData) : Prop :=
  rel_path r' = rel_path r ∧ fortran_dir r' = fortran_dir r ∧
  defined_modules r' = defined_modules r ∧
  defined_routines r' = defined_routines r ∧
  uses r' = uses r ∧ calls r' = calls r ∧
  unresolved_targets r' = unresolved_targets r ∧
  resolved_deps r' = resolved_deps r ∧
  classification r' = classification r.

(** Between [st] and [st'] nothing but the work queue and the origin labels
    of the records may differ. *)
Definition only_origins_change (st st' : state) : Prop :=
  adjacency st' = adjacency st ∧
  module_defs st' = module_defs st ∧
  routine_defs st' = routine_defs st ∧
  runtime_owned st' = runtime_owned st ∧
  fd_keys (file_data st') = fd_keys (file_data st) ∧
  ∀ k, option_Forall2 record_frame
         (fd_map (file_data st) !! k) (fd_map (file_data st') !! k).

(** The manifest holds a non-empty list under ["inScopeModules"]. *)
Definition has_module_list (doc : manifest_doc) : Prop :=
  ∃ m ms, doc = JsonObject (Some (AList (m :: ms))).

(** No dependency edge is left along which labels would still flow. *)
Definition fixpoint_reached (st : state) : Prop :=
  queue st = [] ∧
  ∀ u v, v ∈ get_set (adjacency st) u →
         origins_of (file_data st) u ⊆ origins_of (file_data st) v.

(** [no_key_error] in a form that can be decided by computation. *)
Definition lookups_defined (st : state) : Prop :=
  Forall (λ k, is_Some (fd_map (file_data st) !! k)) (queue st) ∧
  map_Forall (λ _ targets,
                set_Forall (λ t, is_Some (fd_map (file_data st) !! t)) targets)
             (adjacency st).

Global Instance lookups_defined_dec st : Decision (lookups_defined st) :=
  and_dec _ _.

Global Instance files_in_repo_dec env files : Decision (files_in_repo env files) :=
  Forall_dec _ files.

(** Two runs read the same tree and the same configuration: they may
    differ in the order in which the directory walk lists the tree and in
    the order in which hash sets are iterated. *)
Definition same_tree (env1 env2 : Env) : Prop :=
  repo_root env1 = repo_root env2 ∧
  manifest_path env1 = manifest_path env2 ∧
  fortran_root env1 = fortran_root env2 ∧
  csv_output env1 = csv_output env2 ∧
  report_output env1 = report_output env2 ∧
  manifest_file env1 = manifest_file env2 ∧
  option_Forall2 (≡ₚ) (fortran_tree env1) (fortran_tree env2) ∧
  (∀ p, is_file env1 p = is_file env2 p) ∧
  (∀ p, file_symbols env1 p = file_symbols env2 p).

(** The conditions under which a run must fail before writing anything. *)
Definition must_fail (env : Env) : Prop :=
  manifest_file env = None ∨
  (∃ doc, manifest_file env = Some doc ∧ ¬ has_module_list doc) ∨
  fortran_tree env = None ∨
  (∃ entries, fortran_tree env = Some entries ∧
              list_fortran_files env entries = []).

(** The two artifacts of a run whose analysis ended in [st]. *)
Definition artifacts_of (env : Env) (st : state) : list artifact :=
  [CsvFile (generate_csv env (records_of (file_data st)));
   ReportFile (generate_markdown_report env (records_of (file_data st)))].

(** The graph of the listed files is built in [st]: every listed file has a
    record under its relative path; every record holds the references
    parsed from a listed file of that path; the symbol tables list under a
    name the files that define it; and the edges and unresolved tags are
    what resolving every reference against the tables gives. *)
Definition graph_built (env : Env) (files : list Path) (st : state) : Prop :=
  (∀ p, p ∈ files →
        ∃ k, rel_of env p = Some k ∧ is_Some (fd_map (file_data st) !! k)) ∧
  (∀ k r, fd_map (file_data st) !! k = Some r →
          ∃ p, p ∈ files ∧ rel_of env p = Some k ∧
               uses r = p_uses (file_symbols env p) ∧
               calls r = p_calls (file_symbols env p)) ∧
  (∀ kind sym t, t ∈ get_set (kind_defs kind st) sym ↔
     ∃ p, p ∈ files ∧ rel_of env p = Some t ∧
          sym ∈ set_iter env (kind_defined kind (file_symbols env p))) ∧
  resolution_facts st.

(** The analysis that a run performed before it wrote anything: the inputs
    passed the checks of [main], the graph of the Fortran files is built,
    and propagation has reached its fixpoint. *)
Definition analysis_done (env : Env) (st : state) : Prop :=
  ∃ doc entries runtime_modules,
    manifest_file env = Some doc ∧
    fortran_tree env = Some entries ∧
    load_runtime_modules doc = Ok runtime_modules ∧
    list_fortran_files env entries ≠ [] ∧
    analyse env (build_dir_to_modules runtime_modules)
      (list_fortran_files env entries) = Ok st ∧
    graph_built env (list_fortran_files env entries) st ∧
    fixpoint_reached st.

(** ** A small source tree used to instantiate the statements *)

Module Sample.

Definition root : Path := ["repo"; "feff10"; "src"].

Definition pot_f90 : Path := (root ++ ["POT"; "pot.f90"])%list.
Definition getorb_f : Path := (root ++ ["ATOM"; "getorb.f"])%list.
Definition constants_f90 : Path := (root ++ ["COMMON"; "m_constants.F90"])%list.
Definition unused_f : Path := (root ++ ["MISC"; "unused.f"])%list.
Definition readme : Path := (root ++ ["MISC"; "README.txt"])%list.
Definition pot_dir : Path := (root ++ ["POT"])%list.

(** What [parse_fortran_file] finds in each file. *)
Definition symbols (path : Path) : Parsed :=
  if decide (path = pot_f90) then
    mkParsed ∅ {["pot"; "helper"]} {["constants"]}
      {["helper"; "getorb"; "mpi_init"]}
  else if decide (path = getorb_f) then
    mkParsed ∅ {["getorb"]} {["constants"]} ∅
  else if decide (path = constants_f90) then
    mkParsed {["constants"]} ∅ ∅ ∅
  else if decide (path = unused_f) then
    mkParsed ∅ {["unused"]} {["lapack95"]} {["getorb"]}
  else mkParsed ∅ ∅ ∅ ∅.

Definition env : Env :=
  mkEnv ["repo"]
    ["repo"; "tasks"; "golden-fixture-manifest.json"]
    root
    ["repo"; "gap"; "fortran-to-rust-file-gap.csv"]
    ["repo"; "gap"; "fortran-to-rust-gap-report.md"]
    (Some (JsonObject (Some (AList ["pot"]))))
    (Some [unused_f; pot_dir; readme; pot_f90; constants_f90; getorb_f])
    (λ path, bool_decide (path ≠ pot_dir))
    symbols
    elements.

(** The same tree listed in another order and with hash sets iterated in
    another order. *)
Definition env' : Env :=
  mkEnv (repo_root env) (manifest_path env) (fortran_root env)
    (csv_output env) (report_output env) (manifest_file env)
    (Some [getorb_f; constants_f90; pot_f90; readme; pot_dir; unused_f])
    (is_file env) (file_symbols env)
    (λ s, reverse (elements s)).

Definition dir_to_modules : gmap string (gset string) :=
  build_dir_to_modules ["POT"].

Definition files : list Path :=
  Eval vm_compute in
    list_fortran_files env [unused_f; pot_dir; readme; pot_f90; constants_f90; getorb_f].

(** The state on entry to the work-list loop. *)
Definition before_loop : state :=
  Eval vm_compute in
    match scan env files with
    | Ok st => init_queue (seed dir_to_modules (resolve st))
    | _ => state_init
    end.

(** The state after one iteration. *)
Definition after_one : state :=
  Eval vm_compute in
    match step before_loop with Ok st => st | _ => state_init end.

(** The state after the loop. *)
Definition after_loop : state :=
  Eval vm_compute in
    match propagate before_loop with Ok st => st | _ => state_init end.

(** The state that [analyse] returns. *)
Definition final : state :=
  Eval vm_compute in
    match analyse env dir_to_modules files with
    | Ok st => st
    | _ => state_init
    end.

Definition record_of (rel : string) : FileData :=
  default (FileData_init "" "") (fd_map (file_data final) !! rel).

Definition pot_record : FileData :=
  Eval vm_compute in record_of "feff10/src/POT/pot.f90".
Definition getorb_record : FileData :=
  Eval vm_compute in record_of "feff10/src/ATOM/getorb.f".
Definition unused_record : FileData :=
  Eval vm_compute in record_of "feff10/src/MISC/unused.f".

End Sample.

(** Runs that must fail: no manifest; a manifest without module list; no
    source root; a tree without Fortran files. *)
Module Failing.

Definition with_inputs (manifest : option manifest_doc)
    (tree : option (list Path)) : Env :=
  mkEnv (repo_root Sample.env) (manifest_path Sample.env)
    (fortran_root Sample.env) (csv_output Sample.env)
    (report_output Sample.env) manifest tree
    (is_file Sample.env) (file_symbols Sample.env) (set_iter Sample.env).

Definition no_manifest : Env := with_inputs None (fortran_tree Sample.env).

Definition empty_module_list : Env :=
  with_inputs (Some (JsonObject (Some (AList [])))) (fortran_tree Sample.env).

Definition no_root : Env := with_inputs (manifest_file Sample.env) None.

Definition no_fortran_files : Env :=
  with_inputs (manifest_file Sample.env) (Some [Sample.readme; Sample.pot_dir]).

End Failing.

(** ** [strip_comments] *)

(** ["!" in line] *)
Fixpoint has_bang (line : string) : bool :=
  match line with
  | EmptyString => false
  | String c rest => if decide (c = "!"%char) then true else has_bang rest
  end.

(** [line.split("!", 1)[0]] *)
Fixpoint before_bang (line : string) : string :=
  match line with
  | EmptyString => EmptyString
  | String c rest =>
      if decide (c = "!"%char) then EmptyString else String c (before_bang rest)
  end.

Definition strip_comments (line : string) : string :=
  if negb (has_bang line) then line else before_bang line.

(** ** Vocabulary of the further statements *)

(** A path of dependency edges leads from [u] to [v]. *)
Inductive reach (adj : gmap string (gset string)) : string → string → Prop :=
| reach_refl u : reach adj u u
| reach_step u v w : reach adj u v → w ∈ get_set adj v → reach adj u w.

(** [counter.get(k, 0)] *)
Definition counter_get (c : gmap string nat) (k : string) : nat :=
  default 0 (c !! k).

(** The sum of the counts of a [Counter]. *)
Definition counter_total (c : gmap string nat) : nat :=
  map_fold (λ _ n acc, n + acc) 0 c.

(** The four paths that [main] makes relative to the repository root after
    the analysis. *)
Definition outputs_in_repo (env : Env) : Prop :=
  is_Some (relative_to (manifest_path env) (repo_root env)) ∧
  is_Some (relative_to (csv_output env) (repo_root env)) ∧
  is_Some (relative_to (fortran_root env) (repo_root env)) ∧
  is_Some (relative_to (report_output env) (repo_root env)).

Global Instance outputs_in_repo_dec env : Decision (outputs_in_repo env) :=
  and_dec _ _.

(** The Fortran files of a run, when its inputs pass the checks of [main]. *)
Definition run_inputs (env : Env) (runtime_modules : list string)
    (files : list Path) : Prop :=
  ∃ doc entries,
    manifest_file env = Some doc ∧
    fortran_tree env = Some entries ∧
    load_runtime_modules doc = Ok runtime_modules ∧
    files = list_fortran_files env entries ∧
    files ≠ [].

(** The sample tree after the scan, and its analysis with a longer module
    list. *)
Module More.

Definition scanned_state : state :=
  Eval vm_compute in
    match scan Sample.env Sample.files with Ok st => st | _ => state_init end.

Definition final_wider : state :=
  Eval vm_compute in
    match analyse Sample.env (build_dir_to_modules ["POT"; "MISC"]) Sample.files
    with Ok st => st | _ => state_init end.

Definition getorb_wider : FileData :=
  Eval vm_compute in
    default (FileData_init "" "")
      (fd_map (file_data final_wider) !! "feff10/src/ATOM/getorb.f").

End More.

(** Every label in [st] was carried along edges from a file that had it in
    [st0]. *)
Definition labels_from (st0 st : state) : Prop :=
  adjacency st = adjacency st0 ∧
  ∀ v l, l ∈ origins_of (file_data st) v →
         ∃ s, l ∈ origins_of (file_data st0) s ∧ reach (adjacency st0) s v.

(** Runs whose analysis succeeds but whose manifest, or report, lies
    outside the repository root. *)
Module Outside.

Definition manifest_outside : Env :=
  mkEnv (repo_root Sample.env) ["etc"; "manifest.json"]
    (fortran_root Sample.env) (csv_output Sample.env)
    (report_output Sample.env) (manifest_file Sample.env)
    (fortran_tree Sample.env) (is_file Sample.env)
    (file_symbols Sample.env) (set_iter Sample.env).

Definition report_outside : Env :=
  mkEnv (repo_root Sample.env) (manifest_path Sample.env)
    (fortran_root Sample.env) (csv_output Sample.env)
    ["tmp"; "report.md"] (manifest_file Sample.env)
    (fortran_tree Sample.env) (is_file Sample.env)
    (file_symbols Sample.env) (set_iter Sample.env).

End Outside.

(** * Properties *)

(** ** Sorting and the dictionaries of sets *)

Section python_facts.
Implicit Types (s : gset string) (l : list string) (d : gmap string (gset string)).

Lemma sorted_list_perm l : sorted_list l ≡ₚ l.
Proof. apply merge_sort_Permutation. Qed.

Lemma elem_of_sorted_list l x : x ∈ sorted_list l ↔ x ∈ l.
Proof. by rewrite sorted_list_perm. Qed.

Lemma elem_of_sorted s x : x ∈ sorted s ↔ x ∈ s.
Proof. unfold sorted. by rewrite elem_of_sorted_list, elem_of_elements. Qed.

Lemma NoDup_sorted s : NoDup (sorted s).
Proof. unfold sorted. rewrite sorted_list_perm. apply NoDup_elements. Qed.

Lemma sorted_list_unique l1 l2 : l1 ≡ₚ l2 → sorted_list l1 = sorted_list l2.
Proof.
  intros Hp. apply (Sorted_unique String.le).
  - apply Sorted_merge_sort; apply _.
  - apply Sorted_merge_sort; apply _.
  - by rewrite !sorted_list_perm.
Qed.

Lemma get_set_empty k : get_set ∅ k = ∅.
Proof. unfold get_set. by rewrite lookup_empty. Qed.

Lemma get_set_insert d k k' xs :
  get_set (<[k := xs]> d) k' = if decide (k = k') then xs else get_set d k'.
Proof.
  unfold get_set. rewrite lookup_insert. by destruct (decide (k = k')).
Qed.

Lemma get_set_dd_add d k x k' :
  get_set (dd_add k x d) k' =
  if decide (k = k') then get_set d k ∪ {[x]} else get_set d k'.
Proof. apply get_set_insert. Qed.

Lemma get_set_dd_update d k xs k' :
  get_set (dd_update k xs d) k' =
  if decide (k = k') then get_set d k ∪ xs else get_set d k'.
Proof. apply get_set_insert. Qed.

Lemma elem_of_candidates d name rel t :
  t ∈ candidates d name rel ↔ t ∈ get_set d name ∧ t ≠ rel.
Proof. unfold candidates. rewrite elem_of_filter. tauto. Qed.

End python_facts.

(** ** Reference resolution *)

Section resolution.
Implicit Types (r record : FileData) (adj defs : gmap string (gset string)).

Lemma foldl_resolve_ref kind defs rel names acc :
  let res := foldl (resolve_ref kind defs rel) acc names in
  scanned_fields res.1 = scanned_fields acc.1 ∧
  resolved_deps res.1 = resolved_deps acc.1 ∧
  origin_modules res.1 = origin_modules acc.1 ∧
  classification res.1 = classification acc.1 ∧
  (∀ k, k ≠ rel → res.2 !! k = acc.2 !! k) ∧
  (∀ t, t ∈ get_set res.2 rel ↔
        t ∈ get_set acc.2 rel ∨ ∃ n, n ∈ names ∧ t ∈ candidates defs n rel) ∧
  (∀ x, x ∈ unresolved_targets res.1 ↔
        x ∈ unresolved_targets acc.1 ∨
        ∃ n, n ∈ names ∧ candidates defs n rel = ∅ ∧ x = kind ++ "::" ++ n).
Proof.
  revert acc. induction names as [|n names IH]; intros acc; simpl.
  { repeat split; try done; try tauto.
    - intros [?|(n & Hn & _)]; [done|]. by apply elem_of_nil in Hn.
    - intros [?|(n & Hn & _)]; [done|]. by apply elem_of_nil in Hn. }
  destruct (IH (resolve_ref kind defs rel acc n))
    as (Hs & Hd & Ho & Hc & Hk & Ht & Hu).
  unfold resolve_ref in Hs, Hd, Ho, Hc, Hk, Ht, Hu |- *.
  case_bool_decide as Hcand; simpl in *.
  - repeat split; try done.
    + intros k Hne. rewrite Hk by done. unfold dd_update.
      by rewrite lookup_insert_ne.
    + intros Hin. apply Ht in Hin as [Hin|(m & Hm & Hin)].
      * rewrite get_set_dd_update in Hin. rewrite decide_True in Hin by done.
        apply elem_of_union in Hin as [?|?]; [by left|].
        right. exists n. split; [left|done].
      * right. exists m. split; [by right|done].
    + intros [Hin|(m & Hm & Hin)]; apply Ht.
      * left. rewrite get_set_dd_update, decide_True by done. set_solver.
      * apply elem_of_cons in Hm as [->|Hm].
        -- left. rewrite get_set_dd_update, decide_True by done. set_solver.
        -- right. eauto.
    + intros Hin. apply Hu in Hin as [?|(m & Hm & ? & ?)]; [by left|].
      right. exists m. split; [by right|done].
    + intros [?|(m & Hm & Hm0 & ->)]; apply Hu; [by left|].
      apply elem_of_cons in Hm as [->|Hm]; [done|]. right. eauto.
  - repeat split; try done.
    + intros Hin. apply Ht in Hin as [?|(m & Hm & Hin)]; [by left|].
      right. exists m. split; [by right|done].
    + intros [?|(m & Hm & Hin)]; apply Ht; [by left|].
      apply elem_of_cons in Hm as [->|Hm].
      * rewrite Hcand in Hin. set_solver.
      * right. eauto.
    + intros Hin. apply Hu in Hin as [Hin|(m & Hm & ? & ?)].
      * apply elem_of_union in Hin as [?|Hin]; [by left|].
        apply elem_of_singleton in Hin as ->. right. exists n.
        split; [left|done].
      * right. exists m. split; [by right|done].
    + intros [?|(m & Hm & Hm0 & ->)]; apply Hu.
      * left. set_solver.
      * apply elem_of_cons in Hm as [->|Hm]; [left; set_solver|]. right. eauto.
Qed.

Lemma resolve_file_spec st rel r :
  resolved_from (module_defs st) (routine_defs st) rel r
    (resolve_file st rel r).1
    (get_set (adjacency st) rel) (get_set (resolve_file st rel r).2 rel) ∧
  (∀ k, k ≠ rel → (resolve_file st rel r).2 !! k = adjacency st !! k).
Proof.
  unfold resolve_file.
  pose proof (foldl_resolve_ref "use" (module_defs st) rel (sorted (uses r))
                (r, adjacency st)) as H1.
  set (acc1 := foldl (resolve_ref "use" (module_defs st) rel)
                 (r, adjacency st) (sorted (uses r))) in *.
  pose proof (foldl_resolve_ref "call" (routine_defs st) rel
                (sorted (calls r)) acc1) as H2.
  set (acc2 := foldl (resolve_ref "call" (routine_defs st) rel)
                 acc1 (sorted (calls r))) in *.
  simpl in H1, H2.
  destruct H1 as (Hs1 & Hd1 & Ho1 & Hc1 & Hk1 & Ht1 & Hu1).
  destruct H2 as (Hs2 & Hd2 & Ho2 & Hc2 & Hk2 & Ht2 & Hu2).
  split; [|intros k Hk; simpl; by rewrite Hk2, Hk1].
  unfold resolved_from; simpl.
  split; [by rewrite <-Hs1, <-Hs2|].
  split; [by rewrite Ho2|]. split; [by rewrite Hc2|]. split; [done|].
  split.
  - intros t. rewrite Ht2, Ht1.
    setoid_rewrite elem_of_sorted. tauto.
  - intros x. rewrite Hu2, Hu1.
    setoid_rewrite elem_of_sorted. tauto.
Qed.

Lemma foldl_resolve_step ks st :
  NoDup ks →
  let st' := foldl resolve_step st ks in
  same_tables st st' ∧
  runtime_owned st' = runtime_owned st ∧
  queue st' = queue st ∧ queued st' = queued st ∧
  (∀ k, k ∉ ks →
     fd_map (file_data st') !! k = fd_map (file_data st) !! k ∧
     adjacency st' !! k = adjacency st !! k) ∧
  (∀ k, k ∈ ks →
     match fd_map (file_data st) !! k with
     | None => fd_map (file_data st') !! k = None ∧
               adjacency st' !! k = adjacency st !! k
     | Some r =>
         ∃ r', fd_map (file_data st') !! k = Some r' ∧
               resolved_from (module_defs st) (routine_defs st) k r r'
                 (get_set (adjacency st) k) (get_set (adjacency st') k)
     end).
Proof.
  revert st. induction ks as [|k0 ks IH]; intros st Hnd; simpl.
  { unfold same_tables. repeat split; try done.
    intros k Hk. by apply elem_of_nil in Hk. }
  apply NoDup_cons in Hnd as [Hk0 Hnd].
  destruct (IH (resolve_step st k0) Hnd)
    as ((Hmd & Hrd & Hkeys) & Hro & Hq & Hqd & Hout & Hin).
  assert (same_tables st (resolve_step st k0) ∧
          runtime_owned (resolve_step st k0) = runtime_owned st ∧
          queue (resolve_step st k0) = queue st ∧
          queued (resolve_step st k0) = queued st ∧
          (∀ k, k ≠ k0 →
             fd_map (file_data (resolve_step st k0)) !! k
               = fd_map (file_data st) !! k ∧
             adjacency (resolve_step st k0) !! k = adjacency st !! k))
    as ((Hmd0 & Hrd0 & Hkeys0) & Hro0 & Hq0 & Hqd0 & Hother).
  { unfold resolve_step, same_tables.
    destruct (fd_map (file_data st) !! k0) as [r|] eqn:Hr; [|done].
    simpl. repeat split; try done.
    - by rewrite lookup_insert_ne.
    - by apply resolve_file_spec. }
  split; [unfold same_tables; by rewrite Hmd, Hrd, Hkeys|].
  split; [congruence|]. split; [congruence|]. split; [congruence|].
  split.
  - intros k Hk. apply not_elem_of_cons in Hk as [Hne Hk].
    destruct (Hout k Hk) as [-> ->]. by apply Hother.
  - intros k Hk. apply elem_of_cons in Hk as [->|Hk].
    + destruct (Hout k0 Hk0) as [Hfd Hadj]. rewrite Hfd.
      unfold get_set at 2. rewrite Hadj. fold (get_set (adjacency (resolve_step st k0)) k0).
      unfold resolve_step.
      destruct (fd_map (file_data st) !! k0) as [r|] eqn:Hr; [|done].
      simpl. rewrite lookup_insert_eq. eexists; split; [done|].
      apply resolve_file_spec.
    + assert (k ≠ k0) as Hne by (intros ->; done).
      specialize (Hin k Hk). destruct (Hother k Hne) as [Hfd Hadj].
      rewrite Hfd in Hin. rewrite Hmd0, Hrd0 in Hin.
      unfold get_set at 1 in Hin. rewrite Hadj in Hin. done.
Qed.

End resolution.

(** ** The scan *)

Section scanning.
Variable env : Env.

Lemma index_symbols_spec rel symbols defs sym t :
  t ∈ get_set (index_symbols env rel symbols defs) sym ↔
  t ∈ get_set defs sym ∨ (t = rel ∧ sym ∈ set_iter env symbols).
Proof.
  unfold index_symbols. revert defs.
  induction (set_iter env symbols) as [|s l IH]; intros defs; simpl.
  { split; [by left|]. intros [?|[_ H]]; [done|]. by apply elem_of_nil in H. }
  rewrite IH, get_set_dd_add, elem_of_cons.
  destruct (decide (s = sym)) as [->|Hne].
  - rewrite elem_of_union, elem_of_singleton. naive_solver.
  - naive_solver.
Qed.

Lemma dict_ok_setitem k v d : dict_ok d → dict_ok (fd_setitem k v d).
Proof.
  intros [Hnd Hdom]. unfold fd_setitem, dict_ok; simpl.
  destruct (decide (k ∈ fd_keys d)) as [Hin|Hnin].
  - split; [done|]. intros k'. rewrite lookup_insert.
    destruct (decide (k = k')) as [<-|]; [|apply Hdom].
    split; [eauto|done].
  - split.
    + apply NoDup_app. split; [done|]. split; [|apply NoDup_singleton].
      intros x Hx Hx'. apply list_elem_of_singleton in Hx' as ->. done.
    + intros k'. rewrite elem_of_app, list_elem_of_singleton, lookup_insert.
      destruct (decide (k = k')) as [<-|Hne].
      * split; [eauto|by right].
      * rewrite Hdom. naive_solver.
Qed.

Lemma scan_file_scanned st path st' :
  scanned st → scan_file env (Ok st) path = Ok st' → scanned st'.
Proof.
  intros (Hd & Hk & Hf & Hm & Hr & Ha & Ho & Hq & Hqd) Hscan.
  unfold scan_file in Hscan. simpl in Hscan.
  destruct (relative_to path (repo_root env)) as [parts|]; [|done].
  injection Hscan as <-.
  unfold scanned, keyed_by_path, targets_known in *; simpl.
  split; [by apply dict_ok_setitem|].
  split.
  { intros k r. rewrite lookup_insert. case_decide; [|apply Hk].
    intros [= <-]. done. }
  split.
  { intros k r. rewrite lookup_insert. case_decide; [|apply Hf].
    intros [= <-]. done. }
  split.
  { intros sym t Ht. apply index_symbols_spec in Ht as [Ht|[-> _]].
    - rewrite lookup_insert. case_decide; [eauto|]. by eapply Hm.
    - rewrite lookup_insert_eq. eauto. }
  split; [|done].
  intros sym t Ht. apply index_symbols_spec in Ht as [Ht|[-> _]].
  - rewrite lookup_insert. case_decide; [eauto|]. by eapply Hr.
  - rewrite lookup_insert_eq. eauto.
Qed.

Lemma scanned_init : scanned state_init.
Proof.
  unfold scanned, state_init, dict_ok, keyed_by_path, targets_known; simpl.
  split; [split; [constructor|]|].
  { intros k. rewrite lookup_empty. split; [by intros ?%elem_of_nil|by intros [??]]. }
  repeat split; try done; intros ??; rewrite get_set_empty; set_solver.
Qed.

Lemma foldl_scan_file_Ok files acc st' :
  foldl (scan_file env) acc files = Ok st' → ∃ st, acc = Ok st.
Proof.
  revert acc. induction files as [|p files IH]; intros acc; simpl; [eauto|].
  intros H. apply IH in H as [st H].
  destruct acc as [st0| |]; [eauto|by cbv in H..].
Qed.

Lemma foldl_scan_file_scanned files st st' :
  scanned st → foldl (scan_file env) (Ok st) files = Ok st' → scanned st'.
Proof.
  revert st. induction files as [|p files IH]; intros st Hst; simpl.
  { by intros [= <-]. }
  intros H. destruct (foldl_scan_file_Ok _ _ _ H) as [st1 H1].
  rewrite H1 in H. apply (IH st1); [|done].
  by apply (scan_file_scanned st p).
Qed.

Lemma scan_scanned files st : scan env files = Ok st → scanned st.
Proof. apply foldl_scan_file_scanned, scanned_init. Qed.

End scanning.

(** ** The state after resolution and after seeding *)

Section resolve_and_seed.

Lemma resolve_spec st :
  scanned st →
  let st' := resolve st in
  same_tables st st' ∧
  runtime_owned st' = ∅ ∧ queue st' = [] ∧ queued st' = ∅ ∧
  (∀ k, fd_map (file_data st) !! k = None →
        fd_map (file_data st') !! k = None ∧ adjacency st' !! k = None) ∧
  (∀ k r, fd_map (file_data st) !! k = Some r →
     ∃ r', fd_map (file_data st') !! k = Some r' ∧
           resolved_from (module_defs st) (routine_defs st) k r r'
             ∅ (get_set (adjacency st') k)).
Proof.
  intros ([Hnd Hdom] & Hk & Hf & Hm & Hr & Ha & Ho & Hq & Hqd).
  destruct (foldl_resolve_step (fd_keys (file_data st)) st Hnd)
    as (Hsame & Hro & Hq' & Hqd' & Hout & Hin).
  fold (resolve st) in Hsame, Hro, Hq', Hqd', Hout, Hin. simpl.
  split; [done|]. split; [congruence|]. split; [congruence|].
  split; [congruence|]. split.
  - intros k Hnone.
    assert (k ∉ fd_keys (file_data st)) as Hnk.
    { rewrite Hdom, Hnone. by intros [??]. }
    destruct (Hout k Hnk) as [-> ->]. by rewrite Ha, lookup_empty.
  - intros k r Hkr.
    assert (k ∈ fd_keys (file_data st)) as Hink by (apply Hdom; eauto).
    specialize (Hin k Hink). rewrite Hkr in Hin.
    by rewrite Ha, get_set_empty in Hin.
Qed.

Lemma resolve_graph_ok st : scanned st → graph_ok (resolve st).
Proof.
  intros Hsc. pose proof (resolve_spec st Hsc) as H. simpl in H.
  destruct H as ((Hmd & Hrd & Hkeys) & _ & _ & _ & Hnone & Hsome).
  destruct Hsc as ([Hnd Hdom] & Hk & Hf & Hm & Hr & _).
  assert (∀ k, is_Some (fd_map (file_data (resolve st)) !! k) ↔
               is_Some (fd_map (file_data st) !! k)) as Hdom'.
  { intros k. destruct (fd_map (file_data st) !! k) as [r|] eqn:Hkr.
    - destruct (Hsome k r Hkr) as (r' & -> & _). split; eauto.
    - destruct (Hnone k Hkr) as [-> _]. done. }
  split; [|split].
  - split; [by rewrite Hkeys|]. intros k. by rewrite Hkeys, Hdom, Hdom'.
  - intros k r' Hkr'.
    destruct (fd_map (file_data st) !! k) as [r|] eqn:Hkr.
    + destruct (Hsome k r Hkr) as (r'' & Hkr'' & Hs & _).
      assert (r'' = r') as -> by congruence.
      assert (rel_path r' = rel_path r) as ->
        by (unfold scanned_fields in Hs; congruence).
      by eapply Hk.
    + destruct (Hnone k Hkr) as [Hn _]. congruence.
  - intros u v Hv. apply Hdom'.
    destruct (fd_map (file_data st) !! u) as [r|] eqn:Hur.
    + destruct (Hsome u r Hur) as (r' & Hl & Hs1 & Hs2 & Hs3 & Hs4 & Ht & Hu).
      destruct (proj1 (Ht v) Hv) as [Hv'|[(n & _ & Hv')|(n & _ & Hv')]].
      * set_solver.
      * apply elem_of_candidates in Hv' as [Hv' _]. by eapply Hm.
      * apply elem_of_candidates in Hv' as [Hv' _]. by eapply Hr.
    + destruct (Hnone u Hur) as [_ Hn]. unfold get_set in Hv.
      rewrite Hn in Hv. set_solver.
Qed.

Lemma foldl_seed_step dtm ks st :
  NoDup ks →
  let st' := foldl (seed_step dtm) st ks in
  same_tables st st' ∧ adjacency st' = adjacency st ∧
  queue st' = queue st ∧ queued st' = queued st ∧
  (∀ k, fd_map (file_data st') !! k =
        if decide (k ∈ ks) then seeded_record dtm <$> fd_map (file_data st) !! k
        else fd_map (file_data st) !! k) ∧
  (∀ k, k ∈ runtime_owned st' ↔
        k ∈ runtime_owned st ∨
        (k ∈ ks ∧ ∃ r, fd_map (file_data st) !! k = Some r ∧ is_seed dtm r)).
Proof.
  revert st. induction ks as [|k0 ks IH]; intros st Hnd; simpl.
  { unfold same_tables. repeat split; try done; [tauto|].
    intros [?|[Hk _]]; [done|]. by apply elem_of_nil in Hk. }
  apply NoDup_cons in Hnd as [Hk0 Hnd].
  destruct (IH (seed_step dtm st k0) Hnd)
    as ((Hmd & Hrd & Hkeys) & Hadj & Hq & Hqd & Hfd & Hro).
  assert (same_tables st (seed_step dtm st k0) ∧
          adjacency (seed_step dtm st k0) = adjacency st ∧
          queue (seed_step dtm st k0) = queue st ∧
          queued (seed_step dtm st k0) = queued st ∧
          (∀ k, fd_map (file_data (seed_step dtm st k0)) !! k =
                if decide (k = k0)
                then seeded_record dtm <$> fd_map (file_data st) !! k
                else fd_map (file_data st) !! k) ∧
          (∀ k, k ∈ runtime_owned (seed_step dtm st k0) ↔
                k ∈ runtime_owned st ∨
                (k = k0 ∧ ∃ r, fd_map (file_data st) !! k = Some r ∧ is_seed dtm r)))
    as ((Hmd0 & Hrd0 & Hkeys0) & Hadj0 & Hq0 & Hqd0 & Hfd0 & Hro0).
  { unfold seed_step, same_tables, seeded_record, is_seed.
    destruct (fd_map (file_data st) !! k0) as [r|] eqn:Hr.
    - case_bool_decide as Hmods; simpl.
      + repeat split; try done.
        * intros k. rewrite lookup_insert.
          destruct (decide (k0 = k)) as [<-|Hne].
          -- rewrite decide_True by done. rewrite Hr. simpl.
             by rewrite bool_decide_eq_true_2.
          -- by rewrite decide_False by done.
        * rewrite elem_of_union, elem_of_singleton.
          intros [?| ->]; [by left|right; eauto].
        * rewrite elem_of_union, elem_of_singleton.
          intros [?|[ -> _]]; [by left|by right].
      + repeat split; try done; try tauto.
        * intros k. destruct (decide (k = k0)) as [->|]; [|done].
          rewrite Hr. simpl. rewrite bool_decide_eq_false_2; [done|].
          intros Hne. by apply Hne.
        * intros [?|[ -> (r' & Hr' & ?)]]; [done|]. congruence.
    - repeat split; try done; try tauto.
      + intros k. destruct (decide (k = k0)) as [->|]; [|done]. by rewrite Hr.
      + intros [?|[ -> (r' & Hr' & ?)]]; [done|]. congruence. }
  split; [unfold same_tables; by rewrite Hmd, Hrd, Hkeys|].
  split; [congruence|]. split; [congruence|]. split; [congruence|].
  split.
  - intros k. rewrite Hfd, Hfd0.
    destruct (decide (k = k0)) as [->|Hne].
    + rewrite decide_False by done. rewrite decide_True by left. done.
    + destruct (decide (k ∈ ks)) as [Hin|Hnin].
      * rewrite decide_True by (by right). done.
      * rewrite decide_False; [done|]. by apply not_elem_of_cons.
  - intros k. rewrite Hro, Hro0, Hfd0, elem_of_cons.
    destruct (decide (k = k0)) as [->|Hne]; [|naive_solver].
    naive_solver.
Qed.

Lemma resolve_step_no_self_edges st rel :
  (∀ u, u ∉ get_set (adjacency st) u) →
  ∀ u, u ∉ get_set (adjacency (resolve_step st rel)) u.
Proof.
  intros Hno u. unfold resolve_step.
  destruct (fd_map (file_data st) !! rel) as [r|]; [|apply Hno].
  unfold with_adjacency. cbn [adjacency].
  destruct (resolve_file_spec st rel r) as [(_ & _ & _ & _ & Ht & _) Hk].
  destruct (decide (u = rel)) as [->|Hne].
  - rewrite Ht. intros [Hin|[(n & _ & Hin)|(n & _ & Hin)]].
    + by apply (Hno rel).
    + by apply elem_of_candidates in Hin as [_ ?].
    + by apply elem_of_candidates in Hin as [_ ?].
  - unfold get_set. rewrite (Hk u Hne). apply Hno.
Qed.

Lemma resolve_no_self_edges st :
  (∀ u, u ∉ get_set (adjacency st) u) →
  ∀ u, u ∉ get_set (adjacency (resolve st)) u.
Proof.
  unfold resolve. generalize (fd_keys (file_data st)). intros ks. revert st.
  induction ks as [|k ks IH]; intros st Hno; [done|]. cbn [foldl].
  by apply IH, resolve_step_no_self_edges.
Qed.

End resolve_and_seed.

(** ** One pass of the inner loop *)

Section relaxation.
Implicit Types (st : state) (cur : gset string).

Lemma size_union_grows (X Y : gset string) : size X < size (X ∪ Y) ↔ ¬ Y ⊆ X.
Proof.
  split.
  - intros Hlt Hsub. assert (X ∪ Y = X) as Heq by set_solver.
    rewrite Heq in Hlt. lia.
  - intros Hnsub. apply subset_size. split; [set_solver|].
    intros Hsub. apply Hnsub. set_solver.
Qed.

Lemma relax_spec cur st dep target :
  fd_map (file_data st) !! dep = Some target →
  ∃ st', relax cur (Ok st) dep = Ok st' ∧ relaxed cur dep st st'.
Proof.
  intros Hdep. unfold relax. simpl. rewrite Hdep.
  destruct (decide (cur ⊆ origin_modules target)) as [Hsub|Hnsub].
  - rewrite bool_decide_eq_false_2 by (by rewrite size_union_grows; intros H; apply H).
    simpl. eexists. split; [done|]. exists target. simpl.
    repeat split; try done. left. eauto.
  - rewrite bool_decide_eq_true_2 by (by apply size_union_grows).
    case_bool_decide as Hq; simpl.
    + eexists. split; [done|]. exists target. simpl.
      repeat split; try done. right. eauto.
    + eexists. split; [done|]. exists target. simpl.
      repeat split; try done. left. split; [|done]. by right.
Qed.

Lemma relax_Raise cur e dep : relax cur (Raise e) dep = Raise e.
Proof. done. Qed.

(** Induction over the inner loop: a property that holds at the start,
    guarantees that every dependency is a known file, and survives a pass,
    holds at the end. *)
Lemma foldl_relax_inv (P : state → Prop) cur ds st :
  P st →
  (∀ st0 d, P st0 → d ∈ ds → is_Some (fd_map (file_data st0) !! d)) →
  (∀ st0 st1 d, P st0 → d ∈ ds → relaxed cur d st0 st1 → P st1) →
  ∃ st', foldl (relax cur) (Ok st) ds = Ok st' ∧ P st'.
Proof.
  revert st. induction ds as [|d ds IH]; intros st HP Hdom Hstep; cbn [foldl].
  { eauto. }
  destruct (Hdom st d HP) as [target Ht]; [left|].
  destruct (relax_spec cur st d target Ht) as (st1 & -> & Hrel).
  apply IH.
  - eapply Hstep; [done|left|done].
  - intros st0 d0 HP0 Hd0. apply Hdom; [done|by right].
  - intros st0 st2 d0 HP0 Hd0. apply Hstep; [done|by right].
Qed.

Lemma record_grows_refl r : record_grows r r.
Proof. split; done. Qed.

Lemma record_grows_trans r1 r2 r3 :
  record_grows r1 r2 → record_grows r2 r3 → record_grows r1 r3.
Proof. intros [? ?] [? ?]. split; [congruence|set_solver]. Qed.

Lemma grows_refl st : grows st st.
Proof.
  repeat split; try done. intros k.
  destruct (fd_map (file_data st) !! k); constructor. apply record_grows_refl.
Qed.

Lemma grows_trans st1 st2 st3 : grows st1 st2 → grows st2 st3 → grows st1 st3.
Proof.
  intros (? & ? & ? & ? & ? & H12) (? & ? & ? & ? & ? & H23).
  repeat split; try congruence. intros k.
  specialize (H12 k). specialize (H23 k).
  destruct H12 as [r1 r2 H12|]; inversion H23; subst; constructor.
  by eapply record_grows_trans.
Qed.

Lemma relaxed_grows cur dep st st' : relaxed cur dep st st' → grows st st'.
Proof.
  intros (target & Ht & Hfd & Hmd & Hrd & Hadj & Hro & _).
  repeat split; try done.
  - by rewrite Hfd.
  - intros k. rewrite Hfd. simpl. rewrite lookup_insert.
    destruct (decide (dep = k)) as [<-|Hne].
    + rewrite Ht. constructor. split; [done|]. simpl. set_solver.
    + destruct (fd_map (file_data st) !! k); constructor.
      apply record_grows_refl.
Qed.

Lemma grows_is_Some st st' k :
  grows st st' →
  is_Some (fd_map (file_data st') !! k) ↔ is_Some (fd_map (file_data st) !! k).
Proof.
  intros (_ & _ & _ & _ & _ & H). specialize (H k).
  destruct H; split; intros [??]; eauto; done.
Qed.

Lemma grows_origins_of st st' k :
  grows st st' → origins_of (file_data st) k ⊆ origins_of (file_data st') k.
Proof.
  intros (_ & _ & _ & _ & _ & H). specialize (H k). unfold origins_of.
  destruct H as [r r' [_ H]|]; simpl; [done|set_solver].
Qed.

Lemma relaxed_origins_of cur dep st st' k :
  relaxed cur dep st st' →
  origins_of (file_data st') k =
  if decide (k = dep) then origins_of (file_data st) k ∪ cur
  else origins_of (file_data st) k.
Proof.
  intros (target & Ht & Hfd & _). unfold origins_of. rewrite Hfd. simpl.
  rewrite lookup_insert. destruct (decide (k = dep)) as [->|Hne].
  - rewrite decide_True by done. by rewrite Ht.
  - by rewrite decide_False by done.
Qed.

End relaxation.

(** ** One iteration of the work-list loop *)

Section iteration.
Implicit Types (st : state) (cur L : gset string).

Lemma foldl_relax_Raise cur e ds : foldl (relax cur) (Raise e) ds = Raise e.
Proof. induction ds as [|d ds IH]; [done|]. cbn [foldl]. by rewrite relax_Raise. Qed.

Lemma foldl_relax_Ok (P : state → Prop) cur ds st st' :
  foldl (relax cur) (Ok st) ds = Ok st' →
  P st →
  (∀ st0 st1 d, P st0 → d ∈ ds → relaxed cur d st0 st1 → P st1) →
  P st'.
Proof.
  revert st. induction ds as [|d ds IH]; intros st Hfold HP Hstep;
    cbn [foldl] in Hfold.
  { by injection Hfold as <-. }
  destruct (fd_map (file_data st) !! d) as [target|] eqn:Ht.
  - destruct (relax_spec cur st d target Ht) as (st1 & Hst1 & Hrel).
    rewrite Hst1 in Hfold. apply (IH st1); [done| |].
    + eapply Hstep; [done|left|done].
    + intros st0 st2 d0 HP0 Hd0. apply Hstep; [done|by right].
  - unfold relax in Hfold at 2. simpl in Hfold. rewrite Ht in Hfold.
    by rewrite foldl_relax_Raise in Hfold.
Qed.

Lemma step_grows st st' : step st = Ok st' → grows st st'.
Proof.
  unfold step. destruct (queue st) as [|current rest] eqn:Hq.
  { intros [= <-]. apply grows_refl. }
  simpl. destruct (fd_map (file_data st) !! current) as [record|]; [|done].
  set (st1 := with_queue rest (queued st ∖ {[current]}) st).
  assert (grows st st1) as H1.
  { repeat split; try done. intros k. simpl.
    destruct (fd_map (file_data st) !! k); constructor.
    apply record_grows_refl. }
  case_bool_decide.
  { by intros [= <-]. }
  intros Hfold.
  apply (foldl_relax_Ok (grows st) _ _ _ _ Hfold H1).
  intros st0 st2 d H0 _ Hrel. eapply grows_trans; [done|].
  by eapply relaxed_grows.
Qed.

Lemma deficit_insert L (m : gmap string FileData) k r r' :
  m !! k = Some r →
  deficit L (<[k := r']> m) + size (L ∖ origin_modules r)
  = deficit L m + size (L ∖ origin_modules r').
Proof.
  intros Hk. unfold deficit.
  rewrite <-(insert_delete_eq m k r').
  rewrite map_fold_insert_L; [|intros; lia|apply lookup_delete_eq].
  rewrite (map_fold_delete_L _ _ k r m); [lia|intros; lia|done].
Qed.

Lemma relaxed_measure L cur dep st st' :
  relaxed cur dep st st' → bounded L st → cur ⊆ L →
  bounded L st' ∧ measure L st' ≤ measure L st.
Proof.
  intros (target & Ht & Hfd & _ & _ & _ & _ & Hq) Hb Hcur.
  pose proof (Hb _ _ Ht) as Htl.
  split.
  - intros k r. rewrite Hfd. simpl. rewrite lookup_insert.
    case_decide; [|apply Hb]. intros [= <-]. simpl. set_solver.
  - unfold measure. rewrite Hfd. simpl.
    pose proof (deficit_insert L (fd_map (file_data st)) dep target
      (set_origin_modules (origin_modules target ∪ cur) target) Ht) as Hd.
    simpl in Hd.
    assert (size (L ∖ (origin_modules target ∪ cur))
            ≤ size (L ∖ origin_modules target)) as Hle.
    { apply subseteq_size. set_solver. }
    destruct Hq as [(_ & -> & _)|(Hnsub & _ & -> & _)]; [lia|].
    assert (size (L ∖ (origin_modules target ∪ cur))
            < size (L ∖ origin_modules target)) as Hlt.
    { apply subset_size. split; [set_solver|].
      intros Hsub. apply Hnsub. intros x Hx.
      destruct (decide (x ∈ origin_modules target)) as [|Hnx]; [done|].
      assert (x ∈ L ∖ origin_modules target) as Hx' by set_solver.
      apply Hsub in Hx'. set_solver. }
    rewrite length_app. simpl. lia.
Qed.

Lemma relaxed_no_key_error cur dep st st' :
  relaxed cur dep st st' → no_key_error st → no_key_error st'.
Proof.
  intros Hrel [Hqk Hadj]. pose proof (relaxed_grows _ _ _ _ Hrel) as Hg.
  destruct Hrel as (target & Ht & Hfd & _ & _ & Ha & _ & Hq).
  split.
  - intros k Hk. apply (grows_is_Some _ _ _ Hg).
    destruct Hq as [(_ & Hq & _)|(_ & _ & Hq & _)]; rewrite Hq in Hk.
    + by apply Hqk.
    + apply elem_of_app in Hk as [Hk|Hk]; [by apply Hqk|].
      apply list_elem_of_singleton in Hk as ->. eauto.
  - intros u v Hv. apply (grows_is_Some _ _ _ Hg). rewrite Ha in Hv.
    by eapply Hadj.
Qed.

Lemma step_progress L st :
  no_key_error st → bounded L st → queue st ≠ [] →
  ∃ st', step st = Ok st' ∧ no_key_error st' ∧ bounded L st' ∧
         measure L st' < measure L st.
Proof.
  intros [Hqk Hadj] Hb Hne. unfold step.
  destruct (queue st) as [|current rest] eqn:Hq; [done|]. simpl.
  destruct (Hqk current) as [record Hrec]; [left|]. rewrite Hrec.
  set (st1 := with_queue rest (queued st ∖ {[current]}) st).
  assert (no_key_error st1) as Hnk1.
  { split; [|done]. intros k Hk. apply Hqk. by right. }
  assert (bounded L st1) as Hb1 by done.
  assert (measure L st1 < measure L st) as Hm1.
  { unfold measure. rewrite Hq. simpl. lia. }
  case_bool_decide as Hempty.
  { exists st1. done. }
  destruct (foldl_relax_inv
              (λ st0, grows st1 st0 ∧ no_key_error st0 ∧ bounded L st0 ∧
                      measure L st0 ≤ measure L st1)
              (origin_modules record)
              (sorted (get_set (adjacency st1) current)) st1)
    as (st' & Hfold & _ & Hnk' & Hb' & Hm').
  - split; [apply grows_refl|done].
  - intros st0 d (Hg0 & _ & _ & _) Hd. apply elem_of_sorted in Hd.
    apply (grows_is_Some _ _ _ Hg0). by eapply Hadj.
  - intros st0 st2 d (Hg0 & Hnk0 & Hb0 & Hm0) _ Hrel.
    destruct (relaxed_measure L _ _ _ _ Hrel Hb0) as [Hb2 Hm2].
    { by eapply Hb. }
    split; [eapply grows_trans; [done|by eapply relaxed_grows]|].
    split; [by eapply relaxed_no_key_error|]. split; [done|lia].
  - exists st'. split; [done|]. split; [done|]. split; [done|lia].
Qed.

End iteration.

(** ** The work-list invariant *)

Section worklist.
Implicit Types (st : state) (cur : gset string).

Lemma relaxed_inner_inv current cur d st st' :
  inner_inv current cur st → relaxed cur d st st' → inner_inv current cur st'.
Proof.
  intros ([Hnd Hqd] & Hcur & Hoc & Hcl) Hrel.
  pose proof (λ k, relaxed_origins_of _ _ _ _ k Hrel) as Ho.
  destruct Hrel as (target & Ht & Hfd & _ & _ & Ha & _ & Hq).
  assert (origins_of (file_data st) d = origin_modules target) as Hod.
  { unfold origins_of. by rewrite Ht. }
  assert (∀ k, origins_of (file_data st) k ⊆ origins_of (file_data st') k) as Hmono.
  { intros k. rewrite Ho. case_decide; set_solver. }
  assert (∀ k, k ∈ queue st → k ∈ queue st') as Hsubq.
  { intros k Hk. destruct Hq as [(_ & -> & _)|(_ & _ & -> & _)]; [done|].
    apply elem_of_app. by left. }
  assert (d ∉ queue st' → origins_of (file_data st') d = origins_of (file_data st) d)
    as Hsame.
  { intros Hdq. rewrite Ho, decide_True by done.
    destruct Hq as [([Hsub|Hin] & Hq' & _)|(_ & _ & Hq' & _)].
    - rewrite Hod. set_solver.
    - exfalso. apply Hdq. rewrite Hq'. by apply Hqd.
    - exfalso. apply Hdq. rewrite Hq'. apply elem_of_app. right. left. }
  split; [|split; [|split]].
  - unfold queue_ok.
    destruct Hq as [(_ & -> & ->)|(_ & Hnq & -> & ->)]; [by split|].
    split.
    + apply NoDup_app. split; [done|]. split; [|apply NoDup_singleton].
      intros x Hx Hx'. apply list_elem_of_singleton in Hx' as ->.
      by apply Hnq, Hqd.
    + intros k. rewrite elem_of_union, elem_of_singleton, elem_of_app,
        list_elem_of_singleton, Hqd. done.
  - destruct Hq as [(_ & -> & _)|(Hnsub & _ & -> & _)]; [done|].
    rewrite elem_of_app, list_elem_of_singleton. intros [?| ->]; [done|].
    apply Hnsub. rewrite <-Hod, Hoc. done.
  - rewrite Ho. case_decide as Hd; [|done]. subst d. rewrite Hoc. set_solver.
  - intros u Hne Hu v Hv. rewrite Ha in Hv.
    assert (u ∉ queue st) as Hu' by (intros ?; by apply Hu, Hsubq).
    specialize (Hcl u Hne Hu' v Hv).
    assert (origins_of (file_data st') u = origins_of (file_data st) u) as ->.
    { destruct (decide (u = d)) as [->|Hud]; [by apply Hsame|].
      by rewrite Ho, decide_False by done. }
    etrans; [done|apply Hmono].
Qed.

Lemma foldl_relax_reaches cur ds st st' :
  foldl (relax cur) (Ok st) ds = Ok st' →
  ∀ d, d ∈ ds → cur ⊆ origins_of (file_data st') d.
Proof.
  revert st. induction ds as [|d0 ds IH]; intros st Hfold d Hd.
  { by apply elem_of_nil in Hd. }
  cbn [foldl] in Hfold.
  destruct (fd_map (file_data st) !! d0) as [target|] eqn:Ht.
  - destruct (relax_spec cur st d0 target Ht) as (st1 & Hst1 & Hrel).
    rewrite Hst1 in Hfold.
    apply elem_of_cons in Hd as [->|Hd]; [|by eapply IH].
    assert (grows st1 st') as Hg.
    { apply (foldl_relax_Ok (grows st1) _ _ _ _ Hfold); [apply grows_refl|].
      intros st0 st2 d1 H0 _ Hrel'. eapply grows_trans; [done|].
      by eapply relaxed_grows. }
    etrans; [|by apply grows_origins_of].
    rewrite (relaxed_origins_of _ _ _ _ d0 Hrel), decide_True by done.
    set_solver.
  - unfold relax in Hfold at 2. simpl in Hfold. rewrite Ht in Hfold.
    by rewrite foldl_relax_Raise in Hfold.
Qed.

Lemma step_worklist st st' :
  worklist_inv st → step st = Ok st' → worklist_inv st'.
Proof.
  intros [[Hnd Hqd] Hcl]. unfold step.
  destruct (queue st) as [|current rest] eqn:Hq.
  { intros [= <-]. unfold worklist_inv, queue_ok. by rewrite Hq. }
  simpl. destruct (fd_map (file_data st) !! current) as [record|] eqn:Hrec;
    [|done].
  set (st1 := with_queue rest (queued st ∖ {[current]}) st).
  apply NoDup_cons in Hnd as [Hcr Hnd].
  assert (queue_ok st1) as Hqok1.
  { split; [done|]. intros k. simpl.
    rewrite elem_of_difference, elem_of_singleton, Hqd, elem_of_cons.
    split; [naive_solver|]. intros Hk. split; [by right|]. by intros ->. }
  assert (origins_of (file_data st1) current = origin_modules record) as Hoc.
  { unfold origins_of. simpl. by rewrite Hrec. }
  assert (∀ u, u ≠ current → u ∉ queue st1 → closed_at st1 u) as Hcl1.
  { intros u Hne Hu. apply (Hcl u). by apply not_elem_of_cons. }
  case_bool_decide as Hempty.
  { intros [= <-]. split; [done|]. intros u Hu.
    destruct (decide (u = current)) as [->|Hne]; [|by apply Hcl1].
    intros v _. rewrite Hoc, Hempty. set_solver. }
  intros Hfold.
  assert (inner_inv current (origin_modules record) st') as (Hqok & Hcq & Hoc' & Hcl').
  { apply (foldl_relax_Ok (inner_inv current (origin_modules record))
             _ _ _ _ Hfold).
    - done.
    - intros st0 st2 d H0 _ Hrel. by eapply relaxed_inner_inv. }
  assert (adjacency st' = adjacency st1) as Hadj.
  { apply (foldl_relax_Ok (λ st0, adjacency st0 = adjacency st1)
             _ _ _ _ Hfold); [done|].
    intros st0 st2 d H0 _ Hrel. apply relaxed_grows in Hrel.
    destruct Hrel as (_ & _ & -> & _). done. }
  split; [done|]. intros u Hu.
  destruct (decide (u = current)) as [->|Hne]; [|by apply Hcl'].
  intros v Hv. rewrite Hoc'. rewrite Hadj in Hv.
  apply (foldl_relax_reaches _ _ _ _ Hfold). by apply elem_of_sorted.
Qed.

End worklist.

(** ** The loop as a whole *)

Section whole_loop.
Implicit Types (st : state) (L : gset string).

Lemma loop_Ok (P : state → Prop) fuel st st' :
  loop fuel st = Ok st' →
  P st →
  (∀ st0 st1, P st0 → step st0 = Ok st1 → P st1) →
  P st' ∧ queue st' = [].
Proof.
  revert st. induction fuel as [|fuel IH]; intros st Hloop HP Hstep;
    simpl in Hloop; destruct (queue st) as [|current rest] eqn:Hq;
    try (injection Hloop as <-; done); try done.
  destruct (step st) as [st1| |] eqn:Hst; try done. simpl in Hloop.
  apply (IH st1); [done| |done]. by eapply Hstep.
Qed.

Lemma loop_terminates L fuel st :
  measure L st ≤ fuel → no_key_error st → bounded L st →
  ∃ st', loop fuel st = Ok st'.
Proof.
  revert st. induction fuel as [|fuel IH]; intros st Hm Hnk Hb; simpl;
    destruct (queue st) as [|current rest] eqn:Hq; eauto.
  { unfold measure in Hm. rewrite Hq in Hm. simpl in Hm. lia. }
  destruct (step_progress L st Hnk Hb) as (st1 & -> & Hnk1 & Hb1 & Hm1).
  { by rewrite Hq. }
  simpl. apply IH; [lia|done..].
Qed.

Lemma loop_fuel_irrelevant fuel1 fuel2 st st' :
  loop fuel1 st = Ok st' → fuel1 ≤ fuel2 → loop fuel2 st = Ok st'.
Proof.
  revert fuel2 st. induction fuel1 as [|fuel1 IH]; intros fuel2 st Hloop Hle;
    simpl in Hloop; destruct (queue st) as [|current rest] eqn:Hq.
  - destruct fuel2; simpl; by rewrite Hq.
  - done.
  - destruct fuel2; simpl; by rewrite Hq.
  - destruct fuel2 as [|fuel2]; [lia|]. simpl. rewrite Hq.
    destruct (step st) as [st1| |]; try done. simpl in *.
    apply IH; [done|lia].
Qed.

Lemma all_labels_spec (d : file_dict) k r :
  fd_map d !! k = Some r → origin_modules r ⊆ all_labels d.
Proof.
  unfold all_labels. revert k r.
  apply (map_fold_weak_ind
           (λ acc m, ∀ k r, m !! k = Some r → origin_modules r ⊆ acc)).
  { intros k r. by rewrite lookup_empty. }
  intros i x m acc Hi IH k r. rewrite lookup_insert.
  case_decide; [intros [= <-]; set_solver|].
  intros Hk. specialize (IH k r Hk). set_solver.
Qed.

Lemma deficit_le L (m : gmap string FileData) : deficit L m ≤ size m * size L.
Proof.
  unfold deficit.
  apply (map_fold_weak_ind (λ acc m, acc ≤ size m * size L)).
  { simpl. lia. }
  intros i x m' acc Hi IH. rewrite map_size_insert_None by done.
  assert (size (L ∖ origin_modules x) ≤ size L)
    by (apply subseteq_size; set_solver).
  lia.
Qed.

Lemma fuel_bound_enough st :
  bounded (all_labels (file_data st)) st ∧
  measure (all_labels (file_data st)) st ≤ fuel_bound st.
Proof.
  split.
  - intros k r. apply all_labels_spec.
  - unfold measure, fuel_bound.
    pose proof (deficit_le (all_labels (file_data st)) (fd_map (file_data st))).
    lia.
Qed.

Lemma foldl_relax_not_Diverge cur ds (acc : outcome state) :
  acc ≠ Diverge → foldl (relax cur) acc ds ≠ Diverge.
Proof.
  revert acc. induction ds as [|d ds IH]; intros acc Hacc; [done|].
  cbn [foldl]. apply IH. destruct acc as [st| |]; [|done..].
  unfold relax. simpl. destruct (fd_map (file_data st) !! d); [|done].
  by case_match.
Qed.

Lemma step_not_Diverge st : step st ≠ Diverge.
Proof.
  unfold step. destruct (queue st) as [|current rest]; [done|]. simpl.
  destruct (fd_map (file_data st) !! current) as [record|]; [|done].
  case_bool_decide; [done|]. by apply foldl_relax_not_Diverge.
Qed.

Lemma step_measure L st st' :
  step st = Ok st' → bounded L st → queue st ≠ [] →
  bounded L st' ∧ measure L st' < measure L st.
Proof.
  unfold step. intros Hstep Hb Hne.
  destruct (queue st) as [|current rest] eqn:Hq; [done|]. simpl in Hstep.
  destruct (fd_map (file_data st) !! current) as [record|] eqn:Hrec; [|done].
  set (st1 := with_queue rest (queued st ∖ {[current]}) st) in *.
  assert (measure L st1 < measure L st) as Hm1.
  { unfold measure. rewrite Hq. simpl. lia. }
  case_bool_decide as Hempty.
  { injection Hstep as <-. done. }
  assert (bounded L st' ∧ measure L st' ≤ measure L st1) as [Hb' Hm'].
  { apply (foldl_relax_Ok
             (λ st0, bounded L st0 ∧ measure L st0 ≤ measure L st1)
             _ _ _ _ Hstep); [done|].
    intros st0 st2 d [Hb0 Hm0] _ Hrel.
    destruct (relaxed_measure L _ _ _ _ Hrel Hb0) as [Hb2 Hm2].
    { by eapply Hb. }
    split; [done|lia]. }
  split; [done|lia].
Qed.

Lemma loop_never_diverges L fuel st :
  measure L st ≤ fuel → bounded L st → loop fuel st ≠ Diverge.
Proof.
  revert st. induction fuel as [|fuel IH]; intros st Hm Hb; simpl;
    destruct (queue st) as [|current rest] eqn:Hq; try done.
  { unfold measure in Hm. rewrite Hq in Hm. simpl in Hm. lia. }
  destruct (step st) as [st1| |] eqn:Hstep; simpl; [|done|].
  - destruct (step_measure L st st1 Hstep Hb) as [Hb1 Hm1].
    { by rewrite Hq. }
    apply IH; [lia|done].
  - by apply step_not_Diverge in Hstep.
Qed.

Lemma propagate_never_diverges st : propagate st ≠ Diverge.
Proof.
  destruct (fuel_bound_enough st) as [Hb Hm].
  by apply (loop_never_diverges (all_labels (file_data st))).
Qed.

Lemma propagate_terminates st :
  no_key_error st → ∃ st', propagate st = Ok st'.
Proof.
  intros Hnk. destruct (fuel_bound_enough st) as [Hb Hm].
  by apply (loop_terminates (all_labels (file_data st))).
Qed.

Lemma loop_grows fuel st st' : loop fuel st = Ok st' → grows st st'.
Proof.
  intros Hloop.
  apply (loop_Ok (grows st) _ _ _ Hloop); [apply grows_refl|].
  intros sa sb Ha Hstep. eapply grows_trans; [done|by apply step_grows].
Qed.

Lemma grows_only_origins_change st st' :
  grows st st' → only_origins_change st st'.
Proof.
  intros (? & ? & ? & ? & ? & H). repeat split; try done. intros k.
  destruct (H k) as [r r' [Hf _]|]; constructor.
  unfold non_origin_fields, scanned_fields in Hf.
  unfold record_frame. repeat split; congruence.
Qed.

End whole_loop.

(** ** From the scan to the start of the loop *)

Section before_loop.
Implicit Types (st : state) (dtm : gmap string (gset string)).

Lemma resolve_facts st :
  scanned st →
  resolution_facts (resolve st) ∧
  (∀ k r, fd_map (file_data (resolve st)) !! k = Some r →
          origin_modules r = ∅ ∧ classification r = out_of_scope_s).
Proof.
  intros Hsc. pose proof (resolve_spec st Hsc) as H. simpl in H.
  destruct H as ((Hmd & Hrd & Hkeys) & _ & _ & _ & Hnone & Hsome).
  destruct Hsc as (_ & _ & Hf & _).
  assert (∀ k r', fd_map (file_data (resolve st)) !! k = Some r' →
            ∃ r, fd_map (file_data st) !! k = Some r ∧
                 resolved_from (module_defs st) (routine_defs st) k r r'
                   ∅ (get_set (adjacency (resolve st)) k)) as Hback.
  { intros k r' Hkr'.
    destruct (fd_map (file_data st) !! k) as [r|] eqn:Hkr.
    - destruct (Hsome k r Hkr) as (r'' & Hkr'' & Hres).
      exists r. split; [done|]. congruence.
    - destruct (Hnone k Hkr) as [Hn _]. congruence. }
  split.
  - intros k r' Hkr'.
    destruct (Hback k r' Hkr') as (r & Hkr & Hs & Ho & Hc & Hd & Ht & Hu).
    destruct (Hf k r Hkr) as (Hu0 & _).
    assert (uses r' = uses r ∧ calls r' = calls r) as [Huses Hcalls].
    { unfold scanned_fields in Hs. split; congruence. }
    rewrite Hmd, Hrd, Huses, Hcalls.
    split; [done|]. split.
    + intros t. rewrite Ht. set_solver.
    + intros x. rewrite Hu, Hu0. set_solver.
  - intros k r' Hkr'.
    destruct (Hback k r' Hkr') as (r & Hkr & Hs & Ho & Hc & _).
    destruct (Hf k r Hkr) as (_ & _ & Ho0 & Hc0). split; congruence.
Qed.

Lemma seeded_record_fields dtm r :
  non_origin_fields (seeded_record dtm r) = non_origin_fields r.
Proof. unfold seeded_record. by case_bool_decide. Qed.

Lemma seed_lookup dtm st :
  dict_ok (file_data st) →
  ∀ k, fd_map (file_data (seed dtm st)) !! k
       = seeded_record dtm <$> fd_map (file_data st) !! k.
Proof.
  intros [Hnd Hdom] k.
  destruct (foldl_seed_step dtm (fd_keys (file_data st)) st Hnd)
    as (_ & _ & _ & _ & Hfd & _).
  fold (seed dtm st) in Hfd. rewrite Hfd. case_decide as Hk; [done|].
  rewrite Hdom in Hk.
  destruct (fd_map (file_data st) !! k); [|done]. exfalso. eauto.
Qed.

Lemma is_seed_seeded_record dtm r :
  is_seed dtm (seeded_record dtm r) ↔ is_seed dtm r.
Proof.
  unfold is_seed. pose proof (seeded_record_fields dtm r) as H.
  unfold non_origin_fields, scanned_fields in H.
  assert (fortran_dir (seeded_record dtm r) = fortran_dir r) as -> by congruence.
  done.
Qed.

Lemma ready_init_queue dtm st :
  scanned st → ready dtm (init_queue (seed dtm (resolve st))).
Proof.
  intros Hsc.
  pose proof (resolve_graph_ok st Hsc) as ([Hnd Hdom] & Hk & Ht).
  destruct (resolve_facts st Hsc) as [_ Hfresh].
  pose proof (resolve_spec st Hsc) as Hrs. simpl in Hrs.
  destruct Hrs as (_ & Hro1 & _).
  pose proof (seed_lookup dtm (resolve st) (conj Hnd Hdom)) as Hlk.
  destruct (foldl_seed_step dtm (fd_keys (file_data (resolve st))) (resolve st) Hnd)
    as ((_ & _ & Hkeys) & Hadj & _ & _ & _ & Hro).
  fold (seed dtm (resolve st)) in Hkeys, Hadj, Hro.
  assert (∀ k, is_Some (fd_map (file_data (seed dtm (resolve st))) !! k) ↔
               is_Some (fd_map (file_data (resolve st)) !! k)) as Hdom'.
  { intros k. rewrite Hlk. by rewrite fmap_is_Some. }
  unfold ready, init_queue, graph_ok, dict_ok, keyed_by_path, targets_known.
  simpl. split; [split; [|split]|split; [|split]].
  - split; [by rewrite Hkeys|]. intros k. by rewrite Hkeys, Hdom, Hdom'.
  - intros k r. rewrite Hlk. intros Hr.
    apply fmap_Some in Hr as (r1 & Hr1 & ->).
    pose proof (seeded_record_fields dtm r1) as Hf.
    unfold non_origin_fields, scanned_fields in Hf.
    assert (rel_path (seeded_record dtm r1) = rel_path r1) as -> by congruence.
    by eapply Hk.
  - intros u v Hv. rewrite Hadj in Hv. apply Hdom'. by eapply Ht.
  - intros k. rewrite Hro, Hro1. split.
    + intros [?|[_ (r & Hr & Hs)]]; [set_solver|].
      exists (seeded_record dtm r). rewrite Hlk, Hr. split; [done|].
      by apply is_seed_seeded_record.
    + intros (r & Hr & Hs). right. rewrite Hlk in Hr.
      apply fmap_Some in Hr as (r1 & Hr1 & ->).
      split; [apply Hdom; eauto|]. exists r1. split; [done|].
      by apply (is_seed_seeded_record dtm r1).
  - intros k r. rewrite Hlk. intros Hr.
    apply fmap_Some in Hr as (r1 & Hr1 & ->).
    destruct (Hfresh k r1 Hr1) as [Ho Hc]. split.
    + pose proof (is_seed_seeded_record dtm r1) as Hiff.
      unfold seeded_record in *. unfold is_seed in *.
      case_bool_decide as Hs; simpl.
      * rewrite decide_True by done. rewrite Ho. set_solver.
      * rewrite decide_False; [done|]. intros Hne. by apply Hne.
    + pose proof (seeded_record_fields dtm r1) as Hf.
      unfold non_origin_fields in Hf. congruence.
  - done.
Qed.

Lemma ready_worklist_inv dtm st : ready dtm st → worklist_inv st.
Proof.
  intros (_ & Hro & Ho & Hq & Hqd). split.
  - split; [rewrite Hq; apply NoDup_sorted|].
    intros k. rewrite Hqd. apply elem_of_list_to_set.
  - intros u Hu v _. unfold origins_of.
    destruct (fd_map (file_data st) !! u) as [r|] eqn:Hr; simpl; [|set_solver].
    destruct (Ho u r Hr) as [-> _].
    case_decide as Hs; [|set_solver].
    exfalso. apply Hu. rewrite Hq. apply elem_of_sorted, Hro. eauto.
Qed.

Lemma ready_no_key_error dtm st : ready dtm st → no_key_error st.
Proof.
  intros ((_ & _ & Ht) & Hro & _ & Hq & _). split; [|done].
  intros k Hk. rewrite Hq in Hk. apply elem_of_sorted, Hro in Hk.
  destruct Hk as (r & -> & _). eauto.
Qed.

End before_loop.

(** ** The analysis as a whole *)

Section whole_analysis.
Implicit Types (st : state) (dtm : gmap string (gset string)).

Lemma keeps_resolution_facts st st' :
  keeps_resolution st st' → resolution_facts st → resolution_facts st'.
Proof.
  intros (Hmd & Hrd & Hadj & Hrec) Hfacts k r' Hr'.
  specialize (Hrec k). rewrite Hr' in Hrec. inversion Hrec as [r ? [Hs [Hu Hd]] Hr|]; subst.
  symmetry in Hr. destruct (Hfacts k r Hr) as (Hd0 & Ht0 & Hu0).
  assert (uses r' = uses r ∧ calls r' = calls r) as [Huses Hcalls].
  { unfold scanned_fields in Hs. split; congruence. }
  rewrite Hmd, Hrd, Hadj, Huses, Hcalls, Hu, Hd. done.
Qed.

Lemma keeps_resolution_trans st1 st2 st3 :
  keeps_resolution st1 st2 → keeps_resolution st2 st3 → keeps_resolution st1 st3.
Proof.
  intros (? & ? & ? & H12) (? & ? & ? & H23).
  repeat split; try congruence. intros k.
  specialize (H12 k). specialize (H23 k).
  destruct H12 as [r1 r2 (? & ? & ?)|]; inversion H23 as [? r3 (? & ? & ?)|];
    subst; constructor.
  repeat split; congruence.
Qed.

Lemma grows_keeps_resolution st st' : grows st st' → keeps_resolution st st'.
Proof.
  intros (? & ? & ? & _ & _ & H). repeat split; try done. intros k.
  destruct (H k) as [r r' [Hf _]|]; constructor.
  unfold non_origin_fields in Hf. repeat split; congruence.
Qed.

Lemma seed_keeps_resolution dtm st :
  dict_ok (file_data st) →
  keeps_resolution st (init_queue (seed dtm st)).
Proof.
  intros Hd. pose proof (seed_lookup dtm st Hd) as Hlk.
  destruct Hd as [Hnd _].
  destruct (foldl_seed_step dtm (fd_keys (file_data st)) st Hnd)
    as ((Hmd & Hrd & _) & Hadj & _).
  fold (seed dtm st) in Hmd, Hrd, Hadj.
  repeat split; try done. intros k. simpl. rewrite Hlk.
  destruct (fd_map (file_data st) !! k) as [r|]; constructor.
  pose proof (seeded_record_fields dtm r) as Hf.
  unfold non_origin_fields in Hf. repeat split; congruence.
Qed.

Lemma classify_record_fields owned r :
  scanned_fields (classify_record owned r) = scanned_fields r ∧
  unresolved_targets (classify_record owned r) = unresolved_targets r ∧
  resolved_deps (classify_record owned r) = resolved_deps r ∧
  origin_modules (classify_record owned r) = origin_modules r.
Proof. unfold classify_record. by repeat case_bool_decide. Qed.

Lemma foldl_classify_step ks st :
  NoDup ks →
  let st' := foldl classify_step st ks in
  same_but_records st st' ∧
  ∀ k, fd_map (file_data st') !! k =
       if decide (k ∈ ks)
       then classify_record (runtime_owned st) <$> fd_map (file_data st) !! k
       else fd_map (file_data st) !! k.
Proof.
  revert st. induction ks as [|k0 ks IH]; intros st Hnd; simpl.
  { unfold same_but_records. done. }
  apply NoDup_cons in Hnd as [Hk0 Hnd].
  destruct (IH (classify_step st k0) Hnd)
    as ((Hmd & Hrd & Hadj & Hro & Hq & Hqd & Hkeys) & Hfd).
  assert (same_but_records st (classify_step st k0) ∧
          ∀ k, fd_map (file_data (classify_step st k0)) !! k =
               if decide (k = k0)
               then classify_record (runtime_owned st)
                      <$> fd_map (file_data st) !! k
               else fd_map (file_data st) !! k)
    as ((Hmd0 & Hrd0 & Hadj0 & Hro0 & Hq0 & Hqd0 & Hkeys0) & Hfd0).
  { unfold classify_step, same_but_records.
    destruct (fd_map (file_data st) !! k0) as [r|] eqn:Hr; simpl.
    - repeat split; try done. intros k. rewrite lookup_insert.
      destruct (decide (k0 = k)) as [<-|Hne].
      + rewrite decide_True by done. by rewrite Hr.
      + by rewrite decide_False by done.
    - repeat split; try done. intros k.
      destruct (decide (k = k0)) as [->|]; [|done]. by rewrite Hr. }
  split; [unfold same_but_records; repeat split; congruence|].
  intros k. rewrite Hfd, Hfd0, Hro0.
  destruct (decide (k = k0)) as [->|Hne].
  - rewrite decide_False by done. by rewrite decide_True by left.
  - destruct (decide (k ∈ ks)) as [Hin|Hnin].
    + by rewrite decide_True by (by right).
    + rewrite decide_False; [done|]. by apply not_elem_of_cons.
Qed.

Lemma classify_spec st :
  dict_ok (file_data st) →
  same_but_records st (classify st) ∧
  ∀ k, fd_map (file_data (classify st)) !! k
       = classify_record (runtime_owned st) <$> fd_map (file_data st) !! k.
Proof.
  intros [Hnd Hdom].
  destruct (foldl_classify_step (sorted_list (fd_keys (file_data st))) st)
    as [Hsame Hfd].
  { by rewrite sorted_list_perm. }
  fold (classify st) in Hsame, Hfd. split; [done|].
  intros k. rewrite Hfd. case_decide as Hk; [done|].
  rewrite elem_of_sorted_list, Hdom in Hk.
  destruct (fd_map (file_data st) !! k); [|done]. exfalso. eauto.
Qed.

Lemma classify_keeps_resolution st :
  dict_ok (file_data st) → keeps_resolution st (classify st).
Proof.
  intros Hd. destruct (classify_spec st Hd) as [(? & ? & ? & _) Hfd].
  repeat split; try done. intros k. rewrite Hfd.
  destruct (fd_map (file_data st) !! k) as [r|]; constructor.
  destruct (classify_record_fields (runtime_owned st) r) as (? & ? & ? & _).
  done.
Qed.

Lemma classify_record_classification st k r :
  rel_path r = k →
  classification (classify_record (runtime_owned st) r)
  = classification_of st k (classify_record (runtime_owned st) r).
Proof.
  intros <-. unfold classify_record, classification_of.
  case_bool_decide as Ho.
  - simpl. by rewrite decide_True.
  - case_bool_decide as He; simpl.
    + rewrite decide_False by done. by rewrite decide_True.
    + rewrite decide_False by done. rewrite decide_False; [done|].
      intros Hne. by apply Hne.
Qed.

Lemma scan_succeeds env files :
  (∀ p, p ∈ files → is_Some (relative_to p (repo_root env))) →
  ∃ st, scan env files = Ok st.
Proof.
  unfold scan. generalize state_init.
  induction files as [|p files IH]; intros st Hrel; cbn [foldl]; [eauto|].
  assert (∃ st1, scan_file env (Ok st) p = Ok st1) as [st1 ->].
  { unfold scan_file. simpl. destruct (Hrel p) as [parts ->]; [left|]. eauto. }
  apply IH. intros q Hq. apply Hrel. by right.
Qed.

Lemma analyse_spec env dtm files st0 :
  scan env files = Ok st0 →
  ∃ st, analyse env dtm files = Ok st ∧ analysed dtm st ∧
        module_defs st = module_defs st0 ∧ routine_defs st = routine_defs st0 ∧
        adjacency st = adjacency (resolve st0).
Proof.
  intros Hscan. pose proof (scan_scanned env files st0 Hscan) as Hsc.
  set (st3 := init_queue (seed dtm (resolve st0))).
  pose proof (ready_init_queue dtm st0 Hsc) as Hready. fold st3 in Hready.
  destruct (propagate_terminates st3 (ready_no_key_error dtm st3 Hready))
    as [st4 Hprop].
  destruct (loop_Ok (λ st, grows st3 st ∧ worklist_inv st) _ _ _ Hprop)
    as [[Hg Hw] Hq].
  { split; [apply grows_refl|by eapply ready_worklist_inv]. }
  { intros sa sb [Hga Hwa] Hstep. split.
    - eapply grows_trans; [done|by apply step_grows].
    - by eapply step_worklist. }
  exists (classify st4). split.
  { unfold analyse. rewrite Hscan. simpl. fold st3. by rewrite Hprop. }
  destruct Hready as (([Hnd3 Hdom3] & Hk3 & Ht3) & Hro3 & Ho3 & _ & _).
  pose proof Hg as (Hmd & Hrd & Hadj & Hro & Hkeys & Hrec).
  assert (dict_ok (file_data st4)) as Hd4.
  { split; [by rewrite Hkeys|]. intros k. rewrite Hkeys, Hdom3.
    symmetry. by apply grows_is_Some. }
  destruct (classify_spec st4 Hd4)
    as ((Hmd5 & Hrd5 & Hadj5 & Hro5 & Hq5 & _ & Hkeys5) & Hfd5).
  assert (keeps_resolution (resolve st0) st3) as Hkr3.
  { apply seed_keeps_resolution. by apply resolve_graph_ok. }
  assert (keeps_resolution (resolve st0) (classify st4)) as Hkr.
  { eapply keeps_resolution_trans; [done|].
    eapply keeps_resolution_trans; [by apply grows_keeps_resolution|].
    by apply classify_keeps_resolution. }
  assert (∀ k r, fd_map (file_data (classify st4)) !! k = Some r →
            ∃ r3 r4, fd_map (file_data st3) !! k = Some r3 ∧
                     fd_map (file_data st4) !! k = Some r4 ∧
                     record_grows r3 r4 ∧
                     r = classify_record (runtime_owned st4) r4) as Hback.
  { intros k r. rewrite Hfd5. intros Hr.
    apply fmap_Some in Hr as (r4 & Hr4 & ->).
    pose proof (Hrec k) as Hk. rewrite Hr4 in Hk.
    destruct (fd_map (file_data st3) !! k) as [r3|] eqn:Hr3; [|by inversion Hk].
    exists r3, r4. split; [done|]. split; [done|]. split; [|done].
    by inversion Hk. }
  split; [split; [|split; [|split; [|split]]]|].
  - (* graph_ok *)
    split; [|split].
    + split; [by rewrite Hkeys5, Hkeys|]. intros k.
      rewrite Hfd5, fmap_is_Some, Hkeys5. apply Hd4.
    + intros k r Hr. destruct (Hback k r Hr) as (r3 & r4 & Hr3 & Hr4 & [Hf _] & ->).
      destruct (classify_record_fields (runtime_owned st4) r4) as (Hs & _).
      unfold non_origin_fields, scanned_fields in *.
      assert (rel_path (classify_record (runtime_owned st4) r4) = rel_path r3)
        as -> by congruence.
      by eapply Hk3.
    + intros u v Hv. rewrite Hfd5, fmap_is_Some.
      apply (grows_is_Some _ _ _ Hg). rewrite Hadj5, Hadj in Hv. by eapply Ht3.
  - (* resolution_facts *)
    eapply keeps_resolution_facts; [done|]. by apply resolve_facts.
  - rewrite Hq5. done.
  - (* closure *)
    intros u v Hv. rewrite Hadj5 in Hv.
    assert (∀ k, origins_of (file_data (classify st4)) k
                 = origins_of (file_data st4) k) as Hoo.
    { intros k. unfold origins_of. rewrite Hfd5.
      destruct (fd_map (file_data st4) !! k) as [r|]; [|done]. simpl.
      by destruct (classify_record_fields (runtime_owned st4) r) as (_ & _ & _ & ->). }
    rewrite !Hoo. destruct Hw as [_ Hcl]. apply Hcl; [|done].
    rewrite Hq. apply not_elem_of_nil.
  - (* records *)
    intros k r Hr. destruct (Hback k r Hr) as (r3 & r4 & Hr3 & Hr4 & [Hf Hsub] & ->).
    destruct (classify_record_fields (runtime_owned st4) r4) as (Hs & _ & _ & Ho).
    assert (fortran_dir (classify_record (runtime_owned st4) r4) = fortran_dir r3)
      as Hdir.
    { unfold non_origin_fields, scanned_fields in *. congruence. }
    split; [|split].
    + unfold is_seed. rewrite Hdir, Hro5, Hro, Hro3. unfold is_seed. split.
      * intros (r3' & Hr3' & Hseed). congruence.
      * intros Hseed. eauto.
    + rewrite Hdir, Ho. etrans; [|done].
      destruct (Ho3 k r3 Hr3) as [-> _]. unfold is_seed.
      case_decide as Hseed; set_solver.
    + unfold classification_of. rewrite Hro5.
      apply (classify_record_classification st4 k r4).
      assert (rel_path r4 = rel_path r3) as ->.
      { unfold non_origin_fields, scanned_fields in *. congruence. }
      by eapply Hk3.
  - destruct Hkr as (Hmd' & Hrd' & Hadj' & _).
    rewrite Hmd', Hrd', Hadj'.
    pose proof (resolve_spec st0 Hsc) as Hrs. simpl in Hrs.
    destruct Hrs as ((-> & -> & _) & _). done.
Qed.

Lemma analyse_total env dtm files :
  files_in_repo env files →
  ∃ st, analyse env dtm files = Ok st ∧ analysed dtm st.
Proof.
  intros Hrepo. destruct (scan_succeeds env files) as [st0 Hscan].
  { intros p Hp. unfold files_in_repo in Hrepo.
    rewrite Forall_forall in Hrepo. by apply Hrepo. }
  destruct (analyse_spec env dtm files st0 Hscan) as (st & ? & ? & _). eauto.
Qed.

Lemma analyse_inv env dtm files st :
  analyse env dtm files = Ok st →
  ∃ st0, scan env files = Ok st0 ∧ analysed dtm st ∧
         module_defs st = module_defs st0 ∧ routine_defs st = routine_defs st0 ∧
         adjacency st = adjacency (resolve st0).
Proof.
  intros Han. destruct (scan env files) as [st0| |] eqn:Hscan.
  - exists st0. split; [done|].
    destruct (analyse_spec env dtm files st0 Hscan) as (st' & Han' & H).
    assert (st' = st) as -> by congruence. done.
  - unfold analyse in Han. by rewrite Hscan in Han.
  - unfold analyse in Han. by rewrite Hscan in Han.
Qed.

End whole_analysis.

(** ** The symbol tables in terms of the scanned files *)

Section symbol_tables.
Variable env : Env.

Lemma foldl_scan_file_index files st st' :
  foldl (scan_file env) (Ok st) files = Ok st' →
  (∀ sym t, t ∈ get_set (module_defs st') sym ↔
     t ∈ get_set (module_defs st) sym ∨
     ∃ p, p ∈ files ∧ rel_of env p = Some t ∧
          sym ∈ set_iter env (p_defined_modules (file_symbols env p))) ∧
  (∀ sym t, t ∈ get_set (routine_defs st') sym ↔
     t ∈ get_set (routine_defs st) sym ∨
     ∃ p, p ∈ files ∧ rel_of env p = Some t ∧
          sym ∈ set_iter env (p_defined_routines (file_symbols env p))).
Proof.
  revert st. induction files as [|p files IH]; intros st Hfold;
    cbn [foldl] in Hfold.
  { injection Hfold as <-.
    split; intros sym t; (split; [by left|]);
      intros [?|(p & Hp & _)]; try done; by apply elem_of_nil in Hp. }
  destruct (foldl_scan_file_Ok env _ _ _ Hfold) as [st1 Hst1].
  rewrite Hst1 in Hfold. destruct (IH st1 Hfold) as [IHm IHr].
  unfold scan_file in Hst1. simpl in Hst1.
  destruct (relative_to p (repo_root env)) as [parts|] eqn:Hrel; [|done].
  injection Hst1 as <-. simpl in IHm, IHr.
  assert (rel_of env p = Some (as_posix parts)) as Hrelp.
  { unfold rel_of. by rewrite Hrel. }
  split; intros sym t.
  - rewrite IHm, index_symbols_spec. split.
    + intros [[?|[-> Hs]]|(q & Hq & ?)].
      * by left.
      * right. exists p. split; [left|done].
      * right. exists q. split; [by right|done].
    + intros [?|(q & Hq & Hrq & Hs)]; [by left; left|].
      apply elem_of_cons in Hq as [->|Hq].
      * left. right. split; [congruence|done].
      * right. eauto.
  - rewrite IHr, index_symbols_spec. split.
    + intros [[?|[-> Hs]]|(q & Hq & ?)].
      * by left.
      * right. exists p. split; [left|done].
      * right. exists q. split; [by right|done].
    + intros [?|(q & Hq & Hrq & Hs)]; [by left; left|].
      apply elem_of_cons in Hq as [->|Hq].
      * left. right. split; [congruence|done].
      * right. eauto.
Qed.

Lemma scan_index files st :
  set_iter_ok env →
  scan env files = Ok st →
  (∀ sym t, t ∈ get_set (module_defs st) sym ↔
     ∃ p, p ∈ files ∧ rel_of env p = Some t ∧
          sym ∈ p_defined_modules (file_symbols env p)) ∧
  (∀ sym t, t ∈ get_set (routine_defs st) sym ↔
     ∃ p, p ∈ files ∧ rel_of env p = Some t ∧
          sym ∈ p_defined_routines (file_symbols env p)).
Proof.
  intros Hiter Hscan.
  destruct (foldl_scan_file_index files state_init st Hscan) as [Hm Hr].
  assert (∀ (s : gset string) x, x ∈ set_iter env s ↔ x ∈ s) as Hmem.
  { intros s x. by rewrite (Hiter s), elem_of_elements. }
  split; intros sym t.
  - rewrite Hm. simpl. rewrite get_set_empty. setoid_rewrite Hmem. set_solver.
  - rewrite Hr. simpl. rewrite get_set_empty. setoid_rewrite Hmem. set_solver.
Qed.

End symbol_tables.

(** ** The analysis in terms of the scanned files *)

Lemma foldl_scan_file_lookup env files st0 st :
  foldl (scan_file env) (Ok st0) files = Ok st →
  (∀ k, is_Some (fd_map (file_data st0) !! k) →
        is_Some (fd_map (file_data st) !! k)) ∧
  (∀ p, p ∈ files →
        ∃ k, rel_of env p = Some k ∧ is_Some (fd_map (file_data st) !! k)) ∧
  (∀ k r, fd_map (file_data st) !! k = Some r →
          fd_map (file_data st0) !! k = Some r ∨
          ∃ p, p ∈ files ∧ rel_of env p = Some k ∧ r = new_record env p k).
Proof.
  revert st0. induction files as [|p files IH]; intros st0 Hfold;
    cbn [foldl] in Hfold.
  { injection Hfold as <-. split; [done|]. split; [|by left].
    intros p Hp. by apply elem_of_nil in Hp. }
  destruct (foldl_scan_file_Ok env _ _ _ Hfold) as [st1 Hst1].
  rewrite Hst1 in Hfold. destruct (IH st1 Hfold) as (IHk & IHp & IHr).
  unfold scan_file in Hst1. simpl in Hst1.
  destruct (relative_to p (repo_root env)) as [parts|] eqn:Hrel; [|done].
  injection Hst1 as <-. simpl in IHk, IHp, IHr.
  assert (rel_of env p = Some (as_posix parts)) as Hrelp.
  { unfold rel_of. by rewrite Hrel. }
  split; [|split].
  - intros k Hk. apply IHk. rewrite lookup_insert. by case_decide.
  - intros q Hq. apply elem_of_cons in Hq as [->|Hq]; [|by apply IHp].
    exists (as_posix parts). split; [done|]. apply IHk.
    by rewrite lookup_insert_eq.
  - intros k r Hr. destruct (IHr k r Hr) as [Hin|(q & Hq & Hrq & ->)].
    + rewrite lookup_insert in Hin. case_decide as Hk; [|by left].
      right. exists p. split; [left|]. subst k. split; [done|]. congruence.
    + right. exists q. split; [by right|done].
Qed.

Lemma analyse_stages env dtm files st :
  analyse env dtm files = Ok st →
  ∃ st0 st4,
    scan env files = Ok st0 ∧
    propagate (init_queue (seed dtm (resolve st0))) = Ok st4 ∧
    st = classify st4.
Proof.
  unfold analyse. intros Han.
  destruct (scan env files) as [st0| |] eqn:Hscan; [|done..]. simpl in Han.
  destruct (propagate (init_queue (seed dtm (resolve st0)))) as [st4| |]
    eqn:Hprop; [|done..].
  simpl in Han. injection Han as <-. by exists st0, st4.
Qed.

Lemma analyse_keeps_resolution env dtm files st0 st :
  scan env files = Ok st0 →
  analyse env dtm files = Ok st →
  keeps_resolution (resolve st0) st.
Proof.
  intros Hscan Han.
  destruct (analyse_stages env dtm files st Han)
    as (st0' & st4 & Hscan' & Hprop & ->).
  assert (st0' = st0) as -> by congruence.
  pose proof (scan_scanned env files st0 Hscan) as Hsc.
  pose proof (ready_init_queue dtm st0 Hsc) as Hready.
  pose proof (loop_grows _ _ _ Hprop) as Hg.
  pose proof Hg as (_ & _ & _ & _ & Hkeys & _).
  destruct Hready as (([Hnd3 Hdom3] & _) & _).
  assert (dict_ok (file_data st4)) as Hd4.
  { split; [by rewrite Hkeys|]. intros k. rewrite Hkeys, Hdom3.
    symmetry. by apply grows_is_Some. }
  eapply keeps_resolution_trans.
  { apply (seed_keeps_resolution dtm). by apply resolve_graph_ok. }
  eapply keeps_resolution_trans; [by apply grows_keeps_resolution|].
  by apply classify_keeps_resolution.
Qed.

Lemma analyse_graph_built env dtm files st :
  analyse env dtm files = Ok st → graph_built env files st.
Proof.
  intros Han.
  destruct (analyse_inv _ _ _ _ Han)
    as (st0 & Hscan & (_ & Hfacts & _) & Hmd & Hrd & _).
  pose proof (scan_scanned env files st0 Hscan) as Hsc.
  pose proof (resolve_spec st0 Hsc) as Hrs. simpl in Hrs.
  destruct Hrs as (_ & _ & _ & _ & Hnone & Hsome).
  destruct (analyse_keeps_resolution _ _ _ _ _ Hscan Han) as (_ & _ & _ & Hk).
  destruct (foldl_scan_file_lookup env files state_init st0 Hscan)
    as (_ & Hfiles & Hrecs).
  split; [|split; [|split; [|done]]].
  - intros p Hp. destruct (Hfiles p Hp) as (k & Hrel & [r0 Hr0]).
    exists k. split; [done|].
    destruct (Hsome k r0 Hr0) as (r1 & Hr1 & _).
    pose proof (Hk k) as H1. rewrite Hr1 in H1.
    inversion H1 as [a b _ Ha Hb|]. eauto.
  - intros k r Hr. pose proof (Hk k) as H1. rewrite Hr in H1.
    destruct (fd_map (file_data st0) !! k) as [r0|] eqn:Hr0.
    + destruct (Hsome k r0 Hr0) as (r1 & Hr1 & Hf1 & _).
      rewrite Hr1 in H1.
      assert (scanned_fields r = scanned_fields r1) as Hf
        by (inversion H1 as [a b Hab|]; by destruct Hab as [? _]).
      destruct (Hrecs k r0 Hr0) as [Hinit|(p & Hp & Hrel & ->)].
      { unfold state_init, fd_empty in Hinit. simpl in Hinit.
        by rewrite lookup_empty in Hinit. }
      exists p. split; [done|]. split; [done|].
      unfold scanned_fields in *. simpl in Hf1.
      split; congruence.
    + destruct (Hnone k Hr0) as [Hn _]. rewrite Hn in H1. inversion H1.
  - destruct (foldl_scan_file_index env files state_init st0 Hscan) as [Hm Hr].
    intros kind sym t. destruct kind; simpl.
    + rewrite Hmd, Hm. simpl. rewrite get_set_empty. set_solver.
    + rewrite Hrd, Hr. simpl. rewrite get_set_empty. set_solver.
Qed.


(** * The claims *)

Lemma lookups_defined_no_key_error st :
  bool_decide (lookups_defined st) = true → no_key_error st.
Proof.
  intros [Hq Hadj]%bool_decide_eq_true. split.
  - intros k Hk. rewrite Forall_forall in Hq. by apply Hq.
  - intros u v Hv. unfold get_set in Hv.
    destruct (adjacency st !! u) as [targets|] eqn:Hu; simpl in Hv; [|set_solver].
    by apply (Hadj u targets Hu v).
Qed.

(** ** C1: labels of an owned file reach the files it depends on *)

Lemma classification_of_owned st k r :
  classification_of st k r = runtime_owned_s → k ∈ runtime_owned st.
Proof.
  unfold classification_of. case_decide; [done|]. by case_decide.
Qed.

(** C1.  The analysis of a tree under the repository root returns, and in
    the state it returns: whenever file [A] is classified [runtime_owned]
    and the dependency graph has an edge from [A] to [B], the origin labels
    of [B] include those of [A], and [B] is not classified
    [out_of_scope]. *)
Theorem closure_of_propagation env dtm files :
  files_in_repo env files →
  ∃ st, analyse env dtm files = Ok st ∧
    ∀ A B rA,
      fd_map (file_data st) !! A = Some rA →
      classification rA = runtime_owned_s →
      B ∈ get_set (adjacency st) A →
      ∃ rB, fd_map (file_data st) !! B = Some rB ∧
            origin_modules rA ⊆ origin_modules rB ∧
            classification rB ≠ out_of_scope_s.
Proof.
  intros Hrepo.
  destruct (analyse_total env dtm files Hrepo)
    as (st & Han & (_ & _ & Ht) & _ & _ & Hcl & Hrec).
  exists st. split; [done|]. intros A B rA HA Howned Hedge.
  destruct (Ht A B Hedge) as [rB HB]. exists rB. split; [done|].
  pose proof (Hcl A B Hedge) as Hsub. unfold origins_of in Hsub.
  rewrite HA, HB in Hsub. simpl in Hsub. split; [done|].
  destruct (Hrec A rA HA) as (Hseed & Hlab & HcA).
  destruct (Hrec B rB HB) as (_ & _ & HcB).
  rewrite HcA in Howned. apply classification_of_owned, Hseed in Howned.
  assert (origin_modules rB ≠ ∅) as HneB.
  { unfold is_seed in Howned. intros HB0. apply Howned.
    apply leibniz_equiv. apply equiv_empty. set_solver. }
  rewrite HcB. unfold classification_of.
  case_decide; [done|]. by rewrite decide_True.
Qed.

Lemma closure_of_propagation_witness :
  ∃ rB, fd_map (file_data Sample.final) !! "feff10/src/ATOM/getorb.f" = Some rB ∧
        origin_modules Sample.pot_record ⊆ origin_modules rB ∧
        classification rB ≠ out_of_scope_s.
Proof.
  assert (analyse Sample.env Sample.dir_to_modules Sample.files = Ok Sample.final)
    as Hfinal by (vm_compute; reflexivity).
  destruct (closure_of_propagation Sample.env Sample.dir_to_modules Sample.files)
    as (st & Han & Hclosure).
  { compute_done. }
  rewrite Hfinal in Han. injection Han as <-.
  apply (Hclosure "feff10/src/POT/pot.f90").
  - vm_compute. reflexivity.
  - vm_compute. reflexivity.
  - compute_done.
Defined.

(** ** C2: the propagation loop terminates *)

(** C2.  For every set of scanned files, every dependency graph over them
    and every seeding, the work-list loop terminates: the budget
    [fuel_bound] that [propagate] gives it is never exhausted.  When the
    queued keys and the edge targets are scanned files (so that no lookup
    raises [KeyError]) it terminates with the queue empty, and every larger
    budget gives the same final state. *)
Theorem propagation_terminates (st : state) :
  propagate st ≠ Diverge ∧
  (no_key_error st →
   ∃ st', propagate st = Ok st' ∧ queue st' = [] ∧
          ∀ fuel, fuel_bound st ≤ fuel → loop fuel st = Ok st').
Proof.
  split; [apply propagate_never_diverges|].
  intros Hnk. destruct (propagate_terminates st Hnk) as [st' Hprop].
  exists st'. split; [done|]. split.
  - by destruct (loop_Ok (λ _, True) _ _ _ Hprop).
  - intros fuel Hle. by apply (loop_fuel_irrelevant (fuel_bound st)).
Qed.

Lemma propagation_terminates_witness :
  ∃ st', propagate Sample.before_loop = Ok st' ∧ queue st' = [] ∧
         ∀ fuel, fuel_bound Sample.before_loop ≤ fuel →
                 loop fuel Sample.before_loop = Ok st'.
Proof.
  apply (proj2 (propagation_terminates Sample.before_loop)).
  apply lookups_defined_no_key_error. vm_compute. reflexivity.
Defined.

(** ** C3: origin labels only grow *)

(** C3.  For every file, one iteration of the propagation loop leaves the
    origin-label set a superset of its previous value, and so does the
    whole loop, from whatever state it starts.  In particular, in the state
    that the analysis returns every record still has the labels that
    seeding gave it (the modules mapped from its directory).  No label is
    ever removed. *)
Theorem origin_labels_monotone (st : state) (k : string) :
  (∀ st', step st = Ok st' →
          origins_of (file_data st) k ⊆ origins_of (file_data st') k) ∧
  (∀ fuel st', loop fuel st = Ok st' →
               origins_of (file_data st) k ⊆ origins_of (file_data st') k) ∧
  (∀ env dtm files r,
     analyse env dtm files = Ok st →
     fd_map (file_data st) !! k = Some r →
     get_set dtm (fortran_dir r) ⊆ origin_modules r).
Proof.
  split; [|split].
  - intros st' Hstep. by apply grows_origins_of, step_grows.
  - intros fuel st' Hloop. by eapply grows_origins_of, loop_grows.
  - intros env dtm files r Han Hr.
    destruct (analyse_inv env dtm files st Han)
      as (_ & _ & (_ & _ & _ & _ & Hrec) & _).
    by destruct (Hrec k r Hr) as (_ & Hlab & _).
Qed.

Lemma origin_labels_monotone_witness :
  origins_of (file_data Sample.before_loop) "feff10/src/ATOM/getorb.f"
    ⊆ origins_of (file_data Sample.after_one) "feff10/src/ATOM/getorb.f" ∧
  origins_of (file_data Sample.before_loop) "feff10/src/POT/pot.f90"
    ⊆ origins_of (file_data Sample.after_loop) "feff10/src/POT/pot.f90" ∧
  get_set Sample.dir_to_modules (fortran_dir Sample.pot_record)
    ⊆ origin_modules Sample.pot_record.
Proof.
  split; [|split].
  - apply (proj1 (origin_labels_monotone Sample.before_loop _)).
    vm_compute. reflexivity.
  - apply (proj1 (proj2 (origin_labels_monotone Sample.before_loop _))
             (fuel_bound Sample.before_loop)).
    vm_compute. reflexivity.
  - apply (proj2 (proj2 (origin_labels_monotone Sample.final
                           "feff10/src/POT/pot.f90"))
             Sample.env Sample.dir_to_modules Sample.files).
    + vm_compute. reflexivity.
    + vm_compute. reflexivity.
Defined.

(** ** C4: conservative resolution *)

Lemma size_set_map_inj (f : string → string) `{!Inj (=) (=) f} (X : gset string) :
  size (set_map f X : gset string) = size X.
Proof.
  unfold set_map. rewrite size_list_to_set.
  - by rewrite length_fmap.
  - apply (NoDup_fmap_2 f), NoDup_elements.
Qed.

Lemma tag_inj kind : Inj (=) (=) (λ n, kind ++ "::" ++ n).
Proof. intros a b H. by do 2 apply (inj (String.app _)) in H. Qed.

Lemma tag_use_call a b : "use" ++ "::" ++ a ≠ "call" ++ "::" ++ b.
Proof. cbv [String.append]. discriminate. Qed.

Lemma unresolved_count (st : state) rel r :
  (∀ x, x ∈ unresolved_targets r ↔
        (∃ n, n ∈ uses r ∧ candidates (module_defs st) n rel = ∅
              ∧ x = "use" ++ "::" ++ n)
        ∨ (∃ n, n ∈ calls r ∧ candidates (routine_defs st) n rel = ∅
                ∧ x = "call" ++ "::" ++ n)) →
  size (unresolved_targets r)
  = size (unresolved_names (module_defs st) rel (uses r))
    + size (unresolved_names (routine_defs st) rel (calls r)).
Proof.
  intros Hu.
  pose proof (tag_inj "use") as Hinj1. pose proof (tag_inj "call") as Hinj2.
  rewrite <-(size_set_map_inj (λ n, "use" ++ "::" ++ n)
               (unresolved_names (module_defs st) rel (uses r))).
  rewrite <-(size_set_map_inj (λ n, "call" ++ "::" ++ n)
               (unresolved_names (routine_defs st) rel (calls r))).
  rewrite <-size_union.
  - f_equal. apply leibniz_equiv. intros x.
    rewrite Hu, elem_of_union, !elem_of_map. unfold unresolved_names.
    setoid_rewrite elem_of_filter. naive_solver.
  - intros x H1 H2. apply elem_of_map in H1 as (a & -> & _).
    apply elem_of_map in H2 as (b & Hab & _). by apply tag_use_call in Hab.
Qed.

(** C4.  The analysis of a tree under the repository root returns, and in
    the state it returns, for every file [rel] and every name [n] that the
    file references (in either kind) while no scanned file defines [n] in
    the table of that kind: the file carries the unresolved-target tag of
    that reference; resolving the reference leaves the dependency graph as
    it was; every edge of the file is due to some other reference, one that
    has a definer; and the file has one unresolved-target entry per
    unresolved name of each kind. *)
Theorem conservative_resolution env dtm files :
  files_in_repo env files →
  set_iter_ok env →
  ∃ st, analyse env dtm files = Ok st ∧
    ∀ rel r kind n,
      fd_map (file_data st) !! rel = Some r →
      n ∈ kind_refs kind r →
      (∀ p, p ∈ files → n ∉ kind_defined kind (file_symbols env p)) →
      (kind_tag kind ++ "::" ++ n) ∈ unresolved_targets r ∧
      (∀ acc, (resolve_ref (kind_tag kind) (kind_defs kind st) rel acc n).2
              = acc.2) ∧
      (∀ t, t ∈ get_set (adjacency st) rel →
            ∃ kind' n', (kind', n') ≠ (kind, n) ∧ n' ∈ kind_refs kind' r ∧
                        t ∈ get_set (kind_defs kind' st) n' ∧ t ≠ rel) ∧
      size (unresolved_targets r)
      = size (unresolved_names (module_defs st) rel (uses r))
        + size (unresolved_names (routine_defs st) rel (calls r)).
Proof.
  intros Hrepo Hiter.
  destruct (analyse_total env dtm files Hrepo) as (st & Han & _).
  exists st. split; [done|].
  destruct (analyse_inv env dtm files st Han)
    as (st0 & Hscan & (_ & Hfacts & _) & Hmd & Hrd & _).
  destruct (scan_index env files st0 Hiter Hscan) as [Him Hir].
  intros rel r kind n Hr Hn Hundef.
  destruct (Hfacts rel r Hr) as (_ & Ht & Hu).
  assert (get_set (kind_defs kind st) n = ∅) as Hnodef.
  { apply leibniz_equiv, equiv_empty. intros t Hin.
    destruct kind; simpl in Hin, Hundef.
    - rewrite Hmd in Hin. apply Him in Hin as (p & Hp & _ & Hdef).
      exfalso. by apply (Hundef p).
    - rewrite Hrd in Hin. apply Hir in Hin as (p & Hp & _ & Hdef).
      exfalso. by apply (Hundef p). }
  assert (candidates (kind_defs kind st) n rel = ∅) as Hcand.
  { unfold candidates. rewrite Hnodef. set_solver. }
  split; [|split; [|split]].
  - apply Hu. destruct kind; [left|right]; exists n; done.
  - intros acc. unfold resolve_ref. rewrite Hcand.
    by rewrite bool_decide_eq_false_2 by (intros H; by apply H).
  - intros t Hin. apply Ht in Hin as [(n' & Hn' & Hc)|(n' & Hn' & Hc)].
    + exists UseRef, n'. apply elem_of_candidates in Hc as [Hc Hne].
      repeat split; try done. intros [= <- <-]. simpl in Hnodef.
      rewrite Hnodef in Hc. set_solver.
    + exists CallRef, n'. apply elem_of_candidates in Hc as [Hc Hne].
      repeat split; try done. intros [= <- <-]. simpl in Hnodef.
      rewrite Hnodef in Hc. set_solver.
  - by apply unresolved_count.
Qed.

Lemma conservative_resolution_witness :
  "call::mpi_init" ∈ unresolved_targets Sample.pot_record ∧
  "use::lapack95" ∈ unresolved_targets Sample.unused_record ∧
  size (unresolved_targets Sample.unused_record) = 1.
Proof.
  assert (analyse Sample.env Sample.dir_to_modules Sample.files = Ok Sample.final)
    as Hfinal by (vm_compute; reflexivity).
  destruct (conservative_resolution Sample.env Sample.dir_to_modules Sample.files)
    as (st & Han & Hres).
  { compute_done. }
  { intros s. reflexivity. }
  rewrite Hfinal in Han. injection Han as <-.
  split; [|split].
  - apply (Hres "feff10/src/POT/pot.f90" Sample.pot_record CallRef "mpi_init").
    + vm_compute. reflexivity.
    + compute_done.
    + apply Forall_forall. compute_done.
  - apply (Hres "feff10/src/MISC/unused.f" Sample.unused_record UseRef "lapack95").
    + vm_compute. reflexivity.
    + compute_done.
    + apply Forall_forall. compute_done.
  - vm_compute. reflexivity.
Defined.

(** ** C5: which references are tagged unresolved *)




(** ** C6: the classifier *)

Lemma primary_none env : primary_runtime_module_name env ∅ = "none".
Proof. unfold primary_runtime_module_name. by rewrite bool_decide_eq_true_2. Qed.

Lemma primary_multiple env (modules : gset string) :
  1 < size modules → primary_runtime_module_name env modules = "multiple".
Proof.
  intros Hsize. unfold primary_runtime_module_name.
  rewrite bool_decide_eq_false_2.
  - by rewrite bool_decide_eq_true_2.
  - intros ->. rewrite size_empty in Hsize. lia.
Qed.

Lemma primary_single env (m : string) :
  set_iter_ok env →
  primary_runtime_module_name env {[m]}
  = table_get MODULE_TO_OUTPUT_NAME m (lower m).
Proof.
  intros Hiter. unfold primary_runtime_module_name.
  rewrite bool_decide_eq_false_2 by set_solver.
  rewrite bool_decide_eq_false_2 by (rewrite size_singleton; lia).
  pose proof (Hiter {[m]}) as Hp. rewrite elements_singleton in Hp.
  apply Permutation_singleton_r in Hp. by rewrite Hp.
Qed.

Lemma output_name_table m d :
  (m, d) ∈ MODULE_TO_OUTPUT_NAME →
  table_get MODULE_TO_OUTPUT_NAME m (lower m) = d.
Proof.
  unfold MODULE_TO_OUTPUT_NAME. intros Hin.
  repeat (apply elem_of_cons in Hin as [[= -> ->]|Hin]; [reflexivity|]).
  by apply elem_of_nil in Hin.
Qed.

(** C6.  The analysis of a tree under the repository root returns, and in
    the state it returns every record satisfies: the file is in
    [runtime_owned] exactly when it was a seed (its directory maps to a
    module); a seed is classified [runtime_owned] whatever labels it ended
    with; a file that is not a seed and has a non-empty origin set is
    classified [runtime_support_dependency]; a file with an empty origin
    set is classified [out_of_scope].  The primary label is ["none"] for an
    empty origin set, ["multiple"] for a set of more than one module, and
    for a single module its entry in [MODULE_TO_OUTPUT_NAME] (for a module
    without an entry, its name in lower case). *)
Theorem classifier_mapping env dtm files :
  files_in_repo env files →
  set_iter_ok env →
  ∃ st, analyse env dtm files = Ok st ∧
    (∀ k r, fd_map (file_data st) !! k = Some r →
       (k ∈ runtime_owned st ↔ is_seed dtm r) ∧
       (is_seed dtm r → classification r = runtime_owned_s) ∧
       (¬ is_seed dtm r → origin_modules r ≠ ∅ →
        classification r = runtime_support_dependency_s) ∧
       (origin_modules r = ∅ → classification r = out_of_scope_s) ∧
       (origin_modules r = ∅ →
        primary_runtime_module_name env (origin_modules r) = "none") ∧
       (1 < size (origin_modules r) →
        primary_runtime_module_name env (origin_modules r) = "multiple") ∧
       (∀ m, origin_modules r = {[m]} →
             primary_runtime_module_name env (origin_modules r)
             = table_get MODULE_TO_OUTPUT_NAME m (lower m))) ∧
    (∀ m d, (m, d) ∈ MODULE_TO_OUTPUT_NAME →
            table_get MODULE_TO_OUTPUT_NAME m (lower m) = d).
Proof.
  intros Hrepo Hiter.
  destruct (analyse_total env dtm files Hrepo)
    as (st & Han & _ & _ & _ & _ & Hrec).
  exists st. split; [done|]. split; [|apply output_name_table].
  intros k r Hr. destruct (Hrec k r Hr) as (Hseed & Hlab & Hc).
  split; [done|]. rewrite Hc. unfold classification_of.
  split; [|split; [|split; [|split; [|split]]]].
  - intros Hs. apply Hseed in Hs. by rewrite decide_True.
  - intros Hns Hne. rewrite decide_False by (by rewrite Hseed).
    by rewrite decide_True.
  - intros Hempty.
    assert (¬ is_seed dtm r) as Hns.
    { unfold is_seed. intros Hs. apply Hs. rewrite Hempty in Hlab.
      apply leibniz_equiv. apply equiv_empty. done. }
    rewrite decide_False by (by rewrite Hseed).
    rewrite decide_False; [done|]. intros Hne. by apply Hne.
  - intros ->. apply primary_none.
  - apply primary_multiple.
  - intros m ->. by apply primary_single.
Qed.

Lemma classifier_mapping_witness :
  classification Sample.pot_record = runtime_owned_s ∧
  classification Sample.getorb_record = runtime_support_dependency_s ∧
  classification Sample.unused_record = out_of_scope_s ∧
  primary_runtime_module_name Sample.env (origin_modules Sample.unused_record)
    = "none" ∧
  primary_runtime_module_name Sample.env (origin_modules Sample.getorb_record)
    = table_get MODULE_TO_OUTPUT_NAME "POT" (lower "POT").
Proof.
  assert (analyse Sample.env Sample.dir_to_modules Sample.files = Ok Sample.final)
    as Hfinal by (vm_compute; reflexivity).
  destruct (classifier_mapping Sample.env Sample.dir_to_modules Sample.files)
    as (st & Han & Hrec & _).
  { compute_done. }
  { intros s. reflexivity. }
  rewrite Hfinal in Han. injection Han as <-.
  split; [|split; [|split; [|split]]].
  - apply (Hrec "feff10/src/POT/pot.f90"); [vm_compute; reflexivity|].
    unfold is_seed. compute_done.
  - apply (Hrec "feff10/src/ATOM/getorb.f"); [vm_compute; reflexivity| |].
    + unfold is_seed. compute_done.
    + compute_done.
  - apply (Hrec "feff10/src/MISC/unused.f"); [vm_compute; reflexivity|].
    vm_compute. reflexivity.
  - apply (Hrec "feff10/src/MISC/unused.f"); [vm_compute; reflexivity|].
    vm_compute. reflexivity.
  - apply (Hrec "feff10/src/ATOM/getorb.f"); [vm_compute; reflexivity|].
    vm_compute. reflexivity.
Defined.

(** ** C7: the dependency graph has no self-edges *)

(** C7.  The analysis of a tree under the repository root returns, and the
    dependency graph it has built has no edge from a file to itself; nor
    does a record list its own file among its resolved dependencies.  This
    holds whatever the file defines and references, in particular when it
    defines and references the same name. *)
Theorem no_self_edges env dtm files :
  files_in_repo env files →
  ∃ st, analyse env dtm files = Ok st ∧
    ∀ k, (k ∉ get_set (adjacency st) k) ∧
         ∀ r, fd_map (file_data st) !! k = Some r → k ∉ resolved_deps r.
Proof.
  intros Hrepo.
  destruct (analyse_total env dtm files Hrepo) as (st & Han & _).
  exists st. split; [done|].
  destruct (analyse_inv env dtm files st Han)
    as (st0 & Hscan & (_ & Hfacts & _) & _ & _ & Hadj).
  assert (∀ k, k ∉ get_set (adjacency st) k) as Hno.
  { rewrite Hadj. apply resolve_no_self_edges.
    destruct (scan_scanned env files st0 Hscan) as (_ & _ & _ & _ & _ & -> & _).
    intros u. rewrite get_set_empty. set_solver. }
  intros k. split; [apply Hno|].
  intros r Hr. destruct (Hfacts k r Hr) as (-> & _). apply Hno.
Qed.

Lemma no_self_edges_witness :
  ("helper" ∈ defined_routines Sample.pot_record ∧
   "helper" ∈ calls Sample.pot_record) ∧
  ("feff10/src/POT/pot.f90"
     ∉ get_set (adjacency Sample.final) "feff10/src/POT/pot.f90") ∧
  "feff10/src/POT/pot.f90" ∉ resolved_deps Sample.pot_record.
Proof.
  assert (analyse Sample.env Sample.dir_to_modules Sample.files = Ok Sample.final)
    as Hfinal by (vm_compute; reflexivity).
  destruct (no_self_edges Sample.env Sample.dir_to_modules Sample.files)
    as (st & Han & Hno).
  { compute_done. }
  rewrite Hfinal in Han. injection Han as <-.
  split.
  - split; compute_done.
  - destruct (Hno "feff10/src/POT/pot.f90") as [H1 H2]. split; [done|].
    apply H2. vm_compute. reflexivity.
Defined.

(** ** C8: failures come before any output *)

Lemma emit_written env records :
  ∃ rest, written (emit env records)
          = CsvFile (generate_csv env records) :: rest.
Proof.
  unfold emit.
  repeat (match goal with
          | |- context [match ?x with Some _ => _ | None => _ end] => destruct x
          end); simpl; eauto.
Qed.

Lemma emit_success env records :
  ended (emit env records) = Ok 0%Z →
  written (emit env records)
  = [CsvFile (generate_csv env records);
     ReportFile (generate_markdown_report env records)].
Proof.
  unfold emit.
  repeat (match goal with
          | |- context [match ?x with Some _ => _ | None => _ end] => destruct x
          end); simpl; done.
Qed.

Lemma load_runtime_modules_Ok doc rms :
  load_runtime_modules doc = Ok rms → has_module_list doc.
Proof.
  destruct doc as [| |[[|[|m ms]]|]]; try done. intros _. by exists m, ms.
Qed.

Lemma main_cases env :
  (written (main env) = [] ∧ ended (main env) ≠ Ok 0%Z) ∨
  (∃ st, analysis_done env st ∧ main env = emit env (records_of (file_data st))).
Proof.
  unfold main.
  destruct (manifest_file env) as [doc|] eqn:Hdoc; [|by left].
  destruct (fortran_tree env) as [entries|] eqn:Htree; [|by left].
  destruct (load_runtime_modules doc) as [rms| |] eqn:Hload; [|by left..].
  simpl. case_bool_decide as Hfiles; [by left|].
  destruct (analyse env (build_dir_to_modules rms)
              (list_fortran_files env entries)) as [st| |] eqn:Han;
    [|by left..].
  right. exists st. split; [|done].
  exists doc, entries, rms.
  split; [done|]. split; [done|]. split; [done|]. split; [done|].
  split; [done|]. split; [by eapply analyse_graph_built|].
  destruct (analyse_inv _ _ _ _ Han) as (_ & _ & (_ & _ & Hq & Hcl & _) & _).
  split; [done|]. intros u v. apply Hcl.
Qed.

(** C8.  If the manifest is missing or holds no non-empty [inScopeModules]
    list, or the source root is missing or has no Fortran file below it,
    the run writes nothing and does not end with status 0.  Whenever a run
    writes an artifact, the analysis has returned before: every Fortran
    file has its record, the records hold the references parsed from the
    files, the symbol tables list the definers, the edges and unresolved
    tags are those of resolving every reference, the work queue is empty
    and the labels are at their fixpoint; and the first artifact is the
    CSV of these records.  A run that ends with status 0 has written the
    CSV and the report of that analysis, and nothing else. *)
Theorem fail_fast (env : Env) :
  (must_fail env → written (main env) = [] ∧ ended (main env) ≠ Ok 0%Z) ∧
  (written (main env) ≠ [] →
   ∃ st rest, analysis_done env st ∧
     written (main env)
     = CsvFile (generate_csv env (records_of (file_data st))) :: rest) ∧
  (ended (main env) = Ok 0%Z →
   ∃ st, analysis_done env st ∧ written (main env) = artifacts_of env st).
Proof.
  split; [|split].
  - intros Hfail. unfold main.
    destruct Hfail as [->|[(doc & -> & Hdoc)|[Htree|(entries & Htree & Hnone)]]].
    + done.
    + destruct (fortran_tree env); [|done].
      destruct (load_runtime_modules doc) as [rms| |] eqn:Hload; [|done..].
      exfalso. by apply Hdoc, (load_runtime_modules_Ok doc rms).
    + destruct (manifest_file env); [|done]. by rewrite Htree.
    + destruct (manifest_file env) as [doc|]; [|done]. rewrite Htree.
      destruct (load_runtime_modules doc); [|done..].
      simpl. rewrite Hnone. by rewrite bool_decide_eq_true_2.
  - intros Hw. destruct (main_cases env) as [[Hnil _]|(st & Hdone & Hmain)];
      [done|].
    destruct (emit_written env (records_of (file_data st))) as [rest Hrest].
    exists st, rest. split; [done|]. by rewrite Hmain.
  - intros Hend. destruct (main_cases env) as [[_ Hne]|(st & Hdone & Hmain)];
      [done|].
    exists st. split; [done|]. rewrite Hmain in *. by apply emit_success.
Qed.

Lemma fail_fast_witness :
  (written (main Failing.no_manifest) = [] ∧
   written (main Failing.empty_module_list) = [] ∧
   written (main Failing.no_root) = [] ∧
   written (main Failing.no_fortran_files) = []) ∧
  ∃ st, analysis_done Sample.env st ∧
        written (main Sample.env) = artifacts_of Sample.env st.
Proof.
  split; [split; [|split; [|split]]|].
  - apply (proj1 (fail_fast Failing.no_manifest)). left. reflexivity.
  - apply (proj1 (fail_fast Failing.empty_module_list)).
    right; left. eexists. split; [reflexivity|].
    intros (m & ms & Hdoc). discriminate Hdoc.
  - apply (proj1 (fail_fast Failing.no_root)). right; right; left. reflexivity.
  - apply (proj1 (fail_fast Failing.no_fortran_files)).
    right; right; right. eexists. split; [reflexivity|]. vm_compute. reflexivity.
  - apply (proj2 (proj2 (fail_fast Sample.env))). vm_compute. reflexivity.
Defined.

(** ** C9: two runs over the same tree agree *)

Section determinism.

Lemma path_leb_total p q : path_leb p q = true ∨ path_leb q p = true.
Proof.
  revert q. induction p as [|a p IH]; intros [|b q]; simpl; auto.
  destruct (decide (a = b)) as [->|Hne].
  - rewrite decide_True by done. apply IH.
  - rewrite decide_False by done.
    destruct (total String.le a b); [left|right]; by apply bool_decide_eq_true_2.
Qed.

Lemma path_leb_antisym p q : path_leb p q = true → path_leb q p = true → p = q.
Proof.
  revert q. induction p as [|a p IH]; intros [|b q]; simpl; try done.
  destruct (decide (a = b)) as [->|Hne].
  - rewrite decide_True by done. intros H1 H2. f_equal. by apply IH.
  - rewrite decide_False by done.
    intros H1%bool_decide_eq_true H2%bool_decide_eq_true.
    destruct Hne. by apply (anti_symm String.le).
Qed.

Lemma path_leb_trans p q r :
  path_leb p q = true → path_leb q r = true → path_leb p r = true.
Proof.
  revert q r. induction p as [|a p IH]; intros [|b q] [|c r]; simpl; try done.
  destruct (decide (a = b)) as [->|Hab].
  - destruct (decide (b = c)) as [->|Hbc]; [apply IH|done].
  - intros H1%bool_decide_eq_true.
    destruct (decide (b = c)) as [->|Hbc].
    + intros _. rewrite decide_False by done. by apply bool_decide_eq_true_2.
    + intros H2%bool_decide_eq_true.
      destruct (decide (a = c)) as [->|Hac].
      * destruct Hab. by apply (anti_symm String.le).
      * apply bool_decide_eq_true_2. by etrans.
Qed.

Lemma sorted_paths_unique (l1 l2 : list Path) :
  l1 ≡ₚ l2 → merge_sort path_le l1 = merge_sort path_le l2.
Proof.
  intros Hp.
  assert (Total path_le) as Htot by (intros p q; apply path_leb_total).
  assert (Transitive path_le) as Htr by (intros p q r; apply path_leb_trans).
  assert (AntiSymm (=) path_le) as Has by (intros p q; apply path_leb_antisym).
  apply (Sorted_unique path_le).
  - by apply Sorted_merge_sort.
  - by apply Sorted_merge_sort.
  - by rewrite !merge_sort_Permutation.
Qed.

Lemma foldl_comm_perm {A B} (f : A → B → A) (l1 l2 : list B) :
  (∀ a x y, f (f a x) y = f (f a y) x) →
  l1 ≡ₚ l2 → ∀ a, foldl f a l1 = foldl f a l2.
Proof.
  intros Hc. induction 1 as [|x l1 l2 _ IH|x y l|l1 l2 l3 _ IH1 _ IH2];
    intros a; simpl.
  - done.
  - apply IH.
  - by rewrite Hc.
  - by rewrite IH1.
Qed.

Lemma foldl_pointwise {A B} (f g : A → B → A) (l : list B) a :
  (∀ a x, f a x = g a x) → foldl f a l = foldl g a l.
Proof.
  intros Hfg. revert a. induction l as [|x l IH]; intros a; simpl; [done|].
  by rewrite Hfg, IH.
Qed.

Lemma dd_add_comm a b rel (d : gmap string (gset string)) :
  dd_add a rel (dd_add b rel d) = dd_add b rel (dd_add a rel d).
Proof.
  destruct (decide (a = b)) as [->|Hne]; [done|].
  unfold dd_add. rewrite !get_set_insert.
  rewrite (decide_False (P := b = a)) by done.
  rewrite (decide_False (P := a = b)) by done.
  by apply insert_insert_ne.
Qed.

Lemma counter_incr_comm a b (c : gmap string nat) :
  counter_incr a (counter_incr b c) = counter_incr b (counter_incr a c).
Proof.
  destruct (decide (a = b)) as [->|Hne]; [done|].
  unfold counter_incr.
  rewrite (lookup_insert_ne c b a) by done.
  rewrite (lookup_insert_ne c a b) by done.
  by apply insert_insert_ne.
Qed.

Context (env1 env2 : Env).
Hypothesis Hsame : same_tree env1 env2.
Hypothesis Hiter1 : set_iter_ok env1.
Hypothesis Hiter2 : set_iter_ok env2.

Lemma set_iter_perm (s : gset string) : set_iter env1 s ≡ₚ set_iter env2 s.
Proof. by rewrite (Hiter1 s), (Hiter2 s). Qed.

Lemma index_symbols_agree rel symbols defs :
  index_symbols env1 rel symbols defs = index_symbols env2 rel symbols defs.
Proof.
  unfold index_symbols. apply foldl_comm_perm; [|apply set_iter_perm].
  intros d x y. apply dd_add_comm.
Qed.

Lemma scan_agree files : scan env1 files = scan env2 files.
Proof.
  destruct Hsame as (Hroot & _ & _ & _ & _ & _ & _ & _ & Hsym).
  unfold scan. apply foldl_pointwise. intros acc p.
  unfold scan_file, new_record. rewrite Hroot, Hsym.
  destruct acc as [st| |]; simpl; [|done..].
  destruct (relative_to p (repo_root env2)); [|done].
  by rewrite !index_symbols_agree.
Qed.

Lemma analyse_agree dtm files : analyse env1 dtm files = analyse env2 dtm files.
Proof. unfold analyse. by rewrite scan_agree. Qed.

Lemma list_fortran_files_agree entries1 entries2 :
  entries1 ≡ₚ entries2 →
  list_fortran_files env1 entries1 = list_fortran_files env2 entries2.
Proof.
  intros Hp. destruct Hsame as (_ & _ & _ & _ & _ & _ & _ & Hfile & _).
  unfold list_fortran_files. apply sorted_paths_unique.
  rewrite (list_filter_iff (is_fortran_file env1) (is_fortran_file env2)).
  - by rewrite Hp.
  - intros p. unfold is_fortran_file. by rewrite Hfile.
Qed.

Lemma primary_agree (modules : gset string) :
  primary_runtime_module_name env1 modules
  = primary_runtime_module_name env2 modules.
Proof.
  unfold primary_runtime_module_name.
  case_bool_decide as Hempty; [done|].
  case_bool_decide as Hsize; [done|].
  assert (size modules = 1) as H1.
  { assert (size modules ≠ 0); [|lia].
    intros H0. apply size_empty_iff in H0. apply Hempty.
    by apply leibniz_equiv. }
  apply size_1_elem_of in H1 as [m Hm]. apply leibniz_equiv in Hm. subst modules.
  pose proof (Hiter1 {[m]}) as Hp1. pose proof (Hiter2 {[m]}) as Hp2.
  rewrite elements_singleton in Hp1, Hp2.
  apply Permutation_singleton_r in Hp1, Hp2. by rewrite Hp1, Hp2.
Qed.

Lemma emit_agree records : emit env1 records = emit env2 records.
Proof.
  destruct Hsame as (Hroot & Hman & Hfort & Hcsv & Hrep & _).
  assert (generate_csv env1 records = generate_csv env2 records) as Hc.
  { unfold generate_csv. apply list_fmap_ext. intros _ r _.
    unfold csv_row. by rewrite primary_agree. }
  assert (generate_markdown_report env1 records
          = generate_markdown_report env2 records) as Hr.
  { unfold generate_markdown_report. f_equal.
    apply foldl_pointwise. intros c r.
    apply foldl_comm_perm; [|apply set_iter_perm].
    intros c' x y. apply counter_incr_comm. }
  unfold emit. by rewrite Hc, Hr, Hroot, Hman, Hfort, Hcsv, Hrep.
Qed.

Lemma main_agree : main env1 = main env2.
Proof.
  pose proof Hsame as (_ & _ & _ & _ & _ & Hdoc & Htree & _).
  unfold main. rewrite Hdoc.
  destruct (manifest_file env2) as [doc|]; [|done].
  destruct Htree as [entries1 entries2 Hp|]; [|done].
  destruct (load_runtime_modules doc) as [rms| |]; [|done..].
  simpl. rewrite (list_fortran_files_agree entries1 entries2 Hp).
  case_bool_decide; [done|]. rewrite analyse_agree.
  destruct (analyse env2 _ _); [|done..]. apply emit_agree.
Qed.

End determinism.


Lemma set_iter_ok_reverse (s : gset string) : reverse (elements s) ≡ₚ elements s.
Proof. apply reverse_Permutation. Qed.


(** ** C10: propagation changes origin labels only *)

(** C10.  The propagation stage mutates only the origin-label sets of the
    records (and its own work queue).  After one iteration, and after the
    whole loop, the dependency graph, both symbol tables, the set of seeds
    and the keys of [file_data] are what they were, and every record has
    its path, directory, defined modules and routines, references,
    unresolved targets, resolved dependencies and classification
    unchanged. *)
Theorem propagation_frame (st : state) :
  (∀ st', step st = Ok st' → only_origins_change st st') ∧
  (∀ fuel st', loop fuel st = Ok st' → only_origins_change st st').
Proof.
  split.
  - intros st' Hstep. by apply grows_only_origins_change, step_grows.
  - intros fuel st' Hloop. by eapply grows_only_origins_change, loop_grows.
Qed.

Lemma propagation_frame_witness :
  only_origins_change Sample.before_loop Sample.after_one ∧
  only_origins_change Sample.before_loop Sample.after_loop.
Proof.
  split.
  - apply (proj1 (propagation_frame Sample.before_loop)).
    vm_compute. reflexivity.
  - apply (proj2 (propagation_frame Sample.before_loop)
             (fuel_bound Sample.before_loop)).
    vm_compute. reflexivity.
Defined.

(** * Further properties of the script *)

(** ** [strip_comments] *)

Lemma before_bang_split line :
  has_bang (before_bang line) = false ∧
  ∃ rest, line = before_bang line ++ rest ∧
          (has_bang line = false ∧ rest = "" ∨
           has_bang line = true ∧ ∃ r, rest = String "!" r).
Proof.
  induction line as [|c line [IH1 (rest & IH2 & IH3)]]; simpl.
  { split; [done|]. exists "". split; [done|]. by left. }
  destruct (decide (c = "!"%char)) as [->|Hne]; simpl.
  - split; [done|]. exists (String "!" line). split; [done|]. right. eauto.
  - rewrite decide_False by done. split; [done|].
    exists rest. split; [|done]. cbv [String.append]. fold String.append.
    by rewrite <-IH2.
Qed.

(** X1.  [strip_comments] cuts a line at its first ["!"]: the result has no
    ["!"], the line is the result followed by nothing or by a remainder
    that starts with ["!"], and a line without ["!"] comes back whole. *)
Theorem strip_comments_cuts_at_first_bang (line : string) :
  has_bang (strip_comments line) = false ∧
  (∃ rest, line = strip_comments line ++ rest ∧
           (rest = "" ∨ ∃ r, rest = String "!" r)) ∧
  (has_bang line = false → strip_comments line = line).
Proof.
  unfold strip_comments.
  destruct (before_bang_split line) as [Hno (rest & Hsplit & Hrest)].
  destruct (has_bang line) eqn:Hb; simpl.
  - split; [done|]. split; [|done]. exists rest. split; [done|].
    destruct Hrest as [[? _]|[_ ?]]; [done|by right].
  - split; [done|]. split; [|done]. exists "". split; [|by left].
    clear. induction line as [|c line IH]; [done|].
    cbv [String.append]. fold String.append. by rewrite <-IH.
Qed.

(** X2.  Stripping is idempotent, and text behind the first ["!"] has no
    influence on the result: two lines that agree up to their first ["!"]
    strip to the same text. *)
Theorem strip_comments_ignores_comment_text (code c1 c2 : string) :
  has_bang code = false →
  strip_comments (code ++ String "!" c1) = strip_comments (code ++ String "!" c2) ∧
  strip_comments (code ++ String "!" c1) = code ∧
  strip_comments (strip_comments (code ++ String "!" c1))
  = strip_comments (code ++ String "!" c1).
Proof.
  intros Hcode.
  assert (∀ c, strip_comments (code ++ String "!" c) = code) as Hstrip.
  { intros c. unfold strip_comments.
    assert (has_bang (code ++ String "!" c) = true) as ->.
    { clear Hcode. induction code as [|a code IH]; [done|].
      cbv [String.append]. fold String.append. simpl. by case_decide. }
    simpl. induction code as [|a code IH]; [done|].
    cbv [String.append]. fold String.append. simpl in *.
    destruct (decide (a = "!"%char)); [done|]. by rewrite IH. }
  rewrite !Hstrip. split; [done|]. split; [done|].
  unfold strip_comments. by rewrite Hcode.
Qed.

Lemma strip_comments_ignores_comment_text_witness :
  strip_comments ("      call getorb(iz)  " ++ String "!" " call helper")
  = "      call getorb(iz)  ".
Proof.
  apply (strip_comments_ignores_comment_text _ " call helper" "").
  reflexivity.
Defined.

(** ** [build_dir_to_modules] *)

Lemma foldl_dd_add_dirs module dirs mapping d m :
  m ∈ get_set
        (foldl (λ mapping directory, dd_add (upper directory) module mapping)
               mapping dirs) d ↔
  m ∈ get_set mapping d ∨ (m = module ∧ d ∈ upper <$> dirs).
Proof.
  revert mapping. induction dirs as [|dir dirs IH]; intros mapping; simpl.
  { rewrite elem_of_nil. tauto. }
  rewrite IH, get_set_dd_add, elem_of_cons.
  destruct (decide (upper dir = d)) as [<-|Hne].
  - rewrite elem_of_union, elem_of_singleton. naive_solver.
  - naive_solver.
Qed.

Lemma build_dir_to_modules_elem runtime_modules d m :
  m ∈ get_set (build_dir_to_modules runtime_modules) d ↔
  m ∈ runtime_modules ∧ d ∈ upper <$> table_get MODULE_TO_DIRS m [m].
Proof.
  unfold build_dir_to_modules.
  assert (∀ mapping,
            m ∈ get_set
                  (foldl (λ mapping module,
                            foldl (λ mapping directory,
                                     dd_add (upper directory) module mapping)
                                  mapping (table_get MODULE_TO_DIRS module [module]))
                         mapping runtime_modules) d ↔
            m ∈ get_set mapping d ∨
            (m ∈ runtime_modules ∧ d ∈ upper <$> table_get MODULE_TO_DIRS m [m]))
    as H.
  { induction runtime_modules as [|module rms IH]; intros mapping; simpl.
    { rewrite elem_of_nil. tauto. }
    rewrite IH, foldl_dd_add_dirs, elem_of_cons. naive_solver. }
  rewrite H, get_set_empty. set_solver.
Qed.

Lemma dd_add_values_nonempty k x (mapping : gmap string (gset string)) :
  (∀ d s, mapping !! d = Some s → s ≠ ∅) →
  ∀ d s, dd_add k x mapping !! d = Some s → s ≠ ∅.
Proof.
  intros Hm d s. unfold dd_add. rewrite lookup_insert.
  case_decide; [|apply Hm]. intros [= <-]. set_solver.
Qed.

Lemma build_dir_to_modules_values_nonempty runtime_modules d s :
  build_dir_to_modules runtime_modules !! d = Some s → s ≠ ∅.
Proof.
  unfold build_dir_to_modules. revert d s.
  assert (∀ mapping : gmap string (gset string),
            (∀ d s, mapping !! d = Some s → s ≠ ∅) →
            ∀ d s,
              foldl (λ mapping module,
                       foldl (λ mapping directory,
                                dd_add (upper directory) module mapping)
                             mapping (table_get MODULE_TO_DIRS module [module]))
                    mapping runtime_modules !! d = Some s → s ≠ ∅) as H.
  { induction runtime_modules as [|module rms IH]; intros mapping Hm; [done|].
    cbn [foldl]. apply IH. clear IH.
    generalize (table_get MODULE_TO_DIRS module [module]). intros dirs.
    revert mapping Hm.
    induction dirs as [|dir dirs IHd]; intros mapping Hm; cbn [foldl];
      [exact Hm|].
    apply IHd. by apply dd_add_values_nonempty. }
  apply H. intros d s. by rewrite lookup_empty.
Qed.

Lemma table_get_dirs_nonempty m : table_get MODULE_TO_DIRS m [m] ≠ [].
Proof.
  unfold MODULE_TO_DIRS. simpl. repeat (case_decide; [done|]). done.
Qed.

(** X4.  [build_dir_to_modules] maps directory [d] to module [m] exactly
    when [m] is in scope and [d] is, in upper case, one of the directories
    of [m] in [MODULE_TO_DIRS] (for a module without an entry: the
    directory named like the module).  Hence every in-scope module is
    mapped from at least one directory, and no directory is mapped to an
    empty set. *)
Theorem build_dir_to_modules_spec (runtime_modules : list string) :
  (∀ d m, m ∈ get_set (build_dir_to_modules runtime_modules) d ↔
          m ∈ runtime_modules ∧ d ∈ upper <$> table_get MODULE_TO_DIRS m [m]) ∧
  (∀ m, m ∈ runtime_modules →
        ∃ d, m ∈ get_set (build_dir_to_modules runtime_modules) d) ∧
  (∀ d s, build_dir_to_modules runtime_modules !! d = Some s → s ≠ ∅).
Proof.
  split; [apply build_dir_to_modules_elem|]. split.
  - intros m Hm. pose proof (table_get_dirs_nonempty m) as Hne.
    destruct (table_get MODULE_TO_DIRS m [m]) as [|dir dirs] eqn:Hd; [done|].
    exists (upper dir). apply build_dir_to_modules_elem. split; [done|].
    rewrite Hd. rewrite fmap_cons. left.
  - apply build_dir_to_modules_values_nonempty.
Qed.

Lemma build_dir_to_modules_spec_witness :
  get_set (build_dir_to_modules ["DEBYE"; "EXTRA"]) "FF2X" = {["DEBYE"]} ∧
  get_set (build_dir_to_modules ["DEBYE"; "EXTRA"]) "EXTRA" = {["EXTRA"]} ∧
  ∃ d, "DEBYE" ∈ get_set (build_dir_to_modules ["DEBYE"; "EXTRA"]) d.
Proof.
  split; [vm_compute; reflexivity|]. split; [vm_compute; reflexivity|].
  apply (proj1 (proj2 (build_dir_to_modules_spec ["DEBYE"; "EXTRA"]))).
  compute_done.
Defined.

(** ** [list_fortran_files] *)

(** X5.  [list_fortran_files] returns the entries of the walk that are
    files with a Fortran suffix (compared in lower case), each as often as
    the walk lists it, in ascending path order.  It returns the empty list
    exactly when the walk lists no such file. *)
Theorem list_fortran_files_spec (env : Env) (entries : list Path) :
  list_fortran_files env entries ≡ₚ filter (is_fortran_file env) entries ∧
  (∀ p, p ∈ list_fortran_files env entries ↔
        p ∈ entries ∧ is_file env p = true ∧
        lower (suffix p) ∈ FORTRAN_SUFFIXES) ∧
  StronglySorted path_le (list_fortran_files env entries) ∧
  (list_fortran_files env entries = [] ↔
   ∀ p, p ∈ entries → ¬ is_fortran_file env p).
Proof.
  assert (list_fortran_files env entries ≡ₚ filter (is_fortran_file env) entries)
    as Hperm by apply merge_sort_Permutation.
  split; [done|]. split; [|split].
  - intros p. rewrite Hperm, list_elem_of_filter. unfold is_fortran_file. tauto.
  - assert (Total path_le) as Htot by (intros p q; apply path_leb_total).
    assert (Transitive path_le) as Htr by (intros p q r; apply path_leb_trans).
    by apply StronglySorted_merge_sort.
  - split.
    + intros Hnil p Hp Hf.
      assert (p ∈ list_fortran_files env entries) as Hin.
      { rewrite Hperm. by apply list_elem_of_filter. }
      rewrite Hnil in Hin. by apply elem_of_nil in Hin.
    + intros Hnone. apply Permutation_nil_r. rewrite Hperm.
      apply Permutation_nil_r. clear Hperm.
      induction entries as [|p entries IH]; [done|].
      rewrite filter_cons_False.
      * apply IH. intros q Hq. apply Hnone. by right.
      * apply Hnone. left.
Qed.


(** ** The scan *)

Lemma foldl_scan_file_Raise env e files :
  foldl (scan_file env) (Raise e) files = Raise e.
Proof. induction files as [|p files IH]; [done|]. cbn [foldl]. apply IH. Qed.

Lemma foldl_scan_file_outcome env files st0 :
  (files_in_repo env files ∧ ∃ st, foldl (scan_file env) (Ok st0) files = Ok st) ∨
  (¬ files_in_repo env files ∧
   foldl (scan_file env) (Ok st0) files = Raise not_in_subpath).
Proof.
  revert st0. induction files as [|p files IH]; intros st0; cbn [foldl].
  { left. split; [constructor|eauto]. }
  unfold scan_file at 2. simpl.
  destruct (relative_to p (repo_root env)) as [parts|] eqn:Hrel.
  - match goal with
    | |- context [foldl _ (Ok ?s) files] => destruct (IH s) as [[Hin Hok]|[Hout Hr]]
    end.
    + left. split; [|done]. constructor; [by rewrite Hrel|done].
    + right. split; [|done]. intros Hall. apply Hout.
      by apply Forall_cons in Hall as [_ ?].
  - right. split.
    + intros Hall. apply Forall_cons in Hall as [[? Hp] _]. congruence.
    + apply foldl_scan_file_Raise.
Qed.

(** X6.  The scan returns only for files under the repository root.  If it
    returns, every listed file lies under the root, and [file_data] has a
    record under a key exactly when the key is the relative path of a
    listed file: no file is dropped and no key is invented. *)
Theorem scan_result_covers_files (env : Env) (files : list Path) (st : state) :
  scan env files = Ok st →
  files_in_repo env files ∧
  ∀ k, is_Some (fd_map (file_data st) !! k) ↔
       ∃ p, p ∈ files ∧ rel_of env p = Some k.
Proof.
  intros Hscan. split.
  - unfold scan in Hscan.
    destruct (foldl_scan_file_outcome env files state_init)
      as [[Hin _]|[_ Hr]]; [done|congruence].
  - destruct (foldl_scan_file_lookup env files state_init st Hscan)
      as (_ & Hfiles & Hrecs).
    intros k. split.
    + intros [r Hr]. destruct (Hrecs k r Hr) as [Hinit|(p & Hp & Hrel & _)].
      * unfold state_init, fd_empty in Hinit. simpl in Hinit.
        by rewrite lookup_empty in Hinit.
      * eauto.
    + intros (p & Hp & Hrel). destruct (Hfiles p Hp) as (k' & Hrel' & Hk').
      by assert (k' = k) as <- by congruence.
Qed.

Lemma scan_result_covers_files_witness :
  files_in_repo Sample.env Sample.files ∧
  ∀ k, is_Some (fd_map (file_data More.scanned_state) !! k) ↔
       ∃ p, p ∈ Sample.files ∧ rel_of Sample.env p = Some k.
Proof.
  apply (scan_result_covers_files Sample.env Sample.files).
  vm_compute. reflexivity.
Defined.

Lemma foldl_scan_file_records env files st0 st :
  foldl (scan_file env) (Ok st0) files = Ok st →
  dict_ok (file_data st0) →
  NoDup (fd_keys (file_data st0) ++ omap (rel_of env) files) →
  fd_keys (file_data st) = (fd_keys (file_data st0) ++ omap (rel_of env) files)%list ∧
  (∀ k, k ∈ fd_keys (file_data st0) →
        fd_map (file_data st) !! k = fd_map (file_data st0) !! k) ∧
  (∀ p k, p ∈ files → rel_of env p = Some k →
          fd_map (file_data st) !! k = Some (new_record env p k)).
Proof.
  revert st0. induction files as [|p files IH]; intros st0 Hfold Hd Hnd;
    cbn [foldl] in Hfold.
  { injection Hfold as <-. simpl. rewrite app_nil_r. repeat split; try done.
    intros p k Hp. by apply elem_of_nil in Hp. }
  destruct (foldl_scan_file_Ok env _ _ _ Hfold) as [st1 Hst1].
  rewrite Hst1 in Hfold.
  unfold scan_file in Hst1. simpl in Hst1.
  destruct (relative_to p (repo_root env)) as [parts|] eqn:Hrel; [|done].
  injection Hst1 as <-.
  assert (rel_of env p = Some (as_posix parts)) as Hrelp.
  { unfold rel_of. by rewrite Hrel. }
  simpl in Hnd. rewrite Hrelp in Hnd. simpl in Hnd.
  assert (as_posix parts ∉ fd_keys (file_data st0)) as Hfresh.
  { apply NoDup_app in Hnd as (_ & Hdisj & _). intros Hin.
    apply (Hdisj _ Hin). left. }
  match type of Hfold with
  | foldl _ (Ok ?s) _ = _ => destruct (IH s Hfold) as (Hkeys & Hold & Hnew)
  end.
  { simpl. by apply dict_ok_setitem. }
  { simpl. rewrite decide_False by done. rewrite <-app_assoc. done. }
  simpl in Hkeys, Hold, Hnew. rewrite decide_False in Hkeys, Hold by done.
  split; [|split].
  - simpl. rewrite Hrelp. simpl. rewrite Hkeys, <-app_assoc. done.
  - intros k Hk. rewrite Hold by (apply elem_of_app; by left).
    rewrite lookup_insert_ne; [done|]. by intros <-.
  - intros q k Hq Hqk. apply elem_of_cons in Hq as [->|Hq].
    + assert (k = as_posix parts) as -> by congruence.
      rewrite Hold by (apply elem_of_app; right; left).
      by rewrite lookup_insert_eq.
    + by eapply Hnew.
Qed.

(** X7.  When the listed files have pairwise distinct relative paths, the
    scan leaves one record per file: the keys of [file_data] are the
    relative paths in listing order, and the record stored under the path
    of a file holds that path, the upper-cased name of the file's
    directory, the four symbol sets parsed from the file, and nothing
    resolved, labelled or classified yet. *)
Theorem scan_keeps_one_record_per_file (env : Env) (files : list Path) (st : state) :
  scan env files = Ok st →
  NoDup (omap (rel_of env) files) →
  fd_keys (file_data st) = omap (rel_of env) files ∧
  ∀ p k, p ∈ files → rel_of env p = Some k →
    ∃ r, fd_map (file_data st) !! k = Some r ∧
         rel_path r = k ∧
         fortran_dir r = upper (name (parent p)) ∧
         defined_modules r = p_defined_modules (file_symbols env p) ∧
         defined_routines r = p_defined_routines (file_symbols env p) ∧
         uses r = p_uses (file_symbols env p) ∧
         calls r = p_calls (file_symbols env p) ∧
         fresh_record r.
Proof.
  intros Hscan Hnd.
  destruct (foldl_scan_file_records env files state_init st Hscan)
    as (Hkeys & _ & Hnew).
  { by destruct scanned_init as [? _]. }
  { done. }
  split; [done|]. intros p k Hp Hk. exists (new_record env p k).
  split; [by eapply Hnew|]. done.
Qed.

Lemma scan_keeps_one_record_per_file_witness :
  fd_keys (file_data More.scanned_state) = omap (rel_of Sample.env) Sample.files ∧
  ∀ p k, p ∈ Sample.files → rel_of Sample.env p = Some k →
    ∃ r, fd_map (file_data More.scanned_state) !! k = Some r ∧
         rel_path r = k ∧
         fortran_dir r = upper (name (parent p)) ∧
         defined_modules r = p_defined_modules (file_symbols Sample.env p) ∧
         defined_routines r = p_defined_routines (file_symbols Sample.env p) ∧
         uses r = p_uses (file_symbols Sample.env p) ∧
         calls r = p_calls (file_symbols Sample.env p) ∧
         fresh_record r.
Proof.
  apply (scan_keeps_one_record_per_file Sample.env Sample.files).
  - vm_compute. reflexivity.
  - compute_done.
Defined.

(** X8.  After the scan the two symbol tables are exact: [module_defs]
    lists under a name the relative paths of the files that define a module
    of that name, and [routine_defs] those of the files that define a
    routine of that name; no definer is missing and none is added. *)
Theorem symbol_tables_exact (env : Env) (files : list Path) (st : state) :
  set_iter_ok env →
  scan env files = Ok st →
  (∀ sym t, t ∈ get_set (module_defs st) sym ↔
     ∃ p, p ∈ files ∧ rel_of env p = Some t ∧
          sym ∈ p_defined_modules (file_symbols env p)) ∧
  (∀ sym t, t ∈ get_set (routine_defs st) sym ↔
     ∃ p, p ∈ files ∧ rel_of env p = Some t ∧
          sym ∈ p_defined_routines (file_symbols env p)).
Proof. apply scan_index. Qed.

Lemma symbol_tables_exact_witness :
  (∀ sym t, t ∈ get_set (module_defs More.scanned_state) sym ↔
     ∃ p, p ∈ Sample.files ∧ rel_of Sample.env p = Some t ∧
          sym ∈ p_defined_modules (file_symbols Sample.env p)) ∧
  (∀ sym t, t ∈ get_set (routine_defs More.scanned_state) sym ↔
     ∃ p, p ∈ Sample.files ∧ rel_of Sample.env p = Some t ∧
          sym ∈ p_defined_routines (file_symbols Sample.env p)).
Proof.
  apply (symbol_tables_exact Sample.env Sample.files).
  - intros s. reflexivity.
  - vm_compute. reflexivity.
Defined.

(** ** The stages of the analysis *)

Lemma analyse_lookup_None env dtm files st rel :
  analyse env dtm files = Ok st →
  fd_map (file_data st) !! rel = None →
  get_set (adjacency st) rel = ∅.
Proof.
  intros Han Hnone.
  destruct (analyse_stages env dtm files st Han) as (st0 & st4 & Hscan & Hprop & ->).
  pose proof (scan_scanned env files st0 Hscan) as Hsc.
  pose proof (ready_init_queue dtm st0 Hsc) as Hready.
  pose proof (loop_grows _ _ _ Hprop) as Hg.
  pose proof Hg as (_ & _ & Hadj & _ & Hkeys & _).
  destruct Hready as (([Hnd3 Hdom3] & _) & _).
  assert (dict_ok (file_data st4)) as Hd4.
  { split; [by rewrite Hkeys|]. intros k. rewrite Hkeys, Hdom3.
    symmetry. by apply grows_is_Some. }
  destruct (classify_spec st4 Hd4) as ((_ & _ & Hadj5 & _) & Hfd5).
  rewrite Hfd5 in Hnone. apply fmap_None in Hnone.
  assert (fd_map (file_data (init_queue (seed dtm (resolve st0)))) !! rel = None)
    as Hnone3.
  { apply eq_None_not_Some. rewrite <-(grows_is_Some _ _ _ Hg).
    rewrite Hnone. by intros [??]. }
  assert (fd_map (file_data (resolve st0)) !! rel = None) as Hnone1.
  { simpl in Hnone3. rewrite seed_lookup in Hnone3
      by (by apply resolve_graph_ok). by apply fmap_None in Hnone3. }
  assert (fd_map (file_data st0) !! rel = None) as Hnone0.
  { pose proof (resolve_spec st0 Hsc) as Hrs. simpl in Hrs.
    destruct Hrs as (_ & _ & _ & _ & _ & Hsome).
    destruct (fd_map (file_data st0) !! rel) as [r|] eqn:Hr; [|done].
    destruct (Hsome rel r Hr) as (r' & Hr' & _). congruence. }
  pose proof (resolve_spec st0 Hsc) as Hrs. simpl in Hrs.
  destruct Hrs as (_ & _ & _ & _ & Hn & _).
  destruct (Hn rel Hnone0) as [_ Hadj0].
  rewrite Hadj5, Hadj. unfold get_set.
  destruct (seed_keeps_resolution dtm (resolve st0)) as (_ & _ & -> & _).
  { by apply resolve_graph_ok. }
  by rewrite Hadj0.
Qed.

(** ** The resolver *)



(** X10.  Every reference is accounted for, once.  In the state the
    analysis returns, a name that a file references (in either kind) has
    its unresolved-target tag on the file exactly when no other file
    defines it in the table of that kind, and otherwise every other definer
    is an edge target of the file; and every unresolved-target tag of a
    file is the tag of one of its references. *)
Theorem references_accounted_for env dtm files st rel r :
  analyse env dtm files = Ok st →
  fd_map (file_data st) !! rel = Some r →
  (∀ kind n, n ∈ kind_refs kind r →
     ((kind_tag kind ++ "::" ++ n) ∈ unresolved_targets r ↔
      candidates (kind_defs kind st) n rel = ∅) ∧
     candidates (kind_defs kind st) n rel ⊆ get_set (adjacency st) rel) ∧
  (∀ x, x ∈ unresolved_targets r →
        ∃ kind n, n ∈ kind_refs kind r ∧ x = kind_tag kind ++ "::" ++ n).
Proof.
  intros Han Hr.
  destruct (analyse_inv env dtm files st Han) as (_ & _ & (_ & Hfacts & _) & _).
  destruct (Hfacts rel r Hr) as (_ & Ht & Hu). split.
  - intros kind n Hn. split.
    + rewrite Hu. destruct kind; simpl in *; split.
      * intros [(m & _ & Hc & Heq)|(m & _ & _ & Heq)].
        -- by apply (tag_inj "use") in Heq as <-.
        -- by apply tag_use_call in Heq.
      * intros Hc. left. eauto.
      * intros [(m & _ & _ & Heq)|(m & _ & Hc & Heq)].
        -- symmetry in Heq. by apply tag_use_call in Heq.
        -- by apply (tag_inj "call") in Heq as <-.
      * intros Hc. right. eauto.
    + intros t Hin. apply Ht. destruct kind; simpl in *; [left|right]; eauto.
  - intros x Hx. apply Hu in Hx as [(n & Hn & _ & ->)|(n & Hn & _ & ->)].
    + by exists UseRef, n.
    + by exists CallRef, n.
Qed.

Lemma references_accounted_for_witness :
  (∀ kind n, n ∈ kind_refs kind Sample.pot_record →
     ((kind_tag kind ++ "::" ++ n) ∈ unresolved_targets Sample.pot_record ↔
      candidates (kind_defs kind Sample.final) n "feff10/src/POT/pot.f90" = ∅) ∧
     candidates (kind_defs kind Sample.final) n "feff10/src/POT/pot.f90"
       ⊆ get_set (adjacency Sample.final) "feff10/src/POT/pot.f90") ∧
  (∀ x, x ∈ unresolved_targets Sample.pot_record →
        ∃ kind n, n ∈ kind_refs kind Sample.pot_record ∧
                  x = kind_tag kind ++ "::" ++ n).
Proof.
  apply (references_accounted_for Sample.env Sample.dir_to_modules Sample.files).
  - vm_compute. reflexivity.
  - vm_compute. reflexivity.
Defined.

(** ** What propagation computes *)

Lemma step_labels_from st0 st st' :
  labels_from st0 st → step st = Ok st' → labels_from st0 st'.
Proof.
  intros [Hadj Hsound]. unfold step.
  destruct (queue st) as [|current rest] eqn:Hq.
  { intros [= <-]. done. }
  simpl. destruct (fd_map (file_data st) !! current) as [record|] eqn:Hrec;
    [|done].
  set (st1 := with_queue rest (queued st ∖ {[current]}) st).
  case_bool_decide as Hempty.
  { intros [= <-]. done. }
  assert (∀ l, l ∈ origin_modules record →
               ∃ s, l ∈ origins_of (file_data st0) s ∧
                    reach (adjacency st0) s current) as Hcur.
  { intros l Hl. apply Hsound. unfold origins_of. by rewrite Hrec. }
  intros Hfold.
  apply (foldl_relax_Ok (labels_from st0) _ _ _ _ Hfold); [done|].
  intros sa sb d [Hadja Hsa] Hd Hrel.
  pose proof (relaxed_grows _ _ _ _ Hrel) as (_ & _ & Hadjb & _).
  split; [congruence|].
  intros v l. rewrite (relaxed_origins_of _ _ _ _ v Hrel).
  case_decide as Hv; [|apply Hsa]. subst v.
  rewrite elem_of_union. intros [Hl|Hl]; [by apply Hsa|].
  destruct (Hcur l Hl) as (s & Hs & Hreach). exists s. split; [done|].
  eapply reach_step; [done|].
  apply elem_of_sorted in Hd. simpl in Hd. by rewrite <-Hadj.
Qed.

Lemma closed_reach st u v :
  (∀ w, closed_at st w) → reach (adjacency st) u v →
  origins_of (file_data st) u ⊆ origins_of (file_data st) v.
Proof.
  intros Hcl Hreach. induction Hreach as [|u v w _ IH Hedge]; [done|].
  etrans; [done|]. by apply Hcl.
Qed.

Lemma loop_reachable_labels fuel (st st' : state) :
  worklist_inv st →
  loop fuel st = Ok st' →
  ∀ v l, l ∈ origins_of (file_data st') v ↔
         ∃ s, l ∈ origins_of (file_data st) s ∧ reach (adjacency st) s v.
Proof.
  intros Hw Hloop.
  destruct (loop_Ok (λ s, labels_from st s ∧ worklist_inv s ∧ grows st s)
              _ _ _ Hloop) as [([Hadj Hsound] & [_ Hcl] & Hg) Hq].
  { split; [|split; [done|apply grows_refl]]. split; [done|].
    intros v l Hl. exists v. split; [done|constructor]. }
  { intros sa sb (Hla & Hwa & Hga) Hstep. split; [|split].
    - by eapply step_labels_from.
    - by eapply step_worklist.
    - eapply grows_trans; [done|by apply step_grows]. }
  intros v l. split; [apply Hsound|].
  intros (s & Hs & Hreach).
  apply (closed_reach st' s v).
  - intros w. apply Hcl. rewrite Hq. apply not_elem_of_nil.
  - by rewrite Hadj.
  - by apply (grows_origins_of st st').
Qed.

(** X11.  What the loop computes.  Started from a state that satisfies the
    work-list invariant (as the state after seeding does), the loop ends
    with every file holding exactly the labels that some file had at the
    start and that reach it along dependency edges: none is missing and
    none is invented.  The result therefore depends on the labels and the
    graph at the start only, not on the order of the queue. *)
Theorem propagation_computes_reachable_labels fuel (st st' : state) :
  worklist_inv st →
  loop fuel st = Ok st' →
  ∀ v l, l ∈ origins_of (file_data st') v ↔
         ∃ s, l ∈ origins_of (file_data st) s ∧ reach (adjacency st) s v.
Proof. apply loop_reachable_labels. Qed.

Lemma propagation_computes_reachable_labels_witness :
  "POT" ∈ origins_of (file_data Sample.after_loop) "feff10/src/ATOM/getorb.f" ↔
  ∃ s, "POT" ∈ origins_of (file_data Sample.before_loop) s ∧
       reach (adjacency Sample.before_loop) s "feff10/src/ATOM/getorb.f".
Proof.
  apply (propagation_computes_reachable_labels (fuel_bound Sample.before_loop)).
  - apply (ready_worklist_inv Sample.dir_to_modules).
    pose proof (ready_init_queue Sample.dir_to_modules More.scanned_state
                  (scan_scanned Sample.env Sample.files More.scanned_state
                     ltac:(vm_compute; reflexivity))) as Hready.
    assert (init_queue (seed Sample.dir_to_modules (resolve More.scanned_state))
            = Sample.before_loop) as <- by (vm_compute; reflexivity).
    exact Hready.
  - vm_compute. reflexivity.
Defined.

Lemma analyse_labels env dtm files st :
  analyse env dtm files = Ok st →
  ∀ v l, l ∈ origins_of (file_data st) v ↔
         ∃ s rs, fd_map (file_data st) !! s = Some rs ∧
                 l ∈ get_set dtm (fortran_dir rs) ∧
                 reach (adjacency st) s v.
Proof.
  intros Han.
  destruct (analyse_stages env dtm files st Han) as (st0 & st4 & Hscan & Hprop & ->).
  pose proof (scan_scanned env files st0 Hscan) as Hsc.
  set (st3 := init_queue (seed dtm (resolve st0))) in *.
  pose proof (ready_init_queue dtm st0 Hsc) as Hready. fold st3 in Hready.
  pose proof (loop_reachable_labels _ st3 st4
                (ready_worklist_inv dtm st3 Hready) Hprop) as Hexact.
  pose proof (loop_grows _ _ _ Hprop) as Hg.
  pose proof Hg as (_ & _ & Hadj & _ & Hkeys & Hrec).
  destruct Hready as (([Hnd3 Hdom3] & _) & _ & Ho3 & _).
  assert (dict_ok (file_data st4)) as Hd4.
  { split; [by rewrite Hkeys|]. intros k. rewrite Hkeys, Hdom3.
    symmetry. by apply grows_is_Some. }
  destruct (classify_spec st4 Hd4) as ((_ & _ & Hadj5 & _) & Hfd5).
  assert (∀ k, origins_of (file_data (classify st4)) k
               = origins_of (file_data st4) k) as Hoo.
  { intros k. unfold origins_of. rewrite Hfd5.
    destruct (fd_map (file_data st4) !! k) as [r|]; [|done]. simpl.
    by destruct (classify_record_fields (runtime_owned st4) r) as (_ & _ & _ & ->). }
  assert (∀ s l, l ∈ origins_of (file_data st3) s ↔
                 ∃ rs, fd_map (file_data (classify st4)) !! s = Some rs ∧
                       l ∈ get_set dtm (fortran_dir rs)) as Hseedlabels.
  { intros s l. rewrite Hfd5. unfold origins_of.
    pose proof (Hrec s) as Hs.
    destruct (fd_map (file_data st3) !! s) as [r3|] eqn:Hr3;
      destruct (fd_map (file_data st4) !! s) as [r4|] eqn:Hr4;
      try (by inversion Hs); simpl.
    - assert (record_grows r3 r4) as [Hf _] by (by inversion Hs).
      destruct (Ho3 s r3 Hr3) as [-> _].
      assert (fortran_dir (classify_record (runtime_owned st4) r4)
              = fortran_dir r3) as Hdir.
      { destruct (classify_record_fields (runtime_owned st4) r4) as (Hs4 & _).
        unfold non_origin_fields, scanned_fields in *. congruence. }
      split.
      + intros Hl. eexists. split; [done|]. rewrite Hdir.
        unfold is_seed in Hl. case_decide; [done|set_solver].
      + intros (rs & [= <-] & Hl). rewrite Hdir in Hl.
        unfold is_seed. case_decide as Hseed; [done|].
        rewrite Hseed in Hl. set_solver.
    - split; [set_solver|]. by intros (rs & ? & _). }
  intros v l. rewrite Hoo, Hexact, Hadj5, Hadj. split.
  - intros (s & Hs & Hreach). apply Hseedlabels in Hs as (rs & Hrs & Hl). eauto.
  - intros (s & rs & Hrs & Hl & Hreach). exists s. split; [|done].
    apply Hseedlabels. eauto.
Qed.

(** X12.  What the analysis assigns.  In the state the analysis returns, a
    file has origin label [l] exactly when some scanned file whose
    directory is mapped to module [l] reaches it along dependency edges
    (the file itself included).  Labels never flow against an edge, and a
    file that no seed reaches has none. *)
Theorem labels_are_those_of_reaching_seeds env dtm files st v r :
  analyse env dtm files = Ok st →
  fd_map (file_data st) !! v = Some r →
  ∀ l, l ∈ origin_modules r ↔
       ∃ s rs, fd_map (file_data st) !! s = Some rs ∧
               l ∈ get_set dtm (fortran_dir rs) ∧
               reach (adjacency st) s v.
Proof.
  intros Han Hr l. rewrite <-(analyse_labels env dtm files st Han v l).
  unfold origins_of. by rewrite Hr.
Qed.

Lemma labels_are_those_of_reaching_seeds_witness :
  "POT" ∈ origin_modules Sample.getorb_record ↔
  ∃ s rs, fd_map (file_data Sample.final) !! s = Some rs ∧
          "POT" ∈ get_set Sample.dir_to_modules (fortran_dir rs) ∧
          reach (adjacency Sample.final) s "feff10/src/ATOM/getorb.f".
Proof.
  apply (labels_are_those_of_reaching_seeds Sample.env Sample.dir_to_modules
           Sample.files).
  - vm_compute. reflexivity.
  - vm_compute. reflexivity.
Defined.

(** X13.  Classification by reachability.  In the state the analysis
    returns, a file is classified [runtime_support_dependency] exactly when
    it is not a seed and some seed reaches it along dependency edges, and
    [out_of_scope] exactly when it is not a seed and no seed reaches it.  A
    file that merely references an owned file is not pulled into scope. *)
Theorem classification_by_reachability env dtm files st v r :
  analyse env dtm files = Ok st →
  fd_map (file_data st) !! v = Some r →
  let reached :=
    ∃ s rs, fd_map (file_data st) !! s = Some rs ∧ is_seed dtm rs ∧
            reach (adjacency st) s v in
  (classification r = runtime_owned_s ↔ is_seed dtm r) ∧
  (classification r = runtime_support_dependency_s ↔ ¬ is_seed dtm r ∧ reached) ∧
  (classification r = out_of_scope_s ↔ ¬ is_seed dtm r ∧ ¬ reached).
Proof.
  intros Han Hr reached.
  destruct (analyse_inv env dtm files st Han)
    as (_ & _ & (_ & _ & _ & _ & Hrec) & _).
  destruct (Hrec v r Hr) as (Hseed & _ & Hc).
  assert (∀ l, l ∈ origin_modules r ↔
               ∃ s rs, fd_map (file_data st) !! s = Some rs ∧
                       l ∈ get_set dtm (fortran_dir rs) ∧
                       reach (adjacency st) s v) as Hlab.
  { intros l. rewrite <-(analyse_labels env dtm files st Han v l).
    unfold origins_of. by rewrite Hr. }
  assert (origin_modules r ≠ ∅ ↔ reached) as Hne.
  { split.
    - intros Hn. apply set_choose_L in Hn as [l Hl].
      apply Hlab in Hl as (s & rs & Hrs & Hl & Hreach).
      exists s, rs. split; [done|]. split; [|done].
      unfold is_seed. set_solver.
    - intros (s & rs & Hrs & Hs & Hreach).
      unfold is_seed in Hs. apply set_choose_L in Hs as [l Hl].
      assert (l ∈ origin_modules r) as Hin by (apply Hlab; eauto).
      set_solver. }
  rewrite Hc. unfold classification_of. rewrite <-Hseed.
  destruct (decide (v ∈ runtime_owned st)) as [Hin|Hnin].
  - unfold runtime_owned_s, runtime_support_dependency_s, out_of_scope_s.
    repeat split; try done; naive_solver.
  - rewrite <-Hne. unfold runtime_owned_s, runtime_support_dependency_s,
      out_of_scope_s. case_decide as Ho; repeat split; try done; naive_solver.
Qed.

Lemma classification_by_reachability_witness :
  classification Sample.unused_record = out_of_scope_s ↔
  ¬ is_seed Sample.dir_to_modules Sample.unused_record ∧
  ¬ ∃ s rs, fd_map (file_data Sample.final) !! s = Some rs ∧
            is_seed Sample.dir_to_modules rs ∧
            reach (adjacency Sample.final) s "feff10/src/MISC/unused.f".
Proof.
  apply (classification_by_reachability Sample.env Sample.dir_to_modules
           Sample.files Sample.final "feff10/src/MISC/unused.f").
  - vm_compute. reflexivity.
  - vm_compute. reflexivity.
Defined.

(** ** How a run ends *)

Lemma analyse_outcome env dtm files :
  (files_in_repo env files ∧ ∃ st, analyse env dtm files = Ok st) ∨
  (¬ files_in_repo env files ∧ analyse env dtm files = Raise not_in_subpath).
Proof.
  destruct (decide (files_in_repo env files)) as [Hin|Hout].
  - left. split; [done|].
    destruct (analyse_total env dtm files Hin) as (st & Han & _). eauto.
  - right. split; [done|]. unfold analyse, scan.
    destruct (foldl_scan_file_outcome env files state_init)
      as [[Hin _]|[_ ->]]; done.
Qed.

Lemma main_with_inputs env runtime_modules files :
  run_inputs env runtime_modules files →
  main env =
  match analyse env (build_dir_to_modules runtime_modules) files with
  | Ok st => emit env (records_of (file_data st))
  | Raise e => mkRun [] (Raise e)
  | Diverge => mkRun [] Diverge
  end.
Proof.
  intros (doc & entries & Hdoc & Htree & Hload & -> & Hne).
  unfold main. rewrite Hdoc, Htree, Hload. simpl.
  by rewrite bool_decide_eq_false_2.
Qed.

Lemma load_runtime_modules_Raise doc e :
  load_runtime_modules doc = Raise e →
  e = JSONDecodeError ∨ e = AttributeError ∨ ∃ msg, e = ValueError msg.
Proof.
  destruct doc as [| |[[|[|m ms]]|]]; simpl; intros [= <-]; eauto.
Qed.

Lemma main_without_inputs env :
  (¬ ∃ runtime_modules files, run_inputs env runtime_modules files) →
  written (main env) = [] ∧
  (ended (main env) = Ok 1%Z ∨ ended (main env) = Raise JSONDecodeError ∨
   ended (main env) = Raise AttributeError ∨
   ∃ msg, ended (main env) = Raise (ValueError msg)).
Proof.
  intros Hno. unfold main.
  destruct (manifest_file env) as [doc|] eqn:Hdoc; [|by split; [|left]].
  destruct (fortran_tree env) as [entries|] eqn:Htree; [|by split; [|left]].
  destruct (load_runtime_modules doc) as [rms|e|] eqn:Hload.
  - simpl. case_bool_decide as Hfiles; [by split; [|left]|].
    exfalso. apply Hno. exists rms, (list_fortran_files env entries).
    exists doc, entries. done.
  - split; [done|]. simpl.
    destruct (load_runtime_modules_Raise doc e Hload) as [->|[->|[msg ->]]];
      eauto.
  - by destruct doc as [| |[[|[|m ms]]|]].
Qed.

Lemma classic_inputs env :
  (∃ runtime_modules files, run_inputs env runtime_modules files) ∨
  ¬ (∃ runtime_modules files, run_inputs env runtime_modules files).
Proof.
  unfold run_inputs.
  destruct (manifest_file env) as [doc|] eqn:Hdoc;
    [|right; by intros (? & ? & ? & ? & ? & _)].
  destruct (fortran_tree env) as [entries|] eqn:Htree;
    [|right; by intros (? & ? & ? & ? & _ & ? & _)].
  destruct (load_runtime_modules doc) as [rms| |] eqn:Hload.
  - destruct (decide (list_fortran_files env entries = [])) as [Hnil|Hne].
    + right. intros (? & ? & doc' & entries' & [= <-] & [= <-] & _ & -> & Hne).
      done.
    + left. exists rms, (list_fortran_files env entries), doc, entries. done.
  - right. intros (? & ? & doc' & entries' & [= <-] & _ & Hl & _). congruence.
  - right. intros (? & ? & doc' & entries' & [= <-] & _ & Hl & _). congruence.
Qed.

Lemma emit_outcome env records :
  (outputs_in_repo env ∧
   emit env records =
   mkRun [CsvFile (generate_csv env records);
          ReportFile (generate_markdown_report env records)] (Ok 0%Z)) ∨
  (¬ outputs_in_repo env ∧ ended (emit env records) = Raise not_in_subpath ∧
   ((relative_to (manifest_path env) (repo_root env) = None ∨
     relative_to (csv_output env) (repo_root env) = None ∨
     relative_to (fortran_root env) (repo_root env) = None) ∧
    written (emit env records) = [CsvFile (generate_csv env records)]
    ∨
    (is_Some (relative_to (manifest_path env) (repo_root env)) ∧
     is_Some (relative_to (csv_output env) (repo_root env)) ∧
     is_Some (relative_to (fortran_root env) (repo_root env)) ∧
     relative_to (report_output env) (repo_root env) = None) ∧
    written (emit env records)
    = [CsvFile (generate_csv env records);
       ReportFile (generate_markdown_report env records)])).
Proof.
  unfold emit, outputs_in_repo.
  destruct (relative_to (manifest_path env) (repo_root env)) as [p1|] eqn:H1.
  2:{ right. split; [by intros [[??] _]|]. split; [done|]. left. eauto. }
  destruct (relative_to (csv_output env) (repo_root env)) as [p2|] eqn:H2.
  2:{ right. split; [by intros (_ & [??] & _)|]. split; [done|]. left. eauto. }
  destruct (relative_to (fortran_root env) (repo_root env)) as [p3|] eqn:H3.
  2:{ right. split; [by intros (_ & _ & [??] & _)|]. split; [done|]. left. eauto. }
  destruct (relative_to (report_output env) (repo_root env)) as [p4|] eqn:H4.
  - left. split; [|done]. repeat split; eauto.
  - right. split; [by intros (_ & _ & _ & [??])|]. split; [done|]. right.
    split; [|done]. repeat split; eauto.
Qed.

(** X14.  What status 0 implies.  A run that ends with status 0 found a
    manifest with a non-empty module list and a source root with at least
    one Fortran file below it; every Fortran file, the manifest, the CSV
    path, the source root and the report path lie under the repository
    root; the analysis returned; and the run has written the CSV and the
    report of that analysis, in this order, and nothing else. *)
Theorem success_requires_paths_in_repo (env : Env) :
  ended (main env) = Ok 0%Z →
  ∃ runtime_modules files st,
    run_inputs env runtime_modules files ∧
    files_in_repo env files ∧ outputs_in_repo env ∧
    analyse env (build_dir_to_modules runtime_modules) files = Ok st ∧
    written (main env) = artifacts_of env st.
Proof.
  intros Hend.
  destruct (classic_inputs env) as [(rms & files & Hin)|Hno].
  2:{ destruct (main_without_inputs env Hno) as [_ Hcases].
      rewrite Hend in Hcases.
      destruct Hcases as [?|[?|[?|[? ?]]]]; done. }
  rewrite (main_with_inputs env rms files Hin) in Hend |- *.
  destruct (analyse_outcome env (build_dir_to_modules rms) files)
    as [[Hrepo [st Han]]|[_ Han]]; rewrite Han in Hend |- *; [|done].
  exists rms, files, st. split; [done|]. split; [done|].
  destruct (emit_outcome env (records_of (file_data st)))
    as [[Hout Hemit]|(_ & Hraise & _)]; [|congruence].
  split; [done|]. split; [done|]. by rewrite Hemit.
Qed.

Lemma sample_run_inputs :
  run_inputs Sample.env ["POT"] Sample.files.
Proof.
  eexists _, _. split; [reflexivity|]. split; [reflexivity|].
  split; [reflexivity|]. split; [vm_compute; reflexivity|]. done.
Qed.

Lemma success_requires_paths_in_repo_witness :
  ∃ runtime_modules files st,
    run_inputs Sample.env runtime_modules files ∧
    files_in_repo Sample.env files ∧ outputs_in_repo Sample.env ∧
    analyse Sample.env (build_dir_to_modules runtime_modules) files = Ok st ∧
    written (main Sample.env) = artifacts_of Sample.env st.
Proof.
  apply (success_requires_paths_in_repo Sample.env).
  vm_compute. reflexivity.
Defined.

(** X15.  A failure of [relative_to] after the analysis leaves output
    behind.  When the inputs passed the checks of [main] and every Fortran
    file lies under the repository root, a run that ends with the
    [ValueError] of [relative_to] has completed the analysis and has
    written the CSV.  It has written nothing else when the manifest, the
    CSV path or the source root is outside the repository root, and the
    report as well when only the report path is outside. *)
Theorem relative_to_failure_leaves_output env runtime_modules files :
  run_inputs env runtime_modules files →
  files_in_repo env files →
  ended (main env) = Raise not_in_subpath →
  ∃ st, analyse env (build_dir_to_modules runtime_modules) files = Ok st ∧
    ((relative_to (manifest_path env) (repo_root env) = None ∨
      relative_to (csv_output env) (repo_root env) = None ∨
      relative_to (fortran_root env) (repo_root env) = None) ∧
     written (main env)
     = [CsvFile (generate_csv env (records_of (file_data st)))]
     ∨
     (is_Some (relative_to (manifest_path env) (repo_root env)) ∧
      is_Some (relative_to (csv_output env) (repo_root env)) ∧
      is_Some (relative_to (fortran_root env) (repo_root env)) ∧
      relative_to (report_output env) (repo_root env) = None) ∧
     written (main env) = artifacts_of env st).
Proof.
  intros Hin Hrepo Hend.
  rewrite (main_with_inputs env runtime_modules files Hin) in Hend |- *.
  destruct (analyse_outcome env (build_dir_to_modules runtime_modules) files)
    as [[_ [st Han]]|[Hnot _]]; [|done].
  exists st. split; [done|]. rewrite Han in Hend |- *.
  destruct (emit_outcome env (records_of (file_data st)))
    as [[_ Hemit]|(_ & _ & Hcases)]; [|exact Hcases].
  rewrite Hemit in Hend. discriminate Hend.
Qed.

Lemma relative_to_failure_leaves_output_witness :
  (∃ rows, written (main Outside.manifest_outside) = [CsvFile rows]) ∧
  (∃ rows numbers, written (main Outside.report_outside)
                   = [CsvFile rows; ReportFile numbers]).
Proof.
  destruct (relative_to_failure_leaves_output Outside.manifest_outside ["POT"]
              Sample.files) as (st & _ & Hw).
  { eexists _, _. split; [reflexivity|]. split; [reflexivity|].
    split; [reflexivity|]. split; [vm_compute; reflexivity|]. done. }
  { compute_done. }
  { vm_compute. reflexivity. }
  destruct (relative_to_failure_leaves_output Outside.report_outside ["POT"]
              Sample.files) as (st' & _ & Hw').
  { eexists _, _. split; [reflexivity|]. split; [reflexivity|].
    split; [reflexivity|]. split; [vm_compute; reflexivity|]. done. }
  { compute_done. }
  { vm_compute. reflexivity. }
  split.
  - destruct Hw as [[_ Hw]|[(_ & _ & _ & Hrep) _]].
    + eexists. exact Hw.
    + vm_compute in Hrep. discriminate Hrep.
  - destruct Hw' as [[[Hm|[Hc|Hf]] _]|[_ Hw']].
    + vm_compute in Hm. discriminate Hm.
    + vm_compute in Hc. discriminate Hc.
    + vm_compute in Hf. discriminate Hf.
    + eexists _, _. exact Hw'.
Defined.

(** X16.  A run never raises [KeyError] and never runs on without end: the
    lookups [file_data[current]] and [file_data[dep]] of the propagation
    loop always find their key, and the loop always comes to an end,
    whatever the manifest and the tree are. *)
Theorem run_never_key_error (env : Env) :
  (∀ k, ended (main env) ≠ Raise (KeyError k)) ∧
  ended (main env) ≠ Diverge.
Proof.
  assert (ended (main env) = Ok 0%Z ∨ ended (main env) = Ok 1%Z ∨
          ended (main env) = Raise JSONDecodeError ∨
          ended (main env) = Raise AttributeError ∨
          ∃ msg, ended (main env) = Raise (ValueError msg)) as Hcases.
  { destruct (classic_inputs env) as [(rms & files & Hin)|Hno].
    2:{ destruct (main_without_inputs env Hno) as [_ [?|[?|[?|?]]]]; eauto. }
    rewrite (main_with_inputs env rms files Hin).
    destruct (analyse_outcome env (build_dir_to_modules rms) files)
      as [[_ [st ->]]|[_ ->]].
    - destruct (emit_outcome env (records_of (file_data st)))
        as [[_ ->]|(_ & -> & _)]; [by left|].
      right; right; right; right. by eexists.
    - right; right; right; right. by eexists. }
  split.
  - intros k Hk. rewrite Hk in Hcases.
    destruct Hcases as [?|[?|[?|[?|[? ?]]]]]; done.
  - intros Hd. rewrite Hd in Hcases.
    destruct Hcases as [?|[?|[?|[?|[? ?]]]]]; done.
Qed.

(** ** The work queue *)

Lemma relaxed_queue_ok cur d st st' :
  queue_ok st → relaxed cur d st st' → queue_ok st'.
Proof.
  intros [Hnd Hqd] (target & _ & _ & _ & _ & _ & _ & Hq). unfold queue_ok.
  destruct Hq as [(_ & -> & ->)|(_ & Hnq & -> & ->)]; [by split|].
  split.
  - apply NoDup_app. split; [done|]. split; [|apply NoDup_singleton].
    intros x Hx Hx'. apply list_elem_of_singleton in Hx' as ->.
    by apply Hnq, Hqd.
  - intros k. rewrite elem_of_union, elem_of_singleton, elem_of_app,
      list_elem_of_singleton, Hqd. done.
Qed.

Lemma step_queue_ok st st' : queue_ok st → step st = Ok st' → queue_ok st'.
Proof.
  intros [Hnd Hqd]. unfold step.
  destruct (queue st) as [|current rest] eqn:Hq.
  { intros [= <-]. unfold queue_ok. by rewrite Hq. }
  simpl. destruct (fd_map (file_data st) !! current) as [record|]; [|done].
  set (st1 := with_queue rest (queued st ∖ {[current]}) st).
  apply NoDup_cons in Hnd as [Hcr Hnd].
  assert (queue_ok st1) as Hqok1.
  { split; [done|]. intros k. simpl.
    rewrite elem_of_difference, elem_of_singleton, Hqd, elem_of_cons.
    split; [naive_solver|]. intros Hk. split; [by right|]. by intros ->. }
  case_bool_decide; [by intros [= <-]|].
  intros Hfold. apply (foldl_relax_Ok queue_ok _ _ _ _ Hfold); [done|].
  intros sa sb d Ha _ Hrel. by eapply relaxed_queue_ok.
Qed.

Lemma queue_length_bound st :
  queue_ok st → no_key_error st →
  length (queue st) ≤ size (fd_map (file_data st)).
Proof.
  intros [Hnd _] [Hq _].
  rewrite <-(size_list_to_set (C := gset string) (queue st)) by done.
  rewrite <-size_dom. apply subseteq_size.
  intros k Hk. apply elem_of_list_to_set in Hk. apply elem_of_dom. by apply Hq.
Qed.

(** X17.  The work queue is deduplicated.  If [queue] has no duplicates,
    [queued] is its set of members and every queued key and edge target is
    a scanned file, then one iteration of the loop returns and keeps all
    three properties; so the queue never holds more entries than there are
    scanned files. *)
Theorem work_queue_deduplicated (st : state) :
  queue_ok st → no_key_error st →
  length (queue st) ≤ size (fd_map (file_data st)) ∧
  ∃ st', step st = Ok st' ∧ queue_ok st' ∧ no_key_error st' ∧
         length (queue st') ≤ size (fd_map (file_data st')).
Proof.
  intros Hqok Hnk. split; [by apply queue_length_bound|].
  destruct (queue st) as [|current rest] eqn:Hq.
  { exists st. unfold step. rewrite Hq. split; [done|]. split; [done|].
    split; [done|]. simpl. lia. }
  destruct (fuel_bound_enough st) as [Hb _].
  destruct (step_progress _ st Hnk Hb) as (st' & Hstep & Hnk' & _).
  { by rewrite Hq. }
  exists st'. split; [done|].
  assert (queue_ok st') as Hqok' by (by eapply step_queue_ok).
  split; [done|]. split; [done|]. by apply queue_length_bound.
Qed.

Lemma work_queue_deduplicated_witness :
  length (queue Sample.before_loop) ≤ size (fd_map (file_data Sample.before_loop)) ∧
  ∃ st', step Sample.before_loop = Ok st' ∧ queue_ok st' ∧ no_key_error st' ∧
         length (queue st') ≤ size (fd_map (file_data st')).
Proof.
  apply (work_queue_deduplicated Sample.before_loop).
  - split; [compute_done|]. intros k.
    change (k ∈ queued Sample.before_loop)
      with (k ∈ (list_to_set (queue Sample.before_loop) : gset string)).
    apply elem_of_list_to_set.
  - apply lookups_defined_no_key_error. vm_compute. reflexivity.
Defined.

(** ** The rows of the CSV *)

Lemma omap_lookup_keys (m : gmap string FileData) (l : list string) :
  (∀ k, k ∈ l → is_Some (m !! k)) →
  (∀ k r, m !! k = Some r → rel_path r = k) →
  rel_path <$> omap (λ k, m !! k) l = l ∧
  ∀ r, r ∈ omap (λ k, m !! k) l ↔ ∃ k, k ∈ l ∧ m !! k = Some r.
Proof.
  intros Hdom Hkey. split.
  - induction l as [|k l IH]; [done|]. simpl.
    destruct (Hdom k) as [r Hr]; [left|]. rewrite Hr. simpl.
    rewrite (Hkey k r Hr). f_equal. apply IH. intros k' Hk'. apply Hdom.
    by right.
  - intros r. apply list_elem_of_omap.
Qed.

Lemma dict_ok_length (d : file_dict) :
  dict_ok d → length (fd_keys d) = size (fd_map d).
Proof.
  intros [Hnd Hdom].
  rewrite <-(size_list_to_set (C := gset string) (fd_keys d)) by done.
  rewrite <-size_dom. f_equal. apply leibniz_equiv. intros k.
  by rewrite elem_of_list_to_set, elem_of_dom, Hdom.
Qed.

(** X18.  The CSV has one data row per scanned file, in ascending order of
    the relative path and without repetition.  Each row is the row of the
    record stored under its path: its dependency count is the number of
    edges that leave the file, its unresolved count the number of tags on
    the record, and its classification one of the three classification
    strings. *)
Theorem csv_rows_cover_files env dtm files st :
  analyse env dtm files = Ok st →
  let rows := generate_csv env (records_of (file_data st)) in
  row_fortran_path <$> rows = sorted_list (fd_keys (file_data st)) ∧
  StronglySorted String.le (row_fortran_path <$> rows) ∧
  NoDup (row_fortran_path <$> rows) ∧
  length rows = size (fd_map (file_data st)) ∧
  ∀ row, row ∈ rows →
    ∃ r, fd_map (file_data st) !! row_fortran_path row = Some r ∧
         row = csv_row env r ∧
         row_resolved_dependency_count row
         = size (get_set (adjacency st) (row_fortran_path row)) ∧
         row_unresolved_target_count row = size (unresolved_targets r) ∧
         row_classification row
         ∈ [runtime_owned_s; runtime_support_dependency_s; out_of_scope_s].
Proof.
  intros Han rows.
  destruct (analyse_inv env dtm files st Han)
    as (_ & _ & (([Hnd Hdom] & Hkey & _) & Hfacts & _ & _ & Hrec) & _).
  destruct (omap_lookup_keys (fd_map (file_data st))
              (sorted_list (fd_keys (file_data st)))) as [Hpaths Hmem].
  { intros k Hk. apply Hdom. by rewrite elem_of_sorted_list in Hk. }
  { done. }
  assert (row_fortran_path <$> rows = sorted_list (fd_keys (file_data st)))
    as Hrows.
  { unfold rows, generate_csv. rewrite <-list_fmap_compose. exact Hpaths. }
  split; [done|]. split; [|split; [|split]].
  - rewrite Hrows. apply StronglySorted_merge_sort; apply _.
  - rewrite Hrows, sorted_list_perm. done.
  - rewrite <-(length_fmap row_fortran_path), Hrows, sorted_list_perm.
    by apply dict_ok_length.
  - intros row Hrow. unfold rows, generate_csv in Hrow.
    apply list_elem_of_fmap in Hrow as (r & -> & Hr).
    apply Hmem in Hr as (k & _ & Hr).
    pose proof (Hkey k r Hr) as Hk. simpl. rewrite Hk.
    exists r. split; [done|]. split; [done|].
    destruct (Hfacts k r Hr) as (-> & _). split; [done|]. split; [done|].
    destruct (Hrec k r Hr) as (_ & _ & ->). unfold classification_of.
    repeat case_decide; set_solver.
Qed.

Lemma csv_rows_cover_files_witness :
  row_fortran_path <$> generate_csv Sample.env (records_of (file_data Sample.final))
  = sorted_list (fd_keys (file_data Sample.final)) ∧
  length (generate_csv Sample.env (records_of (file_data Sample.final))) = 4.
Proof.
  destruct (csv_rows_cover_files Sample.env Sample.dir_to_modules Sample.files
              Sample.final ltac:(vm_compute; reflexivity))
    as (Hpaths & _ & _ & Hlen & _).
  split; [exact Hpaths|]. rewrite Hlen. vm_compute. reflexivity.
Defined.

(** ** The numbers of the report *)

Lemma counter_get_incr k k' (c : gmap string nat) :
  counter_get (counter_incr k c) k'
  = counter_get c k' + (if decide (k = k') then 1 else 0).
Proof.
  unfold counter_get, counter_incr. rewrite lookup_insert.
  destruct (decide (k = k')) as [->|]; simpl; lia.
Qed.

Lemma counter_total_incr k (c : gmap string nat) :
  counter_total (counter_incr k c) = S (counter_total c).
Proof.
  unfold counter_total, counter_incr.
  destruct (c !! k) as [n|] eqn:Hk; simpl.
  - rewrite <-(insert_delete_eq c k (S n)).
    rewrite map_fold_insert_L; [|intros; lia|apply lookup_delete_eq].
    rewrite (map_fold_delete_L _ _ k n c); [lia|intros; lia|done].
  - rewrite map_fold_insert_L; [lia|intros; lia|done].
Qed.

Lemma foldl_counter_incr {A} (f : A → string) (l : list A) c k :
  counter_get (foldl (λ c x, counter_incr (f x) c) c l) k
  = counter_get c k + length (filter (λ x, f x = k) l).
Proof.
  revert c. induction l as [|x l IH]; intros c; simpl; [lia|].
  rewrite IH, counter_get_incr.
  destruct (decide (f x = k)) as [Heq|Hne].
  - rewrite filter_cons_True by done. simpl. lia.
  - rewrite filter_cons_False by done. lia.
Qed.

Lemma foldl_counter_incr_total {A} (f : A → string) (l : list A) c :
  counter_total (foldl (λ c x, counter_incr (f x) c) c l)
  = counter_total c + length l.
Proof.
  revert c. induction l as [|x l IH]; intros c; simpl; [lia|].
  rewrite IH, counter_total_incr. lia.
Qed.

Lemma counter_total_empty : counter_total ∅ = 0.
Proof. done. Qed.

Lemma counter_get_empty k : counter_get ∅ k = 0.
Proof. unfold counter_get. by rewrite lookup_empty. Qed.

Lemma foldl_counter2_incr (l : list FileData) c d k :
  counter_get
    (default ∅
       (foldl (λ c record,
                 counter2_incr (fortran_dir record) (classification record) c)
              c l !! d)) k
  = counter_get (default ∅ (c !! d)) k
    + length (filter (λ r, fortran_dir r = d ∧ classification r = k) l).
Proof.
  revert c. induction l as [|x l IH]; intros c; simpl; [lia|].
  rewrite IH. unfold counter2_incr. rewrite lookup_insert.
  destruct (decide (fortran_dir x = d)) as [Hd|Hd].
  - simpl. rewrite counter_get_incr, Hd.
    destruct (decide (classification x = k)) as [Hk|Hk].
    + rewrite filter_cons_True by done. simpl. lia.
    + rewrite filter_cons_False by tauto. lia.
  - rewrite filter_cons_False by tauto. lia.
Qed.

Lemma unresolved_counter_fold env (l : list FileData) c :
  set_iter_ok env →
  let c' := foldl (λ c record,
                     foldl (λ c symbol, counter_incr symbol c) c
                           (set_iter env (unresolved_targets record))) c l in
  (∀ k, counter_get c' k
        = counter_get c k
          + length (filter (λ r, k ∈ unresolved_targets r) l)) ∧
  counter_total c'
  = counter_total c + sum_list ((λ r, size (unresolved_targets r)) <$> l).
Proof.
  intros Hiter. revert c. induction l as [|x l IH]; intros c; simpl.
  { split; [intros; lia|lia]. }
  destruct (IH (foldl (λ c symbol, counter_incr symbol c) c
                  (set_iter env (unresolved_targets x)))) as [IHg IHt].
  split.
  - intros k. rewrite IHg.
    rewrite (foldl_counter_incr (λ s : string, s)).
    assert (length (filter (λ s, s = k) (set_iter env (unresolved_targets x)))
            = if decide (k ∈ unresolved_targets x) then 1 else 0) as ->.
    { rewrite (Hiter (unresolved_targets x)).
      pose proof (NoDup_elements (unresolved_targets x)) as Hnd.
      assert (∀ y, y ∈ elements (unresolved_targets x) ↔
                   y ∈ unresolved_targets x) as Hel
        by (intros; apply elem_of_elements).
      revert Hnd Hel. generalize (elements (unresolved_targets x)).
      intros els Hnd Hel. case_decide as Hk.
      - apply Hel in Hk. clear Hel.
        induction els as [|y els IHe]; [by apply elem_of_nil in Hk|].
        apply NoDup_cons in Hnd as [Hy Hnd].
        destruct (decide (y = k)) as [->|Hne].
        + rewrite filter_cons_True by done. simpl. f_equal.
          clear IHe Hk. induction els as [|z els IHz]; [done|].
          apply not_elem_of_cons in Hy as [Hz Hy].
          apply NoDup_cons in Hnd as [_ Hnd].
          rewrite filter_cons_False by (by intros ->). by apply IHz.
        + rewrite filter_cons_False by done. apply IHe; [done|].
          apply elem_of_cons in Hk as [->|]; done.
      - assert (k ∉ els) as Hk' by (by rewrite Hel). clear Hel Hnd Hk.
        induction els as [|y els IHe]; [done|].
        apply not_elem_of_cons in Hk' as [Hne Hk'].
        rewrite filter_cons_False by (by intros ->). by apply IHe. }
    case_decide.
    + rewrite filter_cons_True by done. simpl. lia.
    + rewrite filter_cons_False by done. lia.
  - rewrite IHt, (foldl_counter_incr_total (λ s : string, s)).
    rewrite (Hiter (unresolved_targets x)). unfold size, set_size. simpl.
    by rewrite <-Nat.add_assoc.
Qed.

(** X19.  The counters of the report count files.  For any list of
    records: the classification counter gives, per classification, the
    number of records that have it, and its counts add up to the number of
    records; the directory counter does the same per directory; the
    unresolved-symbol counter gives, per tag, the number of records that
    carry it, and its counts add up to the reported total of unresolved
    entries. *)
Theorem report_counters_count_files env (records : list FileData) :
  set_iter_ok env →
  let d := generate_markdown_report env records in
  rd_total_files d = length records ∧
  (∀ c, counter_get (rd_classification_totals d) c
        = length (filter (λ r, classification r = c) records)) ∧
  counter_total (rd_classification_totals d) = length records ∧
  (∀ dir c, counter_get (default ∅ (rd_directory_totals d !! dir)) c
            = length (filter (λ r, fortran_dir r = dir ∧ classification r = c)
                             records)) ∧
  (∀ x, counter_get (rd_unresolved_symbol_counter d) x
        = length (filter (λ r, x ∈ unresolved_targets r) records)) ∧
  counter_total (rd_unresolved_symbol_counter d) = rd_unresolved_total d ∧
  rd_unresolved_files d ≤ length records.
Proof.
  intros Hiter d. unfold d, generate_markdown_report. simpl.
  split; [done|]. split; [|split; [|split; [|split; [|split]]]].
  - intros c. by rewrite foldl_counter_incr, counter_get_empty.
  - by rewrite foldl_counter_incr_total, counter_total_empty.
  - intros dir c. rewrite foldl_counter2_incr, lookup_empty. simpl.
    by rewrite counter_get_empty.
  - intros x.
    destruct (unresolved_counter_fold env records ∅ Hiter) as [Hg _].
    by rewrite Hg, counter_get_empty.
  - destruct (unresolved_counter_fold env records ∅ Hiter) as [_ Ht].
    by rewrite Ht, counter_total_empty.
  - apply length_filter.
Qed.

Lemma report_counters_count_files_witness :
  let d := generate_markdown_report Sample.env (records_of (file_data Sample.final)) in
  counter_total (rd_classification_totals d) = 4 ∧
  counter_total (rd_unresolved_symbol_counter d) = rd_unresolved_total d.
Proof.
  destruct (report_counters_count_files Sample.env
              (records_of (file_data Sample.final)))
    as (_ & _ & Htot & _ & _ & Hun & _).
  { intros s. reflexivity. }
  split; [|exact Hun]. rewrite Htot. vm_compute. reflexivity.
Defined.

(** ** The in-scope module list *)

Lemma analyse_same_files env dtm dtm' files st st' s rs :
  analyse env dtm files = Ok st →
  analyse env dtm' files = Ok st' →
  fd_map (file_data st) !! s = Some rs →
  adjacency st' = adjacency st ∧
  ∃ rs', fd_map (file_data st') !! s = Some rs' ∧
         fortran_dir rs' = fortran_dir rs.
Proof.
  intros Han Han' Hrs.
  destruct (analyse_inv _ _ _ _ Han) as (st0 & Hscan & _ & _ & _ & Hadj).
  destruct (analyse_inv _ _ _ _ Han') as (st0' & Hscan' & _ & _ & _ & Hadj').
  assert (st0' = st0) as -> by congruence.
  split; [congruence|].
  destruct (analyse_keeps_resolution _ _ _ _ _ Hscan Han) as (_ & _ & _ & Hk).
  destruct (analyse_keeps_resolution _ _ _ _ _ Hscan Han') as (_ & _ & _ & Hk').
  pose proof (Hk s) as H1. pose proof (Hk' s) as H2. rewrite Hrs in H1.
  revert H1 H2.
  destruct (fd_map (file_data (resolve st0)) !! s) as [r1|]; intros H1 H2;
    [|by inversion H1].
  revert H2.
  destruct (fd_map (file_data st') !! s) as [rs'|]; intros H2;
    [|by inversion H2].
  exists rs'. split; [done|].
  assert (scanned_fields rs = scanned_fields r1) as E1.
  { inversion H1 as [a b Hab|]. by destruct Hab as [? _]. }
  assert (scanned_fields rs' = scanned_fields r1) as E2.
  { inversion H2 as [a b Hab|]. by destruct Hab as [? _]. }
  unfold scanned_fields in *. congruence.
Qed.

Lemma build_dir_to_modules_mono rms rms' d :
  (∀ m, m ∈ rms → m ∈ rms') →
  get_set (build_dir_to_modules rms) d ⊆ get_set (build_dir_to_modules rms') d.
Proof.
  intros Hsub m Hm. apply build_dir_to_modules_elem in Hm as [Hm Hd].
  apply build_dir_to_modules_elem. split; [by apply Hsub|done].
Qed.

(** X20.  Labels come from the manifest.  When the directory map is built
    from the in-scope module list, every origin label of every file in the
    state the analysis returns is a module of that list; and a file whose
    directory is one of the directories of an in-scope module carries that
    module as a label and is classified [runtime_owned]. *)
Theorem labels_within_scope env runtime_modules files st v r :
  analyse env (build_dir_to_modules runtime_modules) files = Ok st →
  fd_map (file_data st) !! v = Some r →
  (∀ l, l ∈ origin_modules r → l ∈ runtime_modules) ∧
  (∀ m, m ∈ runtime_modules →
        fortran_dir r ∈ upper <$> table_get MODULE_TO_DIRS m [m] →
        m ∈ origin_modules r ∧ classification r = runtime_owned_s).
Proof.
  intros Han Hr. split.
  - intros l Hl.
    assert (l ∈ origins_of (file_data st) v) as Hl'
      by (unfold origins_of; by rewrite Hr).
    apply (analyse_labels _ _ _ _ Han) in Hl' as (s & rs & _ & Hin & _).
    by apply build_dir_to_modules_elem in Hin as [? _].
  - intros m Hm Hdir.
    assert (m ∈ get_set (build_dir_to_modules runtime_modules) (fortran_dir r))
      as Hin by (by apply build_dir_to_modules_elem).
    destruct (analyse_inv _ _ _ _ Han) as (_ & _ & (_ & _ & _ & _ & Hrec) & _).
    destruct (Hrec v r Hr) as (Hseed & Hsub & Hc).
    split; [by apply Hsub|].
    rewrite Hc. unfold classification_of. rewrite decide_True; [done|].
    apply Hseed. unfold is_seed. set_solver.
Qed.

Lemma labels_within_scope_witness :
  (∀ l, l ∈ origin_modules Sample.pot_record → l ∈ ["POT"]) ∧
  (∀ m, m ∈ ["POT"] →
        fortran_dir Sample.pot_record
          ∈ upper <$> table_get MODULE_TO_DIRS m [m] →
        m ∈ origin_modules Sample.pot_record ∧
        classification Sample.pot_record = runtime_owned_s).
Proof.
  apply (labels_within_scope Sample.env ["POT"] Sample.files Sample.final
           "feff10/src/POT/pot.f90").
  - vm_compute. reflexivity.
  - vm_compute. reflexivity.
Defined.

(** X21.  A longer module list never shrinks the result.  For two analyses
    of the same tree, the second with a module list that includes the
    first: every file has in the second at least the labels it has in the
    first, a file that is [runtime_owned] in the first is so in the second,
    and a file that is [out_of_scope] in the second is so in the first. *)
Theorem analysis_monotone_in_scope env rms rms' files st st' v r r' :
  (∀ m, m ∈ rms → m ∈ rms') →
  analyse env (build_dir_to_modules rms) files = Ok st →
  analyse env (build_dir_to_modules rms') files = Ok st' →
  fd_map (file_data st) !! v = Some r →
  fd_map (file_data st') !! v = Some r' →
  origin_modules r ⊆ origin_modules r' ∧
  (classification r = runtime_owned_s → classification r' = runtime_owned_s) ∧
  (classification r' = out_of_scope_s → classification r = out_of_scope_s).
Proof.
  intros Hsub Han Han' Hr Hr'.
  assert (origin_modules r ⊆ origin_modules r') as Hlabels.
  { intros l Hl.
    assert (l ∈ origins_of (file_data st) v) as Hl1
      by (unfold origins_of; by rewrite Hr).
    apply (analyse_labels _ _ _ _ Han) in Hl1 as (s & rs & Hrs & Hin & Hreach).
    destruct (analyse_same_files _ _ _ _ _ _ _ _ Han Han' Hrs)
      as (Hadj & rs' & Hrs' & Hdir).
    assert (l ∈ origins_of (file_data st') v) as Hl2.
    { apply (analyse_labels _ _ _ _ Han'). exists s, rs'.
      split; [done|]. split.
      - rewrite Hdir. by apply (build_dir_to_modules_mono rms rms').
      - by rewrite Hadj. }
    unfold origins_of in Hl2. by rewrite Hr' in Hl2. }
  destruct (analyse_same_files _ _ _ _ _ _ _ _ Han Han' Hr)
    as (_ & r'' & Hr'' & Hdir).
  assert (r'' = r') as -> by congruence.
  assert (is_seed (build_dir_to_modules rms) r →
          is_seed (build_dir_to_modules rms') r') as Hseeds.
  { unfold is_seed. rewrite Hdir. intros Hne Hempty. apply Hne.
    pose proof (build_dir_to_modules_mono rms rms' (fortran_dir r) Hsub).
    set_solver. }
  destruct (analyse_inv _ _ _ _ Han) as (_ & _ & (_ & _ & _ & _ & Hrec) & _).
  destruct (analyse_inv _ _ _ _ Han') as (_ & _ & (_ & _ & _ & _ & Hrec') & _).
  destruct (Hrec v r Hr) as (Hown & _ & Hc).
  destruct (Hrec' v r' Hr') as (Hown' & _ & Hc').
  split; [done|]. rewrite Hc, Hc'. unfold classification_of. split.
  - intros Ho. rewrite decide_True; [done|]. apply Hown', Hseeds, Hown.
    revert Ho. case_decide; [done|]. by case_decide.
  - case_decide as Hk'; [done|]. case_decide as Hl'; [done|]. intros _.
    rewrite decide_False.
    + rewrite decide_False; [done|]. intros Hne. apply Hne. set_solver.
    + intros Hk. apply Hk', Hown', Hseeds, Hown, Hk.
Qed.

Lemma analysis_monotone_in_scope_witness :
  origin_modules Sample.getorb_record ⊆ origin_modules More.getorb_wider ∧
  (classification Sample.getorb_record = runtime_owned_s →
   classification More.getorb_wider = runtime_owned_s) ∧
  (classification More.getorb_wider = out_of_scope_s →
   classification Sample.getorb_record = out_of_scope_s).
Proof.
  apply (analysis_monotone_in_scope Sample.env ["POT"] ["POT"; "MISC"]
           Sample.files Sample.final More.final_wider
           "feff10/src/ATOM/getorb.f").
  - intros m Hm. apply list_elem_of_singleton in Hm as ->. by left.
  - vm_compute. reflexivity.
  - vm_compute. reflexivity.
  - vm_compute. reflexivity.
  - vm_compute. reflexivity.
Defined.
